(** * Maze solver: grid model, A-star path solver and maze generator

    A shallow embedding of the TypeScript sources
    - [maze.ts]       (class [Maze]),
    - [solvers/astar.ts] (classes [AStarSolver] and [PriorityQueue]),
    - [generator.ts]  (class [MazeGenerator]),
    together with the properties of the specification that concern them.

    JavaScript numbers holding coordinates, sizes and scores are integers and
    are modelled as [Z]; a [number[][]] board is a [list (list Z)]; a
    [Map<string, _>] is a [gmap string _] keyed by the very string the source
    builds; thrown errors are the [Throw] outcome. *)

From stdpp Require Import gmap strings list fin_maps pretty sorting.
From Stdlib Require Import ZArith Lia Ascii.

Local Open Scope Z_scope.

(** ** Outcomes of a call *)

(** A call either returns, throws an [Error] with a message, or is cut short
    by the model: [OutOfFuel] when an unbounded loop or recursion of the source
    exceeds the fuel of its model, [Undefined] when the source would read or
    write outside of what the model represents (a read marked with the
    non-null assertion [!] that finds nothing, a write past the end of a row).
    The theorems below show that the last two never happen: not in [findPath]
    on a grid built by [create], not in [generate] for a width and a height of
    at least 3. *)
Inductive outcome (A : Type) : Type :=
  | Ok (a : A)
  | Throw (msg : string)
  | OutOfFuel
  | Undefined.
Arguments Ok {A} a.
Arguments Throw {A} msg.
Arguments OutOfFuel {A}.
Arguments Undefined {A}.

#[global] Instance outcome_ret : MRet outcome := @Ok.
#[global] Instance outcome_bind : MBind outcome := λ A B f o,
  match o with
  | Ok a => f a
  | Throw msg => Throw msg
  | OutOfFuel => OutOfFuel
  | Undefined => Undefined
  end.
#[global] Instance outcome_fmap : FMap outcome := λ A B f o,
  match o with
  | Ok a => Ok (f a)
  | Throw msg => Throw msg
  | OutOfFuel => OutOfFuel
  | Undefined => Undefined
  end.

(** ** maze.ts *)

(** [interface Coordinate { readonly x: number; readonly y: number }] *)
Record Coordinate : Type := mkCoordinate { x : Z; y : Z }.

#[global] Instance Coordinate_eq_dec : EqDecision Coordinate.
Proof. solve_decision. Defined.

(** [class Maze]: the private fields are read through their getters. *)
Record Maze : Type := mkMaze {
  getMazeArray : list (list Z);
  getStart : Coordinate;
  getEnd : Coordinate
}.

(** [board[cy][cx]]; [None] stands for [undefined]. *)
Definition cellAt (board : list (list Z)) (cx cy : Z) : option Z :=
  if (0 <=? cy) && (0 <=? cx)
  then board !! Z.to_nat cy ≫= λ row, row !! Z.to_nat cx
  else None.

(** [Maze.isValidCoordinate]: the conjunction short-circuits, so [board[0]]
    is only read when [0 <= coord.y < board.length], i.e. when it exists. *)
Definition isValidCoordinate (board : list (list Z)) (coord : Coordinate) : bool :=
  (0 <=? y coord) &&
  (y coord <? Z.of_nat (length board)) &&
  (0 <=? x coord) &&
  (x coord <? Z.of_nat (length (default [] (board !! 0%nat)))) &&
  bool_decide (cellAt board (x coord) (y coord) = Some 0).

(** [Maze.create]: note that [isPossibleEnd] is computed from [start]. *)
Definition create (board : list (list Z)) (start end_ : Coordinate) : outcome Maze :=
  let isPossibleStart := isValidCoordinate board start in
  let isPossibleEnd := isValidCoordinate board start in
  if negb isPossibleStart || negb isPossibleEnd
  then Throw "Invalid start or end coordinate"
  else Ok (mkMaze board start end_).

Definition isValidMove (m : Maze) (coord : Coordinate) : bool :=
  isValidCoordinate (getMazeArray m) coord.

(** A grid is validly constructed when it is the result of [create]. *)
Definition constructed (m : Maze) : Prop :=
  ∃ board start end_, create board start end_ = Ok m.

(** What the specification asks of a coordinate handed to [create]:
    in bounds of the matrix and on a passable ([0]) cell. *)
Definition in_bounds (board : list (list Z)) (c : Coordinate) : Prop :=
  0 <= y c < Z.of_nat (length board) ∧
  0 <= x c < Z.of_nat (length (default [] (board !! 0%nat))).

Definition on_wall (board : list (list Z)) (c : Coordinate) : Prop :=
  cellAt board (x c) (y c) ≠ Some 0.

(** A matrix is rectangular when every row is as long as the first one. *)
Definition rectangular (board : list (list Z)) : bool :=
  forallb (λ row, bool_decide (length row = length (default [] (board !! 0%nat)))) board.

(** ** Paths on a grid *)

(** Two coordinates are adjacent when they differ by exactly one unit in
    exactly one axis. *)
Definition adjacent (a b : Coordinate) : Prop :=
  (y a = y b ∧ (x b = x a + 1 ∨ x b = x a - 1)) ∨
  (x a = x b ∧ (y b = y a + 1 ∨ y b = y a - 1)).

(** [walk ok a l b]: [l] lists the coordinates of a 4-connected walk from [a]
    to [b], both included, all of them satisfying [ok]. *)
Inductive walk (ok : Coordinate → Prop) : Coordinate → list Coordinate → Coordinate → Prop :=
  | walk_one a : ok a → walk ok a [a] a
  | walk_step a b l c : ok a → adjacent a b → walk ok b l c → walk ok a (a :: l) c.

(** The number of moves of a path is one less than its number of coordinates. *)
Definition moves (p : list Coordinate) : Z := Z.of_nat (length p) - 1.

Definition passable (m : Maze) (c : Coordinate) : Prop := isValidMove m c = true.

(** A path through the grid from its entrance to its exit. *)
Definition solution (m : Maze) (p : list Coordinate) : Prop :=
  walk (passable m) (getStart m) p (getEnd m).

(** ** solvers/astar.ts *)

(** [PriorityQueue<Coordinate>]: the [elements] array of [element, priority]
    pairs. *)
Definition PriorityQueue : Type := list (Coordinate * Z).

(** [elements.sort((a, b) => a[1] - b[1])]: [Array.prototype.sort] is stable,
    so entries of equal priority keep their order. Insertion of the entries
    from the right, each before the first entry that is not smaller, is such
    a sort. *)
Fixpoint insertEntry (e : Coordinate * Z) (l : PriorityQueue) : PriorityQueue :=
  match l with
  | [] => [e]
  | e' :: l' => if e.2 <=? e'.2 then e :: e' :: l' else e' :: insertEntry e l'
  end.

Fixpoint sortEntries (l : PriorityQueue) : PriorityQueue :=
  match l with
  | [] => []
  | e :: l' => insertEntry e (sortEntries l')
  end.

(** [enqueue]: push, then sort the whole array. *)
Definition enqueue (elements : PriorityQueue) (element : Coordinate) (priority : Z)
  : PriorityQueue :=
  sortEntries (elements ++ [(element, priority)]).

(** [dequeue]: [elements.shift()?.[0]], with the array that is left. *)
Definition dequeue (elements : PriorityQueue) : option (Coordinate * PriorityQueue) :=
  match elements with
  | [] => None
  | e :: rest => Some (e.1, rest)
  end.

Definition isEmpty (elements : PriorityQueue) : bool :=
  bool_decide (length elements = 0%nat).

(** [heuristic]: the Manhattan distance. *)
Definition heuristic (a b : Coordinate) : Z :=
  Z.abs (x a - x b) + Z.abs (y a - y b).

(** [coordinateToString]: the template string [`${coord.x},${coord.y}`]. For
    an integer (below 10^21 in absolute value) JavaScript prints the decimal
    digits, with a leading minus sign when negative, as [pretty] does. *)
Definition coordinateToString (coord : Coordinate) : string :=
  pretty (x coord) +:+ "," +:+ pretty (y coord).

Definition getNeighbors (coord : Coordinate) : list Coordinate :=
  [ mkCoordinate (x coord - 1) (y coord);
    mkCoordinate (x coord + 1) (y coord);
    mkCoordinate (x coord) (y coord - 1);
    mkCoordinate (x coord) (y coord + 1) ].

(** [buildPath]: the [while (parentMap.has(key))] loop. [path.unshift] is a
    cons. The loop is given as many rounds as the map has entries. *)
Fixpoint buildPathLoop (fuel : nat) (parentMap : gmap string Coordinate)
    (path : list Coordinate) (key : string) : outcome (list Coordinate) :=
  match parentMap !! key with
  | None => Ok path
  | Some currentCoord =>
    match fuel with
    | O => OutOfFuel
    | S fuel' =>
      buildPathLoop fuel' parentMap (currentCoord :: path) (coordinateToString currentCoord)
    end
  end.

Definition buildPath (parentMap : gmap string Coordinate) (currentCoord : Coordinate)
  : outcome (list Coordinate) :=
  buildPathLoop (size parentMap) parentMap [currentCoord] (coordinateToString currentCoord).

(** The local variables of [findPath] that the loop updates. *)
Record Search : Type := mkSearch {
  openSet : PriorityQueue;
  parentMap : gmap string Coordinate;
  gScore : gmap string Z;
  fScore : gmap string Z
}.

(** The body of [for (const neighbor of neighbors)]. *)
Definition visitNeighbor (maze : Maze) (end_ current : Coordinate)
    (st : Search) (neighbor : Coordinate) : outcome Search :=
  if negb (isValidMove maze neighbor) then Ok st
  else
    match gScore st !! coordinateToString current with
    | None => Undefined
    | Some gCurrent =>
      let tentativeGScore := gCurrent + 1 in
      let neighborKey := coordinateToString neighbor in
      if match gScore st !! neighborKey with
         | None => true
         | Some gNeighbor => tentativeGScore <? gNeighbor
         end
      then
        let f := tentativeGScore + heuristic neighbor end_ in
        Ok {| openSet := enqueue (openSet st) neighbor f;
              parentMap := <[neighborKey := current]> (parentMap st);
              gScore := <[neighborKey := tentativeGScore]> (gScore st);
              fScore := <[neighborKey := f]> (fScore st) |}
      else Ok st
    end.

Fixpoint visitNeighbors (maze : Maze) (end_ current : Coordinate)
    (st : Search) (neighbors : list Coordinate) : outcome Search :=
  match neighbors with
  | [] => Ok st
  | neighbor :: rest =>
    st' ← visitNeighbor maze end_ current st neighbor;
    visitNeighbors maze end_ current st' rest
  end.

(** One round of [while (!openSet.isEmpty())]: either [findPath] returns
    ([Some p] for a path, [None] for [null]) or the loop goes on.
    [openSet.dequeue()!] reads the head of a queue that is not empty. *)
Inductive round : Type :=
  | Return (result : option (list Coordinate)) (st : Search)
  | Continue (st : Search).

Definition whileBody (maze : Maze) (st : Search) : outcome round :=
  let end_ := getEnd maze in
  if isEmpty (openSet st) then Ok (Return None st)
  else
    match dequeue (openSet st) with
    | None => Undefined
    | Some (current, rest) =>
      let st := mkSearch rest (parentMap st) (gScore st) (fScore st) in
      if (x current =? x end_) && (y current =? y end_)
      then path ← buildPath (parentMap st) current; Ok (Return (Some path) st)
      else
        st' ← visitNeighbors maze end_ current st (getNeighbors current);
        Ok (Continue st')
    end.

Fixpoint whileOpen (fuel : nat) (maze : Maze) (st : Search)
  : outcome (option (list Coordinate) * Search) :=
  match fuel with
  | O => OutOfFuel
  | S fuel' =>
    r ← whileBody maze st;
    match r with
    | Return result st' => Ok (result, st')
    | Continue st' => whileOpen fuel' maze st'
    end
  end.

(** The state before the loop: the start is queued with priority 0 and has
    [gScore] 0 and [fScore] [heuristic(start, end)]. *)
Definition initialSearch (maze : Maze) : Search :=
  let start := getStart maze in
  let end_ := getEnd maze in
  {| openSet := enqueue [] start 0;
     parentMap := ∅;
     gScore := <[coordinateToString start := 0]> ∅;
     fScore := <[coordinateToString start := heuristic start end_]> ∅ |}.

(** The number of in-bounds cells of the board. *)
Definition cellCount (maze : Maze) : nat :=
  (length (getMazeArray maze) * length (default [] (getMazeArray maze !! 0%nat)))%nat.

(** Fuel for the [while] loop of [findPath]: with [n] in-bounds cells, the
    loop makes at most [2 * n * n + 1] rounds (lemmas [measure_initial] and
    [whileOpen_result]). *)
Definition findPathFuel (maze : Maze) : nat :=
  (2 * cellCount maze * cellCount maze + 2)%nat.

(** [findPath] with the final state of its local variables. *)
Definition findPathTrace (maze : Maze) : outcome (option (list Coordinate) * Search) :=
  whileOpen (findPathFuel maze) maze (initialSearch maze).

Definition findPath (maze : Maze) : outcome (option (list Coordinate)) :=
  fst <$> findPathTrace maze.

(** ** generator.ts *)

Module MazeGenerator.

(** The module-level array [directions], as it is when the module is loaded. *)
Definition directions0 : list (Z * Z) := [(0, 1); (1, 0); (0, -1); (-1, 0)].

(** The state a generator works on: the fields of [this], the module-level
    [directions] array that every call shares and shuffles in place, and the
    source of randomness: [random i] decides the outcome of the [i]-th use of
    [Math.random], [draws] counts the uses so far. *)
Record State : Type := mkState {
  width : Z;
  height : Z;
  mazeArray : list (list Z);
  directions : list (Z * Z);
  random : nat → nat;
  draws : nat
}.

(** State and error monad of the generator's methods. *)
Definition Gen (A : Type) : Type := State → outcome (A * State).

Definition ret {A} (a : A) : Gen A := λ st, Ok (a, st).
Definition bind {A B} (m : Gen A) (f : A → Gen B) : Gen B := λ st,
  match m st with
  | Ok (a, st') => f a st'
  | Throw msg => Throw msg
  | OutOfFuel => OutOfFuel
  | Undefined => Undefined
  end.

Notation "'let*' p := m 'in' k" := (bind m (λ p, k))
  (at level 10, p pattern, m at level 100, k at level 200, only parsing).
Notation "m ;; k" := (bind m (λ _, k))
  (at level 100, k at level 200, right associativity, only parsing).

Definition get : Gen State := λ st, Ok (st, st).
Definition throw {A} (msg : string) : Gen A := λ _, Throw msg.
Definition outOfFuel {A} : Gen A := λ _, OutOfFuel.
Definition undefined {A} : Gen A := λ _, Undefined.

(** [Math.floor(Math.random() * k)] for an integer [k > 0]: an integer in
    [0, k), which one is up to the random source. *)
Definition randomBelow (k : Z) : Gen Z := λ st,
  Ok (if 0 <? k then Z.of_nat (random st (draws st)) mod k else 0,
      mkState (width st) (height st) (mazeArray st) (directions st)
              (random st) (S (draws st))).

(** [this.mazeArray[cy][cx] = v]. A missing row is a [TypeError]; a write
    outside of the row (JavaScript would grow the row or add a property) is
    outside of the model. *)
Definition setCell (cx cy v : Z) : Gen unit := λ st,
  if (0 <=? cy) && (cy <? Z.of_nat (length (mazeArray st))) then
    match mazeArray st !! Z.to_nat cy with
    | Some row =>
      if (0 <=? cx) && (cx <? Z.of_nat (length row))
      then Ok (tt, mkState (width st) (height st)
                     (<[Z.to_nat cy := <[Z.to_nat cx := v]> row]> (mazeArray st))
                     (directions st) (random st) (draws st))
      else Undefined
    | None => Throw "TypeError"
    end
  else Throw "TypeError".

Definition setDirections (dirs : list (Z * Z)) : Gen unit := λ st,
  Ok (tt, mkState (width st) (height st) (mazeArray st) dirs (random st) (draws st)).

(** [new MazeGenerator(width, height)]: a board of [height] rows of [width]
    cells, all [1]. The shared [directions] and the random source are those
    of the surrounding program. *)
Definition constructor (width height : Z) (dirs : list (Z * Z)) (rnd : nat → nat)
  : State :=
  mkState width height
          (replicate (Z.to_nat height) (replicate (Z.to_nat width) 1))
          dirs rnd 0.

(** The generator's own [isValidCoordinate]: strictly inside the outer ring. *)
Definition isValidCoordinate (st : State) (cx cy : Z) : bool :=
  (0 <? cx) && (cx <? width st - 1) && (0 <? cy) && (cy <? height st - 1).

(** [shuffleDirections]: the loop [for (let i = directions.length - 1; i > 0; i--)]
    on the shared array; it returns that same array. *)
Fixpoint shuffleFrom (i : nat) : Gen unit :=
  match i with
  | O => ret tt
  | S i' =>
    let* j := randomBelow (Z.of_nat i + 1) in
    let* st := get in
    match directions st !! i, directions st !! Z.to_nat j with
    | Some di, Some dj =>
      setDirections (<[Z.to_nat j := di]> (<[i := dj]> (directions st))) ;;
      shuffleFrom i'
    | _, _ => undefined
    end
  end.

Definition shuffleDirections : Gen unit :=
  let* st := get in shuffleFrom (length (directions st) - 1).

(** [for (const [dx, dy] of directions)] in [recursiveBacktrack]: the array
    iterator reads [directions[i]] of the shared array as it is when round
    [i] starts, so a shuffle made by a recursive call of an earlier round is
    seen by the later rounds. [n] counts the rounds left (the length of the
    array never changes). *)
Fixpoint forOfDirections (body : Z * Z → Gen unit) (n i : nat) : Gen unit :=
  match n with
  | O => ret tt
  | S n' =>
    let* st := get in
    match directions st !! i with
    | None => ret tt
    | Some d => body d ;; forOfDirections body n' (S i)
    end
  end.

(** The body of the loop of [recursiveBacktrack] for the direction
    [(dx, dy)]; [recurse] is the recursive call. *)
Definition carveStep (recurse : Coordinate → Gen unit) (coord : Coordinate)
    (d : Z * Z) : Gen unit :=
  let '(dx, dy) := d in
  let newX := x coord + dx * 2 in
  let newY := y coord + dy * 2 in
  let* st := get in
  if isValidCoordinate st newX newY &&
     bool_decide (cellAt (mazeArray st) newX newY = Some 1)
  then
    setCell (x coord + dx) (y coord + dy) 0 ;;
    recurse (mkCoordinate newX newY)
  else ret tt.

(** [recursiveBacktrack]; [fuel] bounds the depth of the recursion. *)
Fixpoint recursiveBacktrack (fuel : nat) (coord : Coordinate) : Gen unit :=
  match fuel with
  | O => outOfFuel
  | S fuel' =>
    setCell (x coord) (y coord) 0 ;;
    shuffleDirections ;;
    let* st := get in
    forOfDirections (carveStep (recursiveBacktrack fuel') coord)
                    (length (directions st)) 0
  end.

(** [isValidStartEndPoint]: the number of in-bounds neighbours holding [1]. *)
Definition isWallNeighbor (st : State) (coord : Coordinate) (d : Z * Z) : bool :=
  let updatedCoord := mkCoordinate (x coord + d.1) (y coord + d.2) in
  (0 <=? x updatedCoord) &&
  (0 <=? y updatedCoord) &&
  (y updatedCoord <? height st) &&
  (x updatedCoord <? width st) &&
  bool_decide (cellAt (mazeArray st) (x updatedCoord) (y updatedCoord) = Some 1).

Definition wallCount (st : State) (coord : Coordinate) : Z :=
  foldl (λ count d, if isWallNeighbor st coord d then count + 1 else count)
        0 (directions st).

Definition isValidStartEndPoint (st : State) (coord : Coordinate) : bool :=
  wallCount st coord <=? 2.

(** [getRandomSizeCoordinate] *)
Definition getRandomSizeCoordinate (side : string) : Gen Coordinate :=
  let* st := get in
  if String.eqb side "top" then
    let* r := randomBelow (width st - 2) in ret (mkCoordinate (1 + r) 0)
  else if String.eqb side "right" then
    let* r := randomBelow (height st - 2) in ret (mkCoordinate (width st - 1) (1 + r))
  else if String.eqb side "bottom" then
    let* r := randomBelow (width st - 2) in ret (mkCoordinate (1 + r) (height st - 1))
  else if String.eqb side "left" then
    let* r := randomBelow (height st - 2) in ret (mkCoordinate 0 (1 + r))
  else throw "Invalid side".

Definition maxAttempts : Z := 100.

(** The loop [while (!isValid && attempts < maxAttempts)] of
    [createStartAndEndCoordinate], with its three variables. The loop counts
    its rounds itself; [n] is the number of rounds the counter still allows. *)
Fixpoint placementLoop (n : nat) (side : string)
    (coord : option Coordinate) (isValid : bool) (attempts : Z)
  : Gen (option Coordinate * bool * Z) :=
  match n with
  | O => ret (coord, isValid, attempts)
  | S n' =>
    if negb isValid && (attempts <? maxAttempts) then
      let* c := getRandomSizeCoordinate side in
      let* st := get in
      placementLoop n' side (Some c) (isValidStartEndPoint st c) (attempts + 1)
    else ret (coord, isValid, attempts)
  end.

Definition createStartAndEndCoordinate (side : string) : Gen Coordinate :=
  let* r := placementLoop (Z.to_nat maxAttempts) side None false 0 in
  match r with
  | (Some coord, true, _) => ret coord
  | (None, true, _) => undefined
  | (_, false, _) => throw "Failed to create usable maze"
  end.

(** [sides.sort(() => Math.random() - 0.5)]: with a comparator that answers
    at random the order the host's sort leaves is some permutation of the
    array; which one is up to the random source. [permutation r l] is the
    permutation of [l] numbered [r]. *)
Fixpoint permutation {A} (n : nat) (r : nat) (l : list A) : list A :=
  match n with
  | O => []
  | S n' =>
    match l !! (r mod length l)%nat with
    | Some a => a :: permutation n' (r / length l)%nat (delete (r mod length l)%nat l)
    | None => []
    end
  end.

Definition sortAtRandom {A} (l : list A) : Gen (list A) := λ st,
  Ok (permutation (length l) (random st (draws st)) l,
      mkState (width st) (height st) (mazeArray st) (directions st)
              (random st) (S (draws st))).

(** [createStartAndEnd] *)
Definition createStartAndEnd : Gen (Coordinate * Coordinate) :=
  let sides := ["top"; "right"; "bottom"; "left"] in
  let* sorted := sortAtRandom sides in
  match take 2 sorted with
  | [startSide; endSide] =>
    let* start := createStartAndEndCoordinate startSide in
    let* end_ := createStartAndEndCoordinate endSide in
    setCell (x start) (y start) 0 ;;
    setCell (x end_) (y end_) 0 ;;
    ret (start, end_)
  | _ => undefined
  end.

(** The first half of [generate]: the random start cell and the carving. *)
Definition carve (fuel : nat) : Gen unit :=
  let* st := get in
  let* rx := randomBelow ((width st - 1) / 2) in
  let* ry := randomBelow ((height st - 1) / 2) in
  let startCell := mkCoordinate (1 + rx * 2) (1 + ry * 2) in
  recursiveBacktrack fuel startCell.

(** [generate], on a generator in state [st]. *)
Definition generateFrom (fuel : nat) (st : State) : outcome Maze :=
  match (carve fuel ;; createStartAndEnd) st with
  | Ok ((start, end_), st') => create (mazeArray st') start end_
  | Throw msg => Throw msg
  | OutOfFuel => OutOfFuel
  | Undefined => Undefined
  end.

(** Every call of [recursiveBacktrack] but the first turns a [1] cell into a
    [0], so the recursion is never deeper than the number of cells. *)
Definition carveFuel (width height : Z) : nat := S (Z.to_nat (width * height)).

(** [new MazeGenerator(width, height).generate()] *)
Definition generate (width height : Z) (dirs : list (Z * Z)) (rnd : nat → nat)
  : outcome Maze :=
  generateFrom (carveFuel width height) (constructor width height dirs rnd).

(** The generator after the carving phase of [generate]. *)
Definition carved (width height : Z) (dirs : list (Z * Z)) (rnd : nat → nat)
  : outcome State :=
  snd <$> carve (carveFuel width height) (constructor width height dirs rnd).

End MazeGenerator.

(** * Notions used to state the properties *)

(** A string without a comma. *)
Fixpoint commaFree (s : string) : bool :=
  match s with
  | EmptyString => true
  | String a s' => negb (Ascii.eqb a ","%char) && commaFree s'
  end.

(** ** Invariants of the search *)

(** The queue is ordered by priority. *)
Definition byPriority (a b : Coordinate * Z) : Prop := a.2 ≤ b.2.

(** The scores and the parent recorded for a coordinate. *)
Definition gOf (st : Search) (c : Coordinate) : option Z :=
  gScore st !! coordinateToString c.

Definition parentOf (st : Search) (c : Coordinate) : option Coordinate :=
  parentMap st !! coordinateToString c.

Section SearchInvariants.
Variable maze : Maze.

(** What the scores, the parents and the queue record is sound: scores
    belong to passable cells and are bounded by the number of scored
    cells, a parent is an adjacent cell with a smaller score, all scored
    cells but the start have a parent, every queued cell has a score that
    its priority does not undercut. *)
Record sound (st : Search) : Prop := {
  sound_start : gOf st (getStart maze) = Some 0;
  sound_keys : ∀ k v, gScore st !! k = Some v →
    ∃ c, k = coordinateToString c ∧ passable maze c ∧
         0 ≤ v < Z.of_nat (size (gScore st));
  sound_parent : ∀ k p, parentMap st !! k = Some p →
    ∃ c gp gc, k = coordinateToString c ∧ adjacent p c ∧
               gOf st p = Some gp ∧ gOf st c = Some gc ∧ gp + 1 ≤ gc;
  sound_root : ∀ c v, gOf st c = Some v →
    c = getStart maze ∨ is_Some (parentOf st c);
  sound_queue : ∀ c p, (c, p) ∈ openSet st →
    ∃ v, gOf st c = Some v ∧
         (v + heuristic c (getEnd maze) ≤ p ∨ c = getStart maze);
  sound_sorted : StronglySorted byPriority (openSet st)
}.

(** [c], with score [v], is still to be expanded: the queue holds an entry
    for it whose priority is at most [v] plus the heuristic. *)
Definition isOpen (st : Search) (c : Coordinate) (v : Z) : Prop :=
  ∃ p, (c, p) ∈ openSet st ∧ p ≤ v + heuristic c (getEnd maze).

(** The passable cells among [ns] have a score of at most [v + 1]. *)
Definition relaxed (st : Search) (v : Z) (ns : list Coordinate) : Prop :=
  ∀ n, n ∈ ns → passable maze n → ∃ gn, gOf st n = Some gn ∧ gn ≤ v + 1.

(** The frontier: every scored cell is open or has all its neighbours
    relaxed; the exit, once scored, is open. While the neighbours of
    [cur] are visited, [cur] itself has those already [visited] relaxed. *)
Record frontier (st : Search) (cur : option Coordinate)
    (visited : list Coordinate) : Prop := {
  frontier_open : ∀ c v, gOf st c = Some v → Some c ≠ cur →
    isOpen st c v ∨ relaxed st v (getNeighbors c);
  frontier_cur : ∀ c, cur = Some c →
    c ≠ getEnd maze ∧ ∃ v, gOf st c = Some v ∧ relaxed st v visited;
  frontier_end : ∀ v, gOf st (getEnd maze) = Some v → isOpen st (getEnd maze) v
}.

(** The in-bounds cells of the board, row by row. *)
Definition allCells : list Coordinate :=
  r ← seq 0 (length (getMazeArray maze));
  c ← seq 0 (length (default [] (getMazeArray maze !! 0%nat)));
  [mkCoordinate (Z.of_nat c) (Z.of_nat r)].

(** The measure that bounds the rounds of the loop: a cell weighs its
    score, or the number of cells while it has none. *)
Definition weight (st : Search) (c : Coordinate) : nat :=
  match gOf st c with
  | Some v => Z.to_nat v
  | None => cellCount maze
  end.

Definition measure (st : Search) : nat :=
  (length (openSet st) + 2 * sum_list (weight st <$> allCells))%nat.

(** What a round of the loop achieves. *)
Definition roundOk (st : Search) (r : round) : Prop :=
  match r with
  | Return None st' => st' = st ∧ openSet st = [] ∧ ∀ q, ¬ solution maze q
  | Return (Some p) _ =>
    solution maze p ∧ ∀ q, solution maze q → moves p ≤ moves q
  | Continue st' =>
    sound st' ∧ frontier st' None [] ∧ (measure st' < measure st)%nat
  end.

End SearchInvariants.

(** The state [visitNeighbor] leaves when it improves the score of
    [neighbor] to [tentativeGScore]. *)
Definition improved (end_ current neighbor : Coordinate) (tentativeGScore : Z)
    (st : Search) : Search :=
  let f := tentativeGScore + heuristic neighbor end_ in
  {| openSet := enqueue (openSet st) neighbor f;
     parentMap := <[coordinateToString neighbor := current]> (parentMap st);
     gScore := <[coordinateToString neighbor := tentativeGScore]> (gScore st);
     fScore := <[coordinateToString neighbor := f]> (fScore st) |}.

(** The state after [openSet.dequeue()]. *)
Definition dequeued (rest : PriorityQueue) (st : Search) : Search :=
  mkSearch rest (parentMap st) (gScore st) (fScore st).

(** ** Example grids *)

(** The grid of the specification's example. *)
Definition exampleMaze : Maze :=
  mkMaze [[0; 1; 0; 0; 0];
          [0; 1; 0; 1; 0];
          [0; 0; 0; 1; 0];
          [0; 1; 1; 1; 0];
          [0; 1; 0; 0; 0]] (mkCoordinate 0 0) (mkCoordinate 4 4).

(** A corridor with a bend. *)
Definition bendMaze : Maze :=
  mkMaze [[0; 0]; [1; 0]] (mkCoordinate 0 0) (mkCoordinate 1 1).

(** A wall between the entrance and the exit. *)
Definition blockedMaze : Maze :=
  mkMaze [[0; 1; 0]] (mkCoordinate 0 0) (mkCoordinate 2 0).

(** The entrance is the exit. *)
Definition pointMaze : Maze :=
  mkMaze [[1; 0]; [0; 0]] (mkCoordinate 1 0) (mkCoordinate 1 0).

(** ** Notions about the generator *)

(** A random source that answers with the numbers of [l], then with zeros. *)
Definition tape (l : list nat) : nat → nat := λ i, nth i l 0%nat.

(** The number of elements of [l] that satisfy [f]. *)
Fixpoint countIf {A} (f : A → bool) (l : list A) : Z :=
  match l with
  | [] => 0
  | a :: l' => if f a then countIf f l' + 1 else countIf f l'
  end.

(** The four axis-aligned neighbours of a coordinate. *)
Definition fourNeighbors (c : Coordinate) : list Coordinate :=
  [ mkCoordinate (x c) (y c + 1);
    mkCoordinate (x c + 1) (y c);
    mkCoordinate (x c) (y c - 1);
    mkCoordinate (x c - 1) (y c) ].

(** [c] lies on the generator's board. *)
Definition inGrid (st : MazeGenerator.State) (c : Coordinate) : bool :=
  (0 <=? x c) && (x c <? MazeGenerator.width st) &&
  (0 <=? y c) && (y c <? MazeGenerator.height st).

(** The cell at [c] holds [1]. *)
Definition holdsWall (st : MazeGenerator.State) (c : Coordinate) : bool :=
  bool_decide (cellAt (MazeGenerator.mazeArray st) (x c) (y c) = Some 1).

(** The wall-neighbours of a coordinate among its in-bounds neighbours. *)
Definition wallNeighbors (st : MazeGenerator.State) (c : Coordinate) : Z :=
  countIf (λ n, inGrid st n && holdsWall st n) (fourNeighbors c).

(** The wall-neighbours of a coordinate when a neighbour that lies out of
    bounds is counted as a wall too. *)
Definition wallNeighborsOutsideAsWall (st : MazeGenerator.State) (c : Coordinate) : Z :=
  countIf (λ n, negb (inGrid st n) || holdsWall st n) (fourNeighbors c).

(** The four sides, as [createStartAndEnd] names them. *)
Definition sides : list string := ["top"; "right"; "bottom"; "left"].

(** [c] is a cell of the given side of the board other than a corner. *)
Definition onSide (st : MazeGenerator.State) (side : string) (c : Coordinate) : Prop :=
  let w := MazeGenerator.width st in
  let h := MazeGenerator.height st in
  (side = "top" ∧ y c = 0 ∧ 1 ≤ x c ≤ w - 2) ∨
  (side = "right" ∧ x c = w - 1 ∧ 1 ≤ y c ≤ h - 2) ∨
  (side = "bottom" ∧ y c = h - 1 ∧ 1 ≤ x c ≤ w - 2) ∨
  (side = "left" ∧ x c = 0 ∧ 1 ≤ y c ≤ h - 2).

(** Two states of the generator that differ at most in the number of
    random draws made. *)
Definition sameBoard (st st' : MazeGenerator.State) : Prop :=
  MazeGenerator.width st' = MazeGenerator.width st ∧
  MazeGenerator.height st' = MazeGenerator.height st ∧
  MazeGenerator.mazeArray st' = MazeGenerator.mazeArray st ∧
  MazeGenerator.directions st' = MazeGenerator.directions st ∧
  MazeGenerator.random st' = MazeGenerator.random st.

(** The generator of a 3 by 3 board after the carving. *)
Definition carved3 : MazeGenerator.State :=
  MazeGenerator.mkState 3 3 [[1; 1; 1]; [1; 0; 1]; [1; 1; 1]]
    [(1, 0); (0, -1); (-1, 0); (0, 1)] (tape []) 5.

(** Random answers under which the carving of a 7 by 3 board starts at (3,1),
    goes east to (5,1), and finds, back at (3,1), the shared [directions]
    array reshuffled by the call for (5,1). *)
Definition skippingTape : nat → nat := tape [1; 0; 3; 2; 0; 0; 2; 1]%nat.

(** ** Invariants of the generator *)

(** [b] can be reached from [a] by a walk through cells satisfying [ok]. *)
Definition reach (ok : Coordinate → Prop) (a b : Coordinate) : Prop :=
  ∃ l, walk ok a l b.

(** The cell at [c] has been carved. *)
Definition openCell (st : MazeGenerator.State) (c : Coordinate) : Prop :=
  cellAt (MazeGenerator.mazeArray st) (x c) (y c) = Some 0.

(** [c] lies strictly inside the outer ring of the board. *)
Definition interior (st : MazeGenerator.State) (c : Coordinate) : Prop :=
  0 < x c < MazeGenerator.width st - 1 ∧ 0 < y c < MazeGenerator.height st - 1.

(** The board has the generator's dimensions (at least 3 by 3), holds only
    [0] and [1], with [1] all along its outer ring, and the shared
    [directions] array holds the four directions. *)
Record wellFormed (st : MazeGenerator.State) : Prop := {
  wf_width : 3 ≤ MazeGenerator.width st;
  wf_height : 3 ≤ MazeGenerator.height st;
  wf_rows : length (MazeGenerator.mazeArray st) = Z.to_nat (MazeGenerator.height st);
  wf_cols : ∀ row, row ∈ MazeGenerator.mazeArray st →
                   length row = Z.to_nat (MazeGenerator.width st);
  wf_directions : MazeGenerator.directions st ≡ₚ MazeGenerator.directions0;
  wf_cells : ∀ c v, cellAt (MazeGenerator.mazeArray st) (x c) (y c) = Some v →
                    v = 0 ∨ v = 1;
  wf_border : ∀ c, inGrid st c = true → ¬ interior st c →
                   cellAt (MazeGenerator.mazeArray st) (x c) (y c) = Some 1
}.

(** Every carved cell can be reached from [root] through carved cells. *)
Definition connected (st : MazeGenerator.State) (root : Coordinate) : Prop :=
  ∀ c, openCell st c → reach (openCell st) root c.

(** [coord] is about to be carved: it is the first cell, or next to a carved
    one. *)
Definition linked (st : MazeGenerator.State) (root coord : Coordinate) : Prop :=
  (coord = root ∧ ∀ c, ¬ openCell st c) ∨ (∃ a, openCell st a ∧ adjacent a coord).

(** The number of cells of a board that are not [0]. *)
Definition walls (board : list (list Z)) : nat :=
  sum_list ((λ row, sum_list ((λ v, if decide (v = 0) then 0%nat else 1%nat) <$> row))
              <$> board).

(** From [st] to [st'] the generator has the same dimensions and random
    source, and the carved cells stay carved. *)
Definition grows (st st' : MazeGenerator.State) : Prop :=
  MazeGenerator.width st' = MazeGenerator.width st ∧
  MazeGenerator.height st' = MazeGenerator.height st ∧
  MazeGenerator.random st' = MazeGenerator.random st ∧
  ∀ c, openCell st c → openCell st' c.

(** The board has the generator's dimensions. *)
Definition shaped (st : MazeGenerator.State) : Prop :=
  length (MazeGenerator.mazeArray st) = Z.to_nat (MazeGenerator.height st) ∧
  ∀ row, row ∈ MazeGenerator.mazeArray st →
         length row = Z.to_nat (MazeGenerator.width st).

(** The grid that [generate] returns for a 3 by 3 board when the random source
    answers with zeros. *)
Definition generated3 : Maze :=
  mkMaze [[1; 0; 1]; [1; 0; 0]; [1; 1; 1]] (mkCoordinate 1 0) (mkCoordinate 2 1).

(** * Further code *)

(** ** cli/dist/generator.js *)

(** The compiled generator that ships with the command-line tool. Its
    constructor, [generate], [recursiveBacktrack], [isValidLocation] and
    [shuffleDirections] have the text of their counterparts of [generator.ts]
    ([isValidLocation] being [isValidCoordinate]); the acceptance test of an
    entrance or exit is an earlier one. *)
Module DistGenerator.
Import MazeGenerator.

(** [isValidStartEndPoint]: [this.mazeArray[y - 1]?.[x] ?? 1] and the like
  read a cell and take [1] for a missing one ([cellAt] is [None] for a
  missing row as for a missing cell); [this.mazeArray[y][x - 1]], without
  [?.], is a [TypeError] when row [y] is missing. *)
Definition isValidStartEndPoint (location : Coordinate) : Gen bool := λ st,
let cx := x location in
let cy := y location in
let up := default 1 (cellAt (mazeArray st) cx (cy - 1)) in
let down := default 1 (cellAt (mazeArray st) cx (cy + 1)) in
if (0 <=? cy) && (cy <? Z.of_nat (length (mazeArray st))) then
  let left := default 1 (cellAt (mazeArray st) (cx - 1) cy) in
  let right := default 1 (cellAt (mazeArray st) (cx + 1) cy) in
  let surroundingWalls :=
    Z.of_nat (length (filter (λ cell, cell = 1) [up; down; left; right])) in
  Ok (surroundingWalls <=? 2, st)
else Throw "TypeError".

(** [getRandomSideLocation] has the text of [getRandomSizeCoordinate]. *)
Definition getRandomSideLocation (side : string) : Gen Coordinate :=
getRandomSizeCoordinate side.

(** The loop [while (!isValid && attempts < maxAttempts)] of
  [createStartEndLocation]; [n] is the number of rounds the counter still
  allows. *)
Fixpoint placementLoop (n : nat) (side : string)
  (loc : option Coordinate) (isValid : bool) (attempts : Z)
: Gen (option Coordinate * bool * Z) :=
match n with
| O => ret (loc, isValid, attempts)
| S n' =>
  if negb isValid && (attempts <? maxAttempts) then
    let* l := getRandomSideLocation side in
    let* v := isValidStartEndPoint l in
    placementLoop n' side (Some l) v (attempts + 1)
  else ret (loc, isValid, attempts)
end.

Definition createStartEndLocation (side : string) : Gen Coordinate :=
let* r := placementLoop (Z.to_nat maxAttempts) side None false 0 in
match r with
| (Some loc, true, _) => ret loc
| (None, true, _) => undefined
| (_, false, _) => throw "Failed to create usable maze"
end.

Definition createStartAndEnd : Gen (Coordinate * Coordinate) :=
let sides := ["top"; "right"; "bottom"; "left"] in
let* sorted := sortAtRandom sides in
match take 2 sorted with
| [startSide; endSide] =>
  let* start := createStartEndLocation startSide in
  let* end_ := createStartEndLocation endSide in
  setCell (x start) (y start) 0 ;;
  setCell (x end_) (y end_) 0 ;;
  ret (start, end_)
| _ => undefined
end.

Definition generateFrom (fuel : nat) (st : State) : outcome Maze :=
match (carve fuel ;; createStartAndEnd) st with
| Ok ((start, end_), st') => create (mazeArray st') start end_
| Throw msg => Throw msg
| OutOfFuel => OutOfFuel
| Undefined => Undefined
end.

(** [new MazeGenerator(width, height).generate()] *)
Definition generate (width height : Z) (dirs : list (Z * Z)) (rnd : nat → nat)
: outcome Maze :=
generateFrom (carveFuel width height) (constructor width height dirs rnd).

End DistGenerator.

(** ** cli/src/index.ts *)

Module MazeManager.

(** The text of a maze file is modelled as the list of its code units, for
  texts whose code units are below 256; a character is an [ascii]. *)

(** The white space and the line terminators that [String.prototype.trim]
  strips, among these code units: TAB, LF, VT, FF, CR, SP and NBSP. *)
Definition isWhiteSpace (c : ascii) : bool :=
bool_decide (nat_of_ascii c ∈ [9; 10; 11; 12; 13; 32; 160]%nat).

Fixpoint trimStart (s : list ascii) : list ascii :=
match s with
| [] => []
| c :: s' => if isWhiteSpace c then trimStart s' else s
end.

Definition trimEnd (s : list ascii) : list ascii :=
reverse (trimStart (reverse s)).

(** [mazeString.trim()] *)
Definition trim (s : list ascii) : list ascii := trimEnd (trimStart s).

(** [s.split(sep)] for a separator of one character: the pieces between the
  separators, one piece more than there are separators. *)
Fixpoint split (sep : ascii) (s : list ascii) : list (list ascii) :=
match s with
| [] => [[]]
| c :: s' =>
  if Ascii.eqb c sep then [] :: split sep s'
  else match split sep s' with
       | line :: lines => (c :: line) :: lines
       | [] => [[c]]
       end
end.

(** The line feed of ["\n"]. *)
Definition newline : ascii := "010"%char.

(** [`Invalid character '${char}' at position (${i}, ${j})`] *)
Definition invalidCharacter (char : ascii) (i j : Z) : string :=
"Invalid character '" +:+ String char "" +:+ "' at position (" +:+
pretty i +:+ ", " +:+ pretty j +:+ ")".

(** The loop [for (let j = 0; j < lines[i].length; j++)] of [parseMazeFile]
  from column [j] on: [chars] are the characters of line [i] still to be
  read, [row], [start] and [end_] the variables of that name. [row.push] is
  an append at the end; [parseInt] of ["0"] is 0 and of ["1"] is 1. *)
Fixpoint scanLine (i j : Z) (chars : list ascii) (row : list Z) (start end_ : Z * Z)
: outcome (list Z * (Z * Z) * (Z * Z)) :=
match chars with
| [] => Ok (row, start, end_)
| char :: rest =>
  if Ascii.eqb char "S" then scanLine i (j + 1) rest (row ++ [0]) (i, j) end_
  else if Ascii.eqb char "E" then scanLine i (j + 1) rest (row ++ [0]) start (i, j)
  else if Ascii.eqb char "0" then scanLine i (j + 1) rest (row ++ [0]) start end_
  else if Ascii.eqb char "1" then scanLine i (j + 1) rest (row ++ [1]) start end_
  else Throw (invalidCharacter char i j)
end.

(** The loop [for (let i = 0; i < lines.length; i++)] from line [i] on. *)
Fixpoint scanLines (i : Z) (lines : list (list ascii)) (mazeArray : list (list Z))
  (start end_ : Z * Z) : outcome (list (list Z) * (Z * Z) * (Z * Z)) :=
match lines with
| [] => Ok (mazeArray, start, end_)
| line :: rest =>
  match scanLine i 0 line [] start end_ with
  | Ok (row, start', end') => scanLines (i + 1) rest (mazeArray ++ [row]) start' end'
  | Throw msg => Throw msg
  | OutOfFuel => OutOfFuel
  | Undefined => Undefined
  end
end.

(** [parseMazeFile]. [lines[0]] is read after the test that [lines] is not
  empty. *)
Definition parseMazeFile (mazeString : list ascii) : outcome Maze :=
let lines := split newline (trim mazeString) in
if bool_decide (length lines = 0%nat) then Throw "Maze cannot be empty"
else
  let lineLength := length (default [] (lines !! 0%nat)) in
  let allLinesEqualLength :=
    forallb (λ line, bool_decide (length line = lineLength)) lines in
  if negb allLinesEqualLength
  then Throw "All lines in the maze must have the same length"
  else if bool_decide (length lines < 2)%nat ||
          bool_decide (length (default [] (lines !! 0%nat)) < 2)%nat
  then Throw "Maze must be at least 2x2"
  else
    match scanLines 0 lines [] (-1, -1) (-1, -1) with
    | Ok (mazeArray, start, end_) =>
      if (start.1 =? -1) || (end_.1 =? -1)
      then Throw "Start or end position not found in the maze"
      else
        let startLoc := mkCoordinate start.2 start.1 in
        let endLoc := mkCoordinate end_.2 end_.1 in
        create mazeArray startLoc endLoc
    | Throw msg => Throw msg
    | OutOfFuel => OutOfFuel
    | Undefined => Undefined
    end.

End MazeManager.

(** ** dist/solver.js *)

(** The compiled breadth-first solver. *)
Module DistSolver.

(** The local variables of [findPath] that the loop updates: the [queue]
  array, the [visited] set of keys and the [cameFrom] map. *)
Record Bfs : Type := mkBfs {
queue : list Coordinate;
visited : gset string;
cameFrom : gmap string Coordinate
}.

(** [reconstructPath]: the loop [while (cameFrom.has(key))], which has the
  text of the loop of [buildPath]; the keys are built by the template of
  [coordinateToString]. *)
Definition reconstructPath (cameFrom : gmap string Coordinate) (current : Coordinate)
: outcome (list Coordinate) :=
buildPathLoop (size cameFrom) cameFrom [current] (coordinateToString current).

(** The body of [for (const neighbor of neighbors)]. *)
Definition visitNeighbor (maze : Maze) (current : Coordinate) (st : Bfs)
  (neighbor : Coordinate) : Bfs :=
let neighborKey := coordinateToString neighbor in
if negb (bool_decide (neighborKey ∈ visited st)) && isValidMove maze neighbor
then mkBfs (queue st ++ [neighbor]) (visited st)
           (<[neighborKey := current]> (cameFrom st))
else st.

(** One round of [while (queue.length > 0)]: [inl] when [findPath] returns
  ([Some p] for a path, [None] for [null]), [inr] when the loop goes on. *)
Definition whileBody (maze : Maze) (st : Bfs)
: outcome (option (list Coordinate) + Bfs) :=
let end_ := getEnd maze in
match queue st with
| [] => Ok (inl None)
| current :: rest =>
  let currentKey := coordinateToString current in
  if (x current =? x end_) && (y current =? y end_)
  then path ← reconstructPath (cameFrom st) current; Ok (inl (Some path))
  else if bool_decide (currentKey ∈ visited st)
  then Ok (inr (mkBfs rest (visited st) (cameFrom st)))
  else Ok (inr (foldl (visitNeighbor maze current)
                      (mkBfs rest ({[currentKey]} ∪ visited st) (cameFrom st))
                      (getNeighbors current)))
end.

Fixpoint whileQueue (fuel : nat) (maze : Maze) (st : Bfs)
: outcome (option (list Coordinate)) :=
match fuel with
| O => OutOfFuel
| S fuel' =>
  r ← whileBody maze st;
  match r with
  | inl result => Ok result
  | inr st' => whileQueue fuel' maze st'
  end
end.

(** Fuel for the loop of [findPath]: a round either visits a cell, adding at
  most four entries to the queue, or drops an entry of the queue. *)
Definition findPathFuel (maze : Maze) : nat := (5 * cellCount maze + 2)%nat.

Definition findPath (maze : Maze) : outcome (option (list Coordinate)) :=
whileQueue (findPathFuel maze) maze (mkBfs [getStart maze] ∅ ∅).

End DistSolver.

(** * Further notions *)

(** ** Notions about the queue *)

(** The queues a [PriorityQueue] object can hold: the empty one of the
    constructor, and what [enqueue] and [dequeue] make of such a queue. *)
Inductive queueOf : PriorityQueue → Prop :=
  | queueOf_new : queueOf []
  | queueOf_enqueue q c p : queueOf q → queueOf (enqueue q c p)
  | queueOf_dequeue q c rest : queueOf q → dequeue q = Some (c, rest) → queueOf rest.

(** ** Notions about the search *)

(** The [fScore] of a cell is its [gScore] plus the heuristic, and both maps
    hold the same keys. *)
Definition fScoreConsistent (maze : Maze) (st : Search) : Prop :=
  (∀ k, fScore st !! k = None ↔ gScore st !! k = None) ∧
  (∀ c g, gOf st c = Some g →
          fScore st !! coordinateToString c = Some (g + heuristic c (getEnd maze))).

(** The state a round of the loop leaves. *)
Definition roundState (r : round) : Search :=
  match r with
  | Return _ st => st
  | Continue st => st
  end.

(** ** Notions about the generated grid *)

(** [c] is a cell of the given side of a [w] by [h] board, not a corner. *)
Definition onSideOf (w h : Z) (side : string) (c : Coordinate) : Prop :=
  (side = "top" ∧ y c = 0 ∧ 1 ≤ x c ≤ w - 2) ∨
  (side = "right" ∧ x c = w - 1 ∧ 1 ≤ y c ≤ h - 2) ∨
  (side = "bottom" ∧ y c = h - 1 ∧ 1 ≤ x c ≤ w - 2) ∨
  (side = "left" ∧ x c = 0 ∧ 1 ≤ y c ≤ h - 2).

(** [c] is a cell of the outer ring of a [w] by [h] board. *)
Definition onRing (w h : Z) (c : Coordinate) : Prop :=
  0 ≤ x c < w ∧ 0 ≤ y c < h ∧ (x c = 0 ∨ x c = w - 1 ∨ y c = 0 ∨ y c = h - 1).

(** ** Notions about maze files *)

(** The four characters of a maze file. *)
Definition validChar (c : ascii) : Prop :=
  c = "S"%char ∨ c = "E"%char ∨ c = "0"%char ∨ c = "1"%char.

(** The cell a character stands for: a wall for ["1"], passable otherwise. *)
Definition cellOf (c : ascii) : Z := if Ascii.eqb c "1" then 1 else 0.

(** The character of line [i], column [j]. *)
Definition charAt (lines : list (list ascii)) (i j : Z) : option ascii :=
  if (0 <=? i) && (0 <=? j)
  then lines !! Z.to_nat i ≫= λ line, line !! Z.to_nat j
  else None.

(** Position [(i, j)] comes no later than [(i', j')] in reading order. *)
Definition notAfter (i j i' j' : Z) : Prop := i < i' ∨ (i = i' ∧ j ≤ j').

(** The lines of a maze file that [parseMazeFile] accepts: at least two
    lines, all of one length of at least two, of the four characters, with
    an ["S"] and an ["E"] among them. *)
Definition acceptedLines (lines : list (list ascii)) : Prop :=
  (2 ≤ length lines)%nat ∧
  (∃ n, (2 ≤ n)%nat ∧ ∀ line, line ∈ lines → length line = n) ∧
  (∀ line c, line ∈ lines → c ∈ line → validChar c) ∧
  (∃ line, line ∈ lines ∧ "S"%char ∈ line) ∧
  (∃ line, line ∈ lines ∧ "E"%char ∈ line).

(** The lines [parseMazeFile] works on. *)
Definition linesOf (mazeString : list ascii) : list (list ascii) :=
  MazeManager.split MazeManager.newline (MazeManager.trim mazeString).

(** A maze file of two lines. *)
Definition exampleText : list ascii :=
  ["S"; "0"; "1"; MazeManager.newline; "0"; "E"; "1"; MazeManager.newline]%char.

(** ** Invariants of the breadth-first search *)

(** The breadth-first search keeps no distances; the invariants speak of a
    level for every cell that was ever queued: 0 for the start, one more than
    the level of the cell it was queued from for another. *)
Definition levelOf (lv : gmap string Z) (c : Coordinate) : option Z :=
  lv !! coordinateToString c.

Definition level (lv : gmap string Z) (c : Coordinate) : Z :=
  default 0 (levelOf lv c).

(** The levels and [cameFrom], seen as the scores and the parents of a
    search. *)
Definition levelled (st : DistSolver.Bfs) (lv : gmap string Z) : Search :=
  mkSearch [] (DistSolver.cameFrom st) lv ∅.

Section BfsInvariants.
Variable maze : Maze.

(** [cur] is the cell whose neighbours are being visited, if any, and [seen]
  those of its neighbours already handled. *)
Record bfsInv (st : DistSolver.Bfs) (lv : gmap string Z)
  (cur : option Coordinate) (seen : list Coordinate) : Prop := {
bfs_start : levelOf lv (getStart maze) = Some 0;
bfs_keys : ∀ k v, lv !! k = Some v →
  ∃ c, k = coordinateToString c ∧ passable maze c ∧ 0 ≤ v < Z.of_nat (size lv);
bfs_parity : ∀ c v, levelOf lv c = Some v →
  ∃ k, v + x c + y c + x (getStart maze) + y (getStart maze) = 2 * k;
bfs_parent : ∀ k p, DistSolver.cameFrom st !! k = Some p →
  ∃ c gp, k = coordinateToString c ∧ adjacent p c ∧
          levelOf lv p = Some gp ∧ levelOf lv c = Some (gp + 1);
bfs_root : ∀ c v, levelOf lv c = Some v →
  c = getStart maze ∨ is_Some (DistSolver.cameFrom st !! coordinateToString c);
bfs_queue : ∀ c, c ∈ DistSolver.queue st → is_Some (levelOf lv c);
bfs_sorted : StronglySorted (λ a b, level lv a ≤ level lv b) (DistSolver.queue st);
bfs_range : ∀ a b, a ∈ DistSolver.queue st → b ∈ DistSolver.queue st →
  level lv b ≤ level lv a + 1;
bfs_visited : ∀ k, k ∈ DistSolver.visited st →
  ∃ c, k = coordinateToString c ∧ is_Some (levelOf lv c);
bfs_low : ∀ c a, coordinateToString c ∈ DistSolver.visited st →
  a ∈ DistSolver.queue st → level lv c ≤ level lv a;
bfs_pending : ∀ c, is_Some (levelOf lv c) →
  coordinateToString c ∉ DistSolver.visited st → c ∈ DistSolver.queue st;
bfs_closed : ∀ c n, coordinateToString c ∈ DistSolver.visited st → Some c ≠ cur →
  adjacent c n → passable maze n →
  is_Some (levelOf lv n) ∧ level lv n ≤ level lv c + 1;
bfs_end : coordinateToString (getEnd maze) ∉ DistSolver.visited st;
bfs_cur : ∀ c, cur = Some c →
  coordinateToString c ∈ DistSolver.visited st ∧
  (∀ a, a ∈ DistSolver.queue st → level lv c ≤ level lv a ≤ level lv c + 1) ∧
  (∀ c', coordinateToString c' ∈ DistSolver.visited st → level lv c' ≤ level lv c) ∧
  (∀ n, n ∈ seen → passable maze n →
        is_Some (levelOf lv n) ∧ level lv n ≤ level lv c + 1)
}.

(** The measure that bounds the rounds of the loop: the length of the queue
  and five for every cell of the board not yet visited. *)
Definition unvisited (st : DistSolver.Bfs) (c : Coordinate) : nat :=
if decide (coordinateToString c ∈ DistSolver.visited st) then 0%nat else 1%nat.

Definition bfsMeasure (st : DistSolver.Bfs) : nat :=
(length (DistSolver.queue st) + 5 * sum_list (unvisited st <$> allCells maze))%nat.

End BfsInvariants.

(** [p], as [(line, column)], is the position of the last [ch] of the lines
    in reading order. *)
Definition lastAt (ch : ascii) (lines : list (list ascii)) (p : Z * Z) : Prop :=
  charAt lines p.1 p.2 = Some ch ∧
  ∀ i j, charAt lines i j = Some ch → notAfter i j p.1 p.2.

(** What the variable [start] (or [end]) of [parseMazeFile] holds once the
    given lines are read: the position of the last ["S"] (or ["E"]), or
    [[-1, -1]] when there is none. *)
Definition lastOrNone (ch : ascii) (lines : list (list ascii)) (p : Z * Z) : Prop :=
  (p = (-1, -1) ∧ ∀ i j, charAt lines i j ≠ Some ch) ∨ lastAt ch lines p.

(** All lines are as long as the first one. *)
Definition sameLength (lines : list (list ascii)) : Prop :=
  ∀ line, line ∈ lines → length line = length (default [] (lines !! 0%nat)).

(** The character [c] at line [i], column [j] is the first one in reading
    order that is none of the four characters. *)
Definition firstInvalid (lines : list (list ascii)) (i j : Z) (c : ascii) : Prop :=
  charAt lines i j = Some c ∧ ¬ validChar c ∧
  ∀ i' j' c', charAt lines i' j' = Some c' → notAfter i' j' i j →
              (i', j') ≠ (i, j) → validChar c'.

(** The grid the lines of a maze file stand for. *)
Definition gridOf (lines : list (list ascii)) : list (list Z) :=
  (λ line : list ascii, cellOf <$> line) <$> lines.

(** The grid [parseMazeFile] makes of [exampleText]. *)
Definition exampleParsed : Maze :=
  mkMaze [[0; 0; 1]; [0; 0; 1]] (mkCoordinate 0 0) (mkCoordinate 1 1).

(** The rows of a text joined by a separator. *)
Fixpoint joinRows (sep : list ascii) (rows : list (list ascii)) : list ascii :=
  match rows with
  | [] => []
  | [row] => row
  | row :: rest => row ++ sep ++ joinRows sep rest
  end.

(** Carriage return and line feed, the line ending of Windows. *)
Definition crlf : list ascii := ["013"%char; MazeManager.newline].

(** ** Notions about the shape of the carved passages *)

(** The cells of [order] are listed so that each of them is adjacent to at
    most one of the cells listed before it: the cells, with adjacency, form
    a forest. *)
Definition earlierUnique (order : list Coordinate) : Prop :=
  ∀ i c a b, order !! i = Some c →
    a ∈ take i order → b ∈ take i order →
    adjacent a c → adjacent b c → a = b.

(** A cell with two odd coordinates: the cells the carving steps between. *)
Definition room (c : Coordinate) : Prop := Z.Odd (x c) ∧ Z.Odd (y c).

(** [l] has one even coordinate and lies between [a] and [b] along the axis
    of that coordinate. *)
Definition joins (l a b : Coordinate) : Prop :=
  (Z.Even (x l) ∧ Z.Odd (y l) ∧
   a = mkCoordinate (x l - 1) (y l) ∧ b = mkCoordinate (x l + 1) (y l)) ∨
  (Z.Odd (x l) ∧ Z.Even (y l) ∧
   a = mkCoordinate (x l) (y l - 1) ∧ b = mkCoordinate (x l) (y l + 1)).

(** The carved cells are those of [order], which lists them as they were
    carved; each is a room or joins two rooms that are carved too, but for
    the room [pend] that is about to be carved, if any; and each is adjacent
    to at most one cell carved before it. *)
Record treeInv (st : MazeGenerator.State) (order : list Coordinate)
    (pend : option Coordinate) : Prop := {
  tree_NoDup : NoDup order;
  tree_open : ∀ c, openCell st c ↔ c ∈ order;
  tree_cells : ∀ c, c ∈ order →
    room c ∨ ∃ a b, joins c a b ∧ (a ∈ order ∨ Some a = pend) ∧
                    (b ∈ order ∨ Some b = pend);
  tree_earlier : earlierUnique order
}.
(** * Properties of the grid model *)

Lemma isValidCoordinate_spec board c :
  isValidCoordinate board c = true ↔ in_bounds board c ∧ ¬ on_wall board c.
Proof.
  unfold isValidCoordinate, in_bounds, on_wall.
  rewrite !andb_true_iff, bool_decide_eq_true.
  rewrite !Z.leb_le, !Z.ltb_lt.
  split.
  - intros [[[[? ?] ?] ?] ?]. split; [lia | tauto].
  - intros [[? ?] Hw]. repeat split; try lia.
    destruct (decide (cellAt board (x c) (y c) = Some 0)); tauto.
Qed.

Lemma create_Ok board s e m :
  create board s e = Ok m →
  m = mkMaze board s e ∧ isValidCoordinate board s = true.
Proof.
  unfold create. destruct (isValidCoordinate board s); simpl; [|discriminate].
  by intros [= <-].
Qed.

Lemma constructed_start m : constructed m → passable m (getStart m).
Proof.
  intros (board & s & e & H). apply create_Ok in H as [-> H]. done.
Qed.

(** C3. The factory validates the entrance twice and the exit never: on the
    board [[0,1],[0,0]] with the entrance (0,0) on a passable cell, it builds a
    grid whose exit (1,0) lies on a wall, and one whose exit (-1,0) is out of
    bounds, instead of failing. *)
Theorem create_never_validates_exit :
  let board := [[0; 1]; [0; 0]] in
  on_wall board (mkCoordinate 1 0) ∧
  create board (mkCoordinate 0 0) (mkCoordinate 1 0)
    = Ok (mkMaze board (mkCoordinate 0 0) (mkCoordinate 1 0)) ∧
  ¬ in_bounds board (mkCoordinate (-1) 0) ∧
  create board (mkCoordinate 0 0) (mkCoordinate (-1) 0)
    = Ok (mkMaze board (mkCoordinate 0 0) (mkCoordinate (-1) 0)).
Proof.
  repeat split; try reflexivity.
  - unfold on_wall. vm_compute. discriminate.
  - unfold in_bounds. simpl. lia.
Qed.




(** * Keys of the maps *)

Lemma commaFree_pretty_N_go n s :
  commaFree s = true → commaFree (pretty_N_go n s) = true.
Proof.
  revert s. induction (N.lt_wf_0 n) as [n _ IH]. intros s Hs.
  destruct (decide (n = 0)%N) as [->|Hn]; [done|].
  rewrite pretty_N_go_step by lia.
  apply IH; [apply N.div_lt; lia|].
  simpl. rewrite Hs, andb_true_r.
  unfold pretty_N_char. by repeat case_match.
Qed.

Lemma commaFree_pretty_Z (z : Z) : commaFree (pretty z) = true.
Proof.
  destruct z as [|p|p]; [done| |].
  - unfold pretty, pretty_Z, pretty, pretty_positive, pretty, pretty_N.
    case_decide; [done|]. by apply commaFree_pretty_N_go.
  - unfold pretty, pretty_Z, pretty, pretty_positive, pretty, pretty_N.
    case_decide; [done|]. simpl. by apply commaFree_pretty_N_go.
Qed.

Lemma comma_split a a' b b' :
  commaFree a = true → commaFree a' = true →
  a +:+ "," +:+ b = a' +:+ "," +:+ b' → a = a' ∧ b = b'.
Proof.
  revert a'. induction a as [|c a IH]; intros [|c' a']; simpl; intros Ha Ha' Heq.
  - by simplify_eq/=.
  - simplify_eq/=.
  - simplify_eq/=.
  - apply andb_true_iff in Ha as [_ Ha]. apply andb_true_iff in Ha' as [_ Ha'].
    injection Heq as -> Heq. by destruct (IH a' Ha Ha' Heq) as [-> ->].
Qed.

Lemma coordinateToString_inj a b :
  coordinateToString a = coordinateToString b → a = b.
Proof.
  unfold coordinateToString. intros H.
  apply comma_split in H as [Hx Hy]; try apply commaFree_pretty_Z.
  apply (inj pretty) in Hx. apply (inj pretty) in Hy.
  destruct a, b; simpl in *; congruence.
Qed.

(** * The priority queue *)

Lemma elem_of_insertEntry e e' l : e' ∈ insertEntry e l ↔ e' = e ∨ e' ∈ l.
Proof.
  induction l as [|a l IH]; simpl.
  - rewrite list_elem_of_singleton, elem_of_nil. tauto.
  - destruct (e.2 <=? a.2); rewrite !elem_of_cons; [tauto|].
    rewrite IH. tauto.
Qed.

Lemma elem_of_sortEntries e l : e ∈ sortEntries l ↔ e ∈ l.
Proof.
  induction l as [|a l IH]; simpl; [done|].
  rewrite elem_of_insertEntry, elem_of_cons, IH. done.
Qed.

Lemma elem_of_enqueue e q c p : e ∈ enqueue q c p ↔ e ∈ q ∨ e = (c, p).
Proof.
  unfold enqueue. by rewrite elem_of_sortEntries, elem_of_app, list_elem_of_singleton.
Qed.

Lemma length_insertEntry e l : length (insertEntry e l) = S (length l).
Proof.
  induction l as [|a l IH]; simpl; [done|].
  destruct (e.2 <=? a.2); simpl; congruence.
Qed.

Lemma length_sortEntries l : length (sortEntries l) = length l.
Proof.
  induction l as [|a l IH]; simpl; [done|].
  by rewrite length_insertEntry, IH.
Qed.

Lemma length_enqueue q c p : length (enqueue q c p) = S (length q).
Proof. unfold enqueue. rewrite length_sortEntries, length_app. simpl. lia. Qed.

Lemma sorted_insertEntry e l :
  StronglySorted byPriority l → StronglySorted byPriority (insertEntry e l).
Proof.
  induction 1 as [|a l Hl IH Ha]; simpl.
  - repeat constructor.
  - destruct (e.2 <=? a.2) eqn:Hle.
    + apply Z.leb_le in Hle. constructor; [by constructor|].
      constructor; [done|].
      eapply Forall_impl; [exact Ha|]. unfold byPriority. intros; lia.
    + apply Z.leb_gt in Hle. constructor; [done|].
      apply Forall_forall. intros b Hb.
      apply elem_of_insertEntry in Hb as [->|Hb].
      * unfold byPriority. lia.
      * by eapply Forall_forall in Ha.
Qed.

Lemma sorted_sortEntries l : StronglySorted byPriority (sortEntries l).
Proof.
  induction l; simpl; [constructor | by apply sorted_insertEntry].
Qed.

Lemma sorted_enqueue q c p : StronglySorted byPriority (enqueue q c p).
Proof. apply sorted_sortEntries. Qed.

(** * Walks *)

Lemma adjacent_sym a b : adjacent a b → adjacent b a.
Proof. unfold adjacent. lia. Qed.

Lemma adjacent_ne a b : adjacent a b → a ≠ b.
Proof. unfold adjacent. intros H ->. lia. Qed.

Lemma adjacent_getNeighbors c n : n ∈ getNeighbors c ↔ adjacent c n.
Proof.
  unfold getNeighbors, adjacent. rewrite !elem_of_cons, elem_of_nil.
  destruct c as [cx cy], n as [nx ny]; simpl. split.
  - intros [H|[H|[H|[H|[]]]]]; injection H as -> ->; lia.
  - intros [[-> [->| ->]]|[-> [->| ->]]]; tauto.
Qed.

Lemma heuristic_refl a : heuristic a a = 0.
Proof. unfold heuristic. lia. Qed.

Lemma heuristic_adjacent a b c :
  adjacent a b → heuristic a c ≤ heuristic b c + 1.
Proof. unfold adjacent, heuristic. lia. Qed.

Lemma walk_length ok a l b : walk ok a l b → (1 ≤ length l)%nat.
Proof. destruct 1; simpl; lia. Qed.

Lemma walk_moves_nonneg ok a l b : walk ok a l b → 0 ≤ moves l.
Proof. intros H%walk_length. unfold moves. lia. Qed.

Lemma moves_cons a l : moves (a :: l) = moves l + 1.
Proof. unfold moves. simpl length. lia. Qed.

(** The Manhattan distance never exceeds the number of moves of a walk. *)
Lemma heuristic_admissible ok a l b : walk ok a l b → heuristic a b ≤ moves l.
Proof.
  induction 1 as [a Ha|a b l c Ha Hab Hw IH].
  - rewrite heuristic_refl. unfold moves. simpl. lia.
  - rewrite moves_cons. pose proof (heuristic_adjacent a b c Hab). lia.
Qed.

Lemma walk_head ok a l b : walk ok a l b → head l = Some a.
Proof. by destruct 1. Qed.

Lemma walk_last ok a l b : walk ok a l b → last l = Some b.
Proof.
  induction 1 as [|a b l c Ha Hab Hw IH]; [done|].
  destruct l; [inversion Hw|]. done.
Qed.

Lemma walk_Forall ok a l b : walk ok a l b → Forall ok l.
Proof. induction 1; constructor; auto. Qed.

Lemma walk_adjacent ok a l b i c d :
  walk ok a l b → l !! i = Some c → l !! S i = Some d → adjacent c d.
Proof.
  intros Hw. revert i. induction Hw as [|a b l e Ha Hab Hw IH]; intros i Hc Hd.
  - destruct i; discriminate.
  - destruct i as [|i]; simpl in *.
    + injection Hc as <-. apply walk_head in Hw.
      destruct l; simpl in *; congruence.
    + eauto.
Qed.

Lemma walk_start_ok ok a l b : walk ok a l b → ok a.
Proof. by destruct 1. Qed.

(** * The scores after an improvement *)

Lemma key_ne a b : a ≠ b → coordinateToString a ≠ coordinateToString b.
Proof. intros Hne Heq. by apply Hne, coordinateToString_inj. Qed.

Lemma gOf_improved e cur n t st c :
  gOf (improved e cur n t st) c = if decide (c = n) then Some t else gOf st c.
Proof.
  unfold gOf, improved; simpl. case_decide as H.
  - subst. apply lookup_insert_eq.
  - apply lookup_insert_ne. by apply key_ne.
Qed.

Lemma parentOf_improved e cur n t st c :
  parentOf (improved e cur n t st) c
  = if decide (c = n) then Some cur else parentOf st c.
Proof.
  unfold parentOf, improved; simpl. case_decide as H.
  - subst. apply lookup_insert_eq.
  - apply lookup_insert_ne. by apply key_ne.
Qed.

Lemma size_improved e cur n t st :
  (size (gScore st) ≤ size (gScore (improved e cur n t st)))%nat ∧
  (gOf st n = None →
   size (gScore (improved e cur n t st)) = S (size (gScore st))).
Proof.
  unfold improved, gOf; simpl. rewrite map_size_insert.
  destruct (gScore st !! coordinateToString n); split; (lia || done).
Qed.

Lemma length_bind_const {A B} (f : A → list B) (l : list A) (w : nat) :
  (∀ a, length (f a) = w) → length (l ≫= f) = (length l * w)%nat.
Proof.
  intros Hf. induction l as [|a l IH]; [done|].
  change (length (f a ++ (l ≫= f)) = (length (a :: l) * w)%nat).
  rewrite length_app, Hf, IH. done.
Qed.

Section Search.
Variable maze : Maze.

Lemma sound_nonneg st c v : sound maze st → gOf st c = Some v → 0 ≤ v.
Proof. intros Hs Hc. apply (sound_keys _ _ Hs) in Hc as (? & _ & _ & ?). lia. Qed.

Lemma sound_passable st c v : sound maze st → gOf st c = Some v → passable maze c.
Proof.
  intros Hs Hc. apply (sound_keys _ _ Hs) in Hc as (c' & Heq & Hp & _).
  by apply coordinateToString_inj in Heq as ->.
Qed.

(** [visitNeighbor] either leaves the state as it is or improves the score
    of the neighbour. *)
Lemma visitNeighbor_cases st cur n gc :
  gOf st cur = Some gc →
  (visitNeighbor maze (getEnd maze) cur st n = Ok st ∧
   (passable maze n → ∃ gn, gOf st n = Some gn ∧ gn ≤ gc + 1)) ∨
  (visitNeighbor maze (getEnd maze) cur st n = Ok (improved (getEnd maze) cur n (gc + 1) st) ∧
   passable maze n ∧
   (gOf st n = None ∨ ∃ gn, gOf st n = Some gn ∧ gc + 1 < gn)).
Proof.
  intros Hc. unfold visitNeighbor, passable.
  destruct (isValidMove maze n); simpl; [|left; split; [done|discriminate]].
  unfold gOf in Hc. rewrite Hc.
  destruct (gScore st !! coordinateToString n) as [gn|] eqn:Hn.
  - destruct (gc + 1 <? gn) eqn:Hlt.
    + apply Z.ltb_lt in Hlt. right. unfold gOf. rewrite Hn.
      repeat split; eauto.
    + apply Z.ltb_ge in Hlt. left. unfold gOf. rewrite Hn.
      split; [done|]. intros _. exists gn. split; [done|lia].
  - right. unfold gOf. rewrite Hn. repeat split; eauto.
Qed.

Lemma sound_improved st cur n gc :
  sound maze st → adjacent cur n → passable maze n →
  gOf st cur = Some gc →
  (gOf st n = None ∨ ∃ gn, gOf st n = Some gn ∧ gc + 1 < gn) →
  sound maze (improved (getEnd maze) cur n (gc + 1) st).
Proof.
  intros Hs Hadj Hpn Hcur Hn.
  pose proof (sound_nonneg _ _ _ Hs Hcur) as Hgc.
  pose proof (size_improved (getEnd maze) cur n (gc + 1) st) as [Hsz HszN].
  assert (cur ≠ n) as Hne by by apply adjacent_ne.
  assert (n ≠ getStart maze) as Hns.
  { intros ->. rewrite (sound_start _ _ Hs) in Hn.
    destruct Hn as [?|(gn & [= <-] & ?)]; [done|lia]. }
  split.
  - rewrite gOf_improved. rewrite decide_False by done. apply Hs.
  - intros k v Hk. simpl in Hk.
    destruct (decide (coordinateToString n = k)) as [<-|Hkn].
    + rewrite lookup_insert_eq in Hk. injection Hk as <-.
      exists n. split; [done|]. split; [done|].
      destruct Hn as [Hn|(gn & Hn & Hlt)].
      * rewrite (HszN Hn).
        apply (sound_keys _ _ Hs) in Hcur as (_ & _ & _ & ?). lia.
      * apply (sound_keys _ _ Hs) in Hn as (_ & _ & _ & ?). lia.
    + rewrite lookup_insert_ne in Hk by done.
      apply (sound_keys _ _ Hs) in Hk as (c & -> & Hp & Hv).
      exists c. split; [done|]. split; [done|]. lia.
  - intros k p Hk. simpl in Hk.
    destruct (decide (coordinateToString n = k)) as [<-|Hkn].
    + rewrite lookup_insert_eq in Hk. injection Hk as <-.
      exists n, gc, (gc + 1). rewrite !gOf_improved.
      rewrite decide_False by done. rewrite decide_True by done.
      repeat split; (done || lia).
    + rewrite lookup_insert_ne in Hk by done.
      apply (sound_parent _ _ Hs) in Hk as (c & gp & gcc & -> & Ha & Hp & Hc & Hle).
      assert (c ≠ n) by (intros ->; done).
      rewrite <- (decide_False (P:=c = n) (Some (gc + 1)) (gOf st c)) in Hc by done.
      rewrite <- gOf_improved with (e:=(getEnd maze)) (cur:=cur) in Hc.
      destruct (decide (p = n)) as [->|Hpn'].
      * exists c, (gc + 1), gcc. rewrite gOf_improved, decide_True by done.
        destruct Hn as [Hn|(gn & Hn & Hlt)]; [congruence|].
        assert (gn = gp) by congruence. subst.
        repeat split; (done || lia).
      * exists c, gp, gcc. rewrite gOf_improved, decide_False by done.
        repeat split; (done || lia).
  - intros c v. rewrite gOf_improved, parentOf_improved.
    case_decide; [eauto|]. apply Hs.
  - intros c p Hin. simpl in Hin. apply elem_of_enqueue in Hin as [Hin|[= -> ->]].
    + apply (sound_queue _ _ Hs) in Hin as (v & Hv & Hp).
      rewrite gOf_improved. case_decide as Hcn; [|eauto].
      subst c. exists (gc + 1). split; [done|].
      destruct Hn as [Hn|(gn & Hn & Hlt)]; [congruence|].
      assert (gn = v) by congruence. subst. destruct Hp; [left; lia|by right].
    + exists (gc + 1). rewrite gOf_improved, decide_True by done.
      split; [done|]. left. lia.
  - apply sorted_enqueue.
Qed.

(** ** The frontier *)

Lemma relaxed_improved st cur n gc v ns :
  (gOf st n = None ∨ ∃ gn, gOf st n = Some gn ∧ gc + 1 < gn) →
  relaxed maze st v ns →
  relaxed maze (improved (getEnd maze) cur n (gc + 1) st) v ns.
Proof.
  intros Hn Hr n' Hin Hp. destruct (Hr n' Hin Hp) as (gn' & Hg & Hle).
  rewrite gOf_improved. case_decide as Heq; [|eauto].
  subst n'. exists (gc + 1). split; [done|].
  destruct Hn as [Hn|(gn & Hn & Hlt)]; [congruence|].
  assert (gn = gn') by congruence. lia.
Qed.

Lemma isOpen_improved st cur n t c v :
  isOpen maze st c v → isOpen maze (improved (getEnd maze) cur n t st) c v.
Proof.
  intros (p & Hin & Hle). exists p. split; [|done].
  simpl. apply elem_of_enqueue. by left.
Qed.

Lemma isOpen_improved_new st cur n t :
  isOpen maze (improved (getEnd maze) cur n t st) n t.
Proof.
  exists (t + heuristic n (getEnd maze)). split; [|lia].
  simpl. apply elem_of_enqueue. by right.
Qed.

Lemma frontier_improved st cur n gc visited :
  frontier maze st (Some cur) visited →
  adjacent cur n →
  gOf st cur = Some gc →
  (gOf st n = None ∨ ∃ gn, gOf st n = Some gn ∧ gc + 1 < gn) →
  frontier maze (improved (getEnd maze) cur n (gc + 1) st) (Some cur) (visited ++ [n]).
Proof.
  intros Hf Hadj Hcur Hn.
  assert (cur ≠ n) as Hne by by apply adjacent_ne.
  split.
  - intros c v. rewrite gOf_improved. case_decide as Hcn.
    + intros [= <-] _. left. subst c. apply isOpen_improved_new.
    + intros Hc Hcc. destruct (frontier_open _ _ _ _ Hf c v Hc Hcc) as [Ho|Hr].
      * left. by apply isOpen_improved.
      * right. by apply relaxed_improved.
  - intros c [= <-]. destruct (frontier_cur _ _ _ _ Hf cur eq_refl) as (Hce & v & Hv & Hr).
    split; [done|]. exists gc. rewrite gOf_improved, decide_False by done.
    split; [done|]. assert (v = gc) by congruence. subst v.
    intros n' [Hin|Hin%list_elem_of_singleton]%elem_of_app Hp.
    + by apply (relaxed_improved st cur n gc gc visited).
    + subst n'. exists (gc + 1). rewrite gOf_improved, decide_True by done.
      split; [done|lia].
  - intros v. rewrite gOf_improved. case_decide as Hcn.
    + intros [= <-]. subst n. apply isOpen_improved_new.
    + intros Hv. apply isOpen_improved. by apply Hf.
Qed.

Lemma frontier_unchanged st cur n gc visited :
  frontier maze st (Some cur) visited →
  gOf st cur = Some gc →
  (passable maze n → ∃ gn, gOf st n = Some gn ∧ gn ≤ gc + 1) →
  frontier maze st (Some cur) (visited ++ [n]).
Proof.
  intros Hf Hcur Hn. split; [apply Hf| |apply Hf].
  intros c [= <-]. destruct (frontier_cur _ _ _ _ Hf cur eq_refl) as (Hce & v & Hv & Hr).
  split; [done|]. exists gc. split; [done|].
  assert (v = gc) by congruence. subst v.
  intros n' [Hin|Hin%list_elem_of_singleton]%elem_of_app Hp.
  - by apply Hr.
  - subst n'. by apply Hn.
Qed.

(** ** The measure *)

Lemma elem_of_allCells c :
  c ∈ allCells maze ↔
  0 ≤ y c < Z.of_nat (length (getMazeArray maze)) ∧
  0 ≤ x c < Z.of_nat (length (default [] (getMazeArray maze !! 0%nat))).
Proof.
  unfold allCells. rewrite list_elem_of_bind. split.
  - intros (r & (cc & ->%list_elem_of_singleton & Hcc%elem_of_seq)%list_elem_of_bind
              & Hr%elem_of_seq). simpl. lia.
  - intros [Hy Hx]. exists (Z.to_nat (y c)). split; [|apply elem_of_seq; lia].
    apply list_elem_of_bind. exists (Z.to_nat (x c)).
    split; [|apply elem_of_seq; lia].
    apply list_elem_of_singleton. destruct c as [cx cy]; simpl in *.
    f_equal; lia.
Qed.

Lemma passable_allCells c : passable maze c → c ∈ allCells maze.
Proof.
  unfold passable, isValidMove. intros [[Hy Hx] _]%isValidCoordinate_spec.
  by apply elem_of_allCells.
Qed.

Lemma NoDup_allCells : NoDup (allCells maze).
Proof.
  unfold allCells. apply NoDup_bind.
  - intros r1 r2 c _ _.
    intros (c1 & ->%list_elem_of_singleton & _)%list_elem_of_bind.
    intros (c2 & [= _ ?]%list_elem_of_singleton & _)%list_elem_of_bind. lia.
  - intros r _. apply NoDup_bind.
    + intros c1 c2 c _ _ ->%list_elem_of_singleton [= ?]%list_elem_of_singleton. lia.
    + intros. apply NoDup_singleton.
    + apply NoDup_seq.
  - apply NoDup_seq.
Qed.

Lemma length_allCells : length (allCells maze) = cellCount maze.
Proof.
  unfold allCells, cellCount.
  rewrite (length_bind_const _ _ (length (default [] (getMazeArray maze !! 0%nat)))).
  - by rewrite length_seq.
  - intros r. rewrite (length_bind_const _ _ 1%nat); [|done].
    rewrite length_seq. lia.
Qed.
End Search.

#[global] Instance coordinateToString_Inj : Inj (=) (=) coordinateToString.
Proof. intros a b. apply coordinateToString_inj. Qed.

Lemma sum_list_fmap_ext {A} (f g : A → nat) (l : list A) :
  (∀ a, a ∈ l → g a = f a) → sum_list (g <$> l) = sum_list (f <$> l).
Proof.
  induction l as [|a l IH]; intros H; [done|].
  rewrite !fmap_cons. simpl.
  rewrite H by apply list_elem_of_here. rewrite IH; [done|].
  intros b Hb. apply H. by apply list_elem_of_further.
Qed.

Lemma sum_list_fmap_decrease {A} (f g : A → nat) (l : list A) (n : A) :
  NoDup l → n ∈ l → (∀ a, a ≠ n → g a = f a) → (g n < f n)%nat →
  (sum_list (g <$> l) < sum_list (f <$> l))%nat.
Proof.
  intros Hnd Hin Hother Hn.
  induction Hnd as [|a l Ha Hnd IH]; [by apply elem_of_nil in Hin|].
  rewrite !fmap_cons. simpl. apply elem_of_cons in Hin as [<-|Hin].
  - rewrite (sum_list_fmap_ext f g l); [lia|].
    intros b Hb. apply Hother. by intros ->.
  - rewrite (Hother a) by (by intros ->). specialize (IH Hin). lia.
Qed.

Section Loop.
Variable maze : Maze.

Lemma size_gScore_le st :
  sound maze st → (size (gScore st) ≤ cellCount maze)%nat.
Proof.
  intros Hs. rewrite <- length_allCells, <- size_dom.
  rewrite <- (length_fmap coordinateToString).
  rewrite <- (size_list_to_set (C:=gset string)).
  - apply subseteq_size. intros k [v Hk]%elem_of_dom.
    apply (sound_keys _ _ Hs) in Hk as (c & -> & Hp & _).
    apply elem_of_list_to_set, list_elem_of_fmap_2. by apply passable_allCells.
  - apply NoDup_fmap_2; [apply _|apply NoDup_allCells].
Qed.

Lemma measure_improved st cur n gc :
  sound maze st → adjacent cur n → passable maze n →
  gOf st cur = Some gc →
  (gOf st n = None ∨ ∃ gn, gOf st n = Some gn ∧ gc + 1 < gn) →
  (measure maze (improved (getEnd maze) cur n (gc + 1) st) < measure maze st)%nat.
Proof.
  intros Hs Hadj Hp Hcur Hn.
  pose proof (sound_improved maze st cur n gc Hs Hadj Hp Hcur Hn) as Hs'.
  pose proof (sound_nonneg _ _ _ _ Hs Hcur) as Hgc.
  unfold measure. simpl openSet. rewrite length_enqueue.
  assert (sum_list (weight maze (improved (getEnd maze) cur n (gc + 1) st) <$> allCells maze)
          < sum_list (weight maze st <$> allCells maze))%nat; [|lia].
  apply (sum_list_fmap_decrease _ _ _ n).
  - apply NoDup_allCells.
  - by apply passable_allCells.
  - intros c Hc. unfold weight. by rewrite gOf_improved, decide_False.
  - unfold weight. rewrite gOf_improved, decide_True by done.
    destruct Hn as [Hn|(gn & Hn & Hlt)]; rewrite Hn; [|lia].
    pose proof (size_gScore_le _ Hs').
    assert (gOf (improved (getEnd maze) cur n (gc + 1) st) n = Some (gc + 1)) as Hk
      by (by rewrite gOf_improved, decide_True).
    apply (sound_keys _ _ Hs') in Hk as (_ & _ & _ & ?). lia.
Qed.

(** One neighbour. *)
Lemma visitNeighbor_step st cur n visited :
  sound maze st → frontier maze st (Some cur) visited → adjacent cur n →
  ∃ st', visitNeighbor maze (getEnd maze) cur st n = Ok st' ∧
         sound maze st' ∧ frontier maze st' (Some cur) (visited ++ [n]) ∧
         (measure maze st' ≤ measure maze st)%nat.
Proof.
  intros Hs Hf Hadj.
  destruct (frontier_cur _ _ _ _ Hf cur eq_refl) as (_ & gc & Hcur & _).
  destruct (visitNeighbor_cases maze st cur n gc Hcur) as [[-> Hn]|(-> & Hp & Hn)].
  - exists st. split; [done|]. split; [done|]. split; [|done].
    by apply (frontier_unchanged _ _ _ _ gc).
  - eexists. split; [done|]. split; [by apply sound_improved|].
    split; [by apply frontier_improved|].
    apply Nat.lt_le_incl. by apply measure_improved.
Qed.

(** The loop over the neighbours. *)
Lemma visitNeighbors_steps ns : ∀ st cur visited,
  sound maze st → frontier maze st (Some cur) visited →
  (∀ n, n ∈ ns → adjacent cur n) →
  ∃ st', visitNeighbors maze (getEnd maze) cur st ns = Ok st' ∧
         sound maze st' ∧ frontier maze st' (Some cur) (visited ++ ns) ∧
         (measure maze st' ≤ measure maze st)%nat.
Proof.
  induction ns as [|n ns IH]; intros st cur visited Hs Hf Hadj; simpl.
  - exists st. by rewrite app_nil_r.
  - destruct (visitNeighbor_step st cur n visited Hs Hf) as (st1 & -> & Hs1 & Hf1 & Hm1).
    { apply Hadj, list_elem_of_here. }
    simpl. destruct (IH st1 cur (visited ++ [n]) Hs1 Hf1) as (st2 & -> & Hs2 & Hf2 & Hm2).
    { intros n' Hn'. by apply Hadj, list_elem_of_further. }
    exists st2. rewrite <- app_assoc in Hf2.
    split; [done|]. split; [done|]. split; [done|lia].
Qed.
End Loop.

Section Rounds.
Variable maze : Maze.

(** While the exit can be reached from a scored cell, the queue holds an
    entry whose priority is at most the score plus the moves left. *)
Lemma frontier_entry st a l v :
  frontier maze st None [] →
  walk (passable maze) a l (getEnd maze) →
  gOf st a = Some v →
  ∃ c p, (c, p) ∈ openSet st ∧ p ≤ v + moves l.
Proof.
  intros Hf Hw. remember (getEnd maze) as e eqn:He. revert v.
  induction Hw as [a Ha|a b l e Ha Hab Hw IH]; intros v Hv; subst.
  - destruct (frontier_end _ _ _ _ Hf v Hv) as (p & Hin & Hle).
    rewrite heuristic_refl in Hle. exists (getEnd maze), p. split; [done|].
    unfold moves. simpl. lia.
  - destruct (frontier_open _ _ _ _ Hf a v Hv) as [(p & Hin & Hle)|Hr]; [done| |].
    + exists a, p. split; [done|].
      pose proof (heuristic_admissible _ _ _ _ (walk_step _ _ _ _ _ Ha Hab Hw)). lia.
    + destruct (Hr b) as (gb & Hb & Hle).
      { by apply adjacent_getNeighbors. }
      { by eapply walk_start_ok. }
      destruct (IH eq_refl gb Hb) as (c & p & Hin & Hp).
      exists c, p. split; [done|]. rewrite moves_cons. lia.
Qed.

Lemma size_gScore_parentMap st :
  sound maze st → (size (gScore st) ≤ S (size (parentMap st)))%nat.
Proof.
  intros Hs. rewrite <- !size_dom.
  transitivity (size ({[coordinateToString (getStart maze)]} ∪ dom (parentMap st) : gset string)).
  - apply subseteq_size. intros k [v Hk]%elem_of_dom.
    pose proof Hk as Hk'.
    apply (sound_keys _ _ Hs) in Hk' as (c & -> & _).
    destruct (sound_root _ _ Hs c v Hk) as [->|Hp].
    + apply elem_of_union_l. by apply elem_of_singleton.
    + apply elem_of_union_r. by apply elem_of_dom.
  - rewrite size_union_alt, size_singleton.
    apply le_n_S, subseteq_size. apply subseteq_difference_l. done.
Qed.

Lemma buildPathLoop_walk st : sound maze st → ∀ fuel c v rest e,
  gOf st c = Some v → (Z.to_nat v ≤ fuel)%nat →
  walk (passable maze) c (c :: rest) e →
  ∃ p, buildPathLoop fuel (parentMap st) (c :: rest) (coordinateToString c) = Ok p ∧
       walk (passable maze) (getStart maze) p e ∧
       moves p ≤ v + moves (c :: rest).
Proof.
  intros Hs. induction fuel as [|fuel IH]; intros c v rest e Hc Hfuel Hw.
  - simpl. destruct (parentMap st !! coordinateToString c) as [p|] eqn:Hp.
    + apply (sound_parent _ _ Hs) in Hp as (c' & gp & gc & Hk & _ & Hgp & Hgc & Hle).
      apply coordinateToString_inj in Hk as <-.
      pose proof (sound_nonneg _ _ _ _ Hs Hgp). assert (gc = v) by congruence. lia.
    + destruct (sound_root _ _ Hs c v Hc) as [->|[p' Hp']];
        [|unfold parentOf in Hp'; congruence].
      pose proof (sound_nonneg _ _ _ _ Hs Hc).
      exists (getStart maze :: rest). split; [done|]. split; [done|lia].
  - simpl. destruct (parentMap st !! coordinateToString c) as [p|] eqn:Hp.
    + apply (sound_parent _ _ Hs) in Hp as (c' & gp & gc & Hk & Hadj & Hgp & Hgc & Hle).
      apply coordinateToString_inj in Hk as <-.
      pose proof (sound_nonneg _ _ _ _ Hs Hgp). assert (gc = v) by congruence. subst gc.
      destruct (IH p gp (c :: rest) e Hgp) as (path & Hpath & Hwalk & Hmoves); [lia| |].
      { apply walk_step with c; [|done..]. by eapply sound_passable. }
      exists path. split; [done|]. split; [done|].
      rewrite moves_cons in Hmoves. lia.
    + destruct (sound_root _ _ Hs c v Hc) as [->|[p' Hp']];
        [|unfold parentOf in Hp'; congruence].
      pose proof (sound_nonneg _ _ _ _ Hs Hc).
      exists (getStart maze :: rest). split; [done|]. split; [done|lia].
Qed.

Lemma buildPath_walk st c v :
  sound maze st → gOf st c = Some v →
  ∃ p, buildPath (parentMap st) c = Ok p ∧
       walk (passable maze) (getStart maze) p c ∧ moves p ≤ v.
Proof.
  intros Hs Hc. unfold buildPath.
  destruct (buildPathLoop_walk st Hs (size (parentMap st)) c v [] c Hc)
    as (p & Hp & Hw & Hm).
  - pose proof (size_gScore_parentMap st Hs).
    apply (sound_keys _ _ Hs) in Hc as (_ & _ & _ & ?). lia.
  - apply walk_one. by eapply sound_passable.
  - exists p. split; [done|]. split; [done|]. unfold moves in *. simpl in *. lia.
Qed.

Lemma sound_dequeued st cur p0 rest :
  sound maze st → openSet st = (cur, p0) :: rest → sound maze (dequeued rest st).
Proof.
  intros Hs Hq. split; try apply Hs.
  - intros c p Hin. apply (sound_queue _ _ Hs). rewrite Hq. by apply list_elem_of_further.
  - simpl. pose proof (sound_sorted _ _ Hs) as Hsorted. rewrite Hq in Hsorted.
    by inversion Hsorted.
Qed.

Lemma frontier_dequeued st cur p0 rest :
  sound maze st → frontier maze st None [] →
  openSet st = (cur, p0) :: rest → cur ≠ getEnd maze →
  frontier maze (dequeued rest st) (Some cur) [].
Proof.
  intros Hs Hf Hq Hne.
  assert (∀ c v, c ≠ cur → isOpen maze st c v → isOpen maze (dequeued rest st) c v) as Hopen.
  { intros c v Hc (p & Hin & Hle). exists p. split; [|done].
    rewrite Hq in Hin. apply elem_of_cons in Hin as [[= -> _]|Hin]; done. }
  split.
  - intros c v Hv Hc. destruct (frontier_open _ _ _ _ Hf c v Hv) as [Ho|Hr]; [done| |].
    + left. apply Hopen; [congruence|done].
    + by right.
  - intros c [= <-]. split; [done|].
    destruct (sound_queue _ _ Hs cur p0) as (v & Hv & _).
    { rewrite Hq. apply list_elem_of_here. }
    exists v. split; [done|]. intros n Hn. by apply elem_of_nil in Hn.
  - intros v Hv. apply Hopen; [done|]. by apply Hf.
Qed.

Lemma frontier_closed st cur :
  frontier maze st (Some cur) (getNeighbors cur) → frontier maze st None [].
Proof.
  intros Hf. split.
  - intros c v Hv _. destruct (decide (c = cur)) as [->|Hc].
    + right. destruct (frontier_cur _ _ _ _ Hf cur eq_refl) as (_ & v' & Hv' & Hr).
      assert (v' = v) by congruence. by subst.
    + apply (frontier_open _ _ _ _ Hf c v Hv). congruence.
  - done.
  - apply Hf.
Qed.

Lemma measure_dequeued st cur p0 rest :
  openSet st = (cur, p0) :: rest →
  measure maze st = S (measure maze (dequeued rest st)).
Proof. intros Hq. unfold measure. rewrite Hq. done. Qed.

Lemma same_coordinate (a b : Coordinate) :
  (x a =? x b) && (y a =? y b) = true ↔ a = b.
Proof.
  rewrite andb_true_iff, !Z.eqb_eq. destruct a, b; simpl. split.
  - by intros [-> ->].
  - by intros [= -> ->].
Qed.

Lemma whileBody_round st :
  sound maze st → frontier maze st None [] →
  ∃ r, whileBody maze st = Ok r ∧ roundOk maze st r.
Proof.
  intros Hs Hf. unfold whileBody, isEmpty.
  destruct (openSet st) as [|[cur p0] rest] eqn:Hq.
  - exists (Return None st). split; [done|]. split; [done|]. split; [done|].
    intros q Hq'.
    destruct (frontier_entry st _ _ 0 Hf Hq' (sound_start _ _ Hs)) as (c & p & Hin & _).
    rewrite Hq in Hin. by apply elem_of_nil in Hin.
  - rewrite bool_decide_eq_false_2 by done. cbn [dequeue fst].
    change (mkSearch rest (parentMap st) (gScore st) (fScore st))
      with (dequeued rest st).
    destruct ((x cur =? x (getEnd maze)) && (y cur =? y (getEnd maze))) eqn:Hend.
    + apply same_coordinate in Hend as ->.
      destruct (sound_queue _ _ Hs (getEnd maze) p0) as (v & Hv & Hp0).
      { rewrite Hq. apply list_elem_of_here. }
      change (parentMap (dequeued rest st)) with (parentMap st).
      destruct (buildPath_walk st (getEnd maze) v Hs Hv) as (p & -> & Hw & Hm).
      simpl. eexists. split; [done|]. split; [done|].
      intros q Hq'. pose proof (walk_moves_nonneg _ _ _ _ Hq').
      destruct Hp0 as [Hp0|Hse].
      * rewrite heuristic_refl in Hp0.
        destruct (frontier_entry st _ _ 0 Hf Hq' (sound_start _ _ Hs))
          as (c & p' & Hin & Hle).
        assert (p0 ≤ p'); [|lia].
        pose proof (sound_sorted _ _ Hs) as Hsorted. rewrite Hq in Hsorted, Hin.
        apply elem_of_cons in Hin as [[= _ ->]|Hin]; [lia|].
        inversion Hsorted as [|?? _ Hall]. subst.
        by apply (proj1 (Forall_forall _ _) Hall (c, p')).
      * rewrite Hse, (sound_start _ _ Hs) in Hv. injection Hv as <-. lia.
    + assert (cur ≠ getEnd maze) as Hne.
      { intros ->. rewrite (proj2 (same_coordinate _ _)) in Hend; done. }
      pose proof (sound_dequeued st cur p0 rest Hs Hq) as Hs1.
      pose proof (frontier_dequeued st cur p0 rest Hs Hf Hq Hne) as Hf1.
      destruct (visitNeighbors_steps maze (getNeighbors cur) _ cur [] Hs1 Hf1)
        as (st' & Hv & Hs' & Hf' & Hm).
      { intros n. apply adjacent_getNeighbors. }
      rewrite Hv. simpl.
      exists (Continue st'). split; [done|]. split; [done|].
      split; [by apply frontier_closed in Hf'|].
      rewrite (measure_dequeued st cur p0 rest Hq). lia.
Qed.

Lemma whileOpen_result fuel : ∀ st,
  sound maze st → frontier maze st None [] → (measure maze st < fuel)%nat →
  ∃ r st', whileOpen fuel maze st = Ok (r, st') ∧
    match r with
    | Some p => solution maze p ∧ ∀ q, solution maze q → moves p ≤ moves q
    | None => openSet st' = [] ∧ ∀ q, ¬ solution maze q
    end.
Proof.
  induction fuel as [|fuel IH]; intros st Hs Hf Hm; [lia|].
  simpl. destruct (whileBody_round st Hs Hf) as (r & -> & Hr). simpl.
  destruct r as [[p|] st'|st']; simpl in Hr.
  - by exists (Some p), st'.
  - destruct Hr as (-> & Hq & Hno). by exists None, st.
  - destruct Hr as (Hs' & Hf' & Hm'). apply IH; [done..|lia].
Qed.
End Rounds.

Section FindPath.
Variable maze : Maze.
Hypothesis start_ok : passable maze (getStart maze).

Lemma openSet_initial : openSet (initialSearch maze) = [(getStart maze, 0)].
Proof. done. Qed.

Lemma gOf_initial c v :
  gOf (initialSearch maze) c = Some v → c = getStart maze ∧ v = 0.
Proof.
  unfold gOf, initialSearch; simpl.
  intros [[Hk ->]|[_ H]]%lookup_insert_Some; [|by rewrite lookup_empty in H].
  by apply coordinateToString_inj in Hk.
Qed.

Lemma heuristic_nonneg a b : 0 ≤ heuristic a b.
Proof. unfold heuristic. lia. Qed.

Lemma sound_initial : sound maze (initialSearch maze).
Proof.
  split.
  - unfold gOf, initialSearch; simpl. apply lookup_insert_eq.
  - intros k v Hk. simpl in Hk.
    apply lookup_insert_Some in Hk as [[<- <-]|[_ Hk]]; [|by rewrite lookup_empty in Hk].
    exists (getStart maze). split; [done|]. split; [done|].
    cbn [initialSearch gScore].
    rewrite map_size_insert, lookup_empty, map_size_empty. lia.
  - intros k p Hk. simpl in Hk. by rewrite lookup_empty in Hk.
  - intros c v [-> _]%gOf_initial. by left.
  - intros c p Hin. rewrite openSet_initial in Hin.
    apply list_elem_of_singleton in Hin as [= -> ->].
    exists 0. split; [|by right].
    unfold gOf, initialSearch; simpl. apply lookup_insert_eq.
  - rewrite openSet_initial. repeat constructor.
Qed.

Lemma frontier_initial : frontier maze (initialSearch maze) None [].
Proof.
  assert (∀ c v, gOf (initialSearch maze) c = Some v →
                 isOpen maze (initialSearch maze) c v) as Hopen.
  { intros c v [-> ->]%gOf_initial. exists 0. rewrite openSet_initial.
    split; [apply list_elem_of_here|]. pose proof (heuristic_nonneg (getStart maze) (getEnd maze)). lia. }
  split.
  - intros c v Hv _. left. by apply Hopen.
  - done.
  - intros v Hv. by apply Hopen.
Qed.

Lemma sum_list_fmap_bound {A} (f : A → nat) (l : list A) (b : nat) :
  (∀ a, f a ≤ b)%nat → (sum_list (f <$> l) ≤ length l * b)%nat.
Proof.
  intros Hf. induction l as [|a l IH]; [done|].
  rewrite fmap_cons. simpl. specialize (Hf a). lia.
Qed.

Lemma measure_initial : (measure maze (initialSearch maze) < findPathFuel maze)%nat.
Proof.
  unfold measure, findPathFuel. rewrite openSet_initial. simpl length.
  pose proof (sum_list_fmap_bound (weight maze (initialSearch maze))
                (allCells maze) (cellCount maze)) as Hsum.
  rewrite length_allCells in Hsum.
  assert (∀ c, weight maze (initialSearch maze) c ≤ cellCount maze)%nat as Hw.
  { intros c. unfold weight.
    destruct (gOf (initialSearch maze) c) as [v|] eqn:Hv; [|done].
    apply gOf_initial in Hv as [_ ->]. simpl. lia. }
  specialize (Hsum Hw). lia.
Qed.

(** [findPath] returns, and what it returns is right: a shortest path from
    the entrance to the exit, or [null] with the queue empty when there is
    no path at all. *)
Lemma findPathTrace_result :
  ∃ r st, findPathTrace maze = Ok (r, st) ∧
    match r with
    | Some p => solution maze p ∧ ∀ q, solution maze q → moves p ≤ moves q
    | None => openSet st = [] ∧ ∀ q, ¬ solution maze q
    end.
Proof.
  apply whileOpen_result;
    [apply sound_initial | apply frontier_initial | apply measure_initial].
Qed.
End FindPath.

Lemma findPath_trace maze r :
  findPath maze = Ok r ↔ ∃ st, findPathTrace maze = Ok (r, st).
Proof.
  unfold findPath. destruct (findPathTrace maze) as [[r' st']| | |]; simpl.
  - split; [intros [= <-]; eauto|by intros (st & [= <- _])].
  - split; [done|by intros [? ?]].
  - split; [done|by intros [? ?]].
  - split; [done|by intros [? ?]].
Qed.

(** * Properties of the solver *)

Lemma walk_end_ok ok a l b : walk ok a l b → ok b.
Proof. induction 1; auto. Qed.

(** A grid whose entrance is not the exit and has no passable neighbour has
    no solution. *)
Lemma no_solution_isolated m :
  getStart m ≠ getEnd m →
  forallb (λ n, negb (isValidMove m n)) (getNeighbors (getStart m)) = true →
  ∀ q, ¬ solution m q.
Proof.
  intros Hne Hall q Hq. unfold solution in Hq.
  inversion Hq as [a Ha|a b l c Ha Hab Hw]; subst; [done|].
  apply walk_start_ok in Hw. apply adjacent_getNeighbors in Hab.
  rewrite forallb_forall in Hall. apply list_elem_of_In, Hall in Hab.
  unfold passable in Hw. by rewrite Hw in Hab.
Qed.

(** C1. On a validly constructed grid that has a path from the entrance to
    the exit, [findPath] returns a path from the entrance to the exit through
    passable cells whose number of moves is the least among all such paths
    (the shortest-path distance, which is what a breadth-first search finds);
    the heuristic it uses is the Manhattan distance. *)
Theorem findPath_shortest m :
  constructed m →
  (∃ q, solution m q) →
  ∃ p, findPath m = Ok (Some p) ∧
       solution m p ∧
       (∀ q, solution m q → moves p ≤ moves q) ∧
       (∀ a b, heuristic a b = Z.abs (x a - x b) + Z.abs (y a - y b)).
Proof.
  intros Hm [q Hq].
  destruct (findPathTrace_result m (constructed_start m Hm)) as (r & st & Htrace & Hr).
  destruct r as [p|].
  - exists p. split; [apply findPath_trace; eauto|].
    destruct Hr as [Hp Hmin]. split; [done|]. split; [done|]. done.
  - destruct Hr as [_ Hno]. by destruct (Hno q).
Qed.

Lemma findPath_shortest_witness :
  ∃ p, findPath bendMaze = Ok (Some p) ∧
       solution bendMaze p ∧
       (∀ q, solution bendMaze q → moves p ≤ moves q) ∧
       (∀ a b, heuristic a b = Z.abs (x a - x b) + Z.abs (y a - y b)).
Proof.
  apply findPath_shortest.
  - exists (getMazeArray bendMaze), (getStart bendMaze), (getEnd bendMaze).
    reflexivity.
  - exists [mkCoordinate 0 0; mkCoordinate 1 0; mkCoordinate 1 1].
    apply walk_step with (mkCoordinate 1 0);
      [reflexivity | unfold adjacent; simpl; lia |].
    apply walk_step with (mkCoordinate 1 1);
      [reflexivity | unfold adjacent; simpl; lia |].
    apply walk_one. reflexivity.
Defined.

(** On the grid of the specification's example the shortest path has 12
    moves, and [findPath] returns one. *)
Example findPath_exampleMaze :
  ∃ p, findPath exampleMaze = Ok (Some p) ∧ moves p = 12.
Proof. eexists. split; [vm_compute; reflexivity|reflexivity]. Qed.

(** C4. On a validly constructed grid, a path that [findPath] returns starts
    at the entrance, ends at the exit, has only coordinates for which
    [isValidMove] holds, and any two consecutive coordinates of it differ by
    exactly one unit in exactly one axis. *)
Theorem findPath_path_valid m p :
  constructed m →
  findPath m = Ok (Some p) →
  head p = Some (getStart m) ∧
  last p = Some (getEnd m) ∧
  Forall (λ c, isValidMove m c = true) p ∧
  (∀ i a b, p !! i = Some a → p !! S i = Some b → adjacent a b).
Proof.
  intros Hm Hp.
  destruct (findPathTrace_result m (constructed_start m Hm)) as (r & st & Htrace & Hr).
  apply findPath_trace in Hp as [st' Hp]. rewrite Hp in Htrace.
  injection Htrace as <- _. destruct Hr as [Hsol _].
  split; [by eapply walk_head|]. split; [by eapply walk_last|].
  split; [by eapply walk_Forall|].
  intros i a b. by eapply walk_adjacent.
Qed.

Lemma findPath_path_valid_witness :
  let p := [mkCoordinate 0 0; mkCoordinate 1 0; mkCoordinate 1 1] in
  head p = Some (getStart bendMaze) ∧
  last p = Some (getEnd bendMaze) ∧
  Forall (λ c, isValidMove bendMaze c = true) p ∧
  (∀ i a b, p !! i = Some a → p !! S i = Some b → adjacent a b).
Proof.
  apply findPath_path_valid.
  - exists (getMazeArray bendMaze), (getStart bendMaze), (getEnd bendMaze).
    reflexivity.
  - vm_compute. reflexivity.
Defined.

(** C7. On a validly constructed grid without any path from the entrance to
    the exit, [findPath] comes to an end with its queue empty and returns
    [null], which is a returned value and not a thrown error. *)
Theorem findPath_no_path m :
  constructed m →
  (∀ q, ¬ solution m q) →
  findPath m = Ok None ∧
  ∃ st, findPathTrace m = Ok (None, st) ∧ openSet st = [].
Proof.
  intros Hm Hno.
  destruct (findPathTrace_result m (constructed_start m Hm)) as (r & st & Htrace & Hr).
  destruct r as [p|].
  - destruct Hr as [Hp _]. by destruct (Hno p).
  - destruct Hr as [Hq _]. split; [apply findPath_trace|]; eauto.
Qed.

Lemma findPath_no_path_witness :
  findPath blockedMaze = Ok None ∧
  ∃ st, findPathTrace blockedMaze = Ok (None, st) ∧ openSet st = [].
Proof.
  apply findPath_no_path.
  - exists (getMazeArray blockedMaze), (getStart blockedMaze), (getEnd blockedMaze).
    reflexivity.
  - apply no_solution_isolated; [discriminate | reflexivity].
Defined.

(** C10. On a validly constructed grid whose entrance is its exit, [findPath]
    returns the path made of that single coordinate, and does so in the first
    round of its loop, before any neighbour is visited: the scores and the
    parents are those set up before the loop. *)
Theorem findPath_start_is_end m :
  constructed m →
  getStart m = getEnd m →
  findPath m = Ok (Some [getStart m]) ∧
  whileBody m (initialSearch m)
    = Ok (Return (Some [getStart m]) (dequeued [] (initialSearch m))).
Proof.
  intros _ Hse.
  assert (whileBody m (initialSearch m)
          = Ok (Return (Some [getStart m]) (dequeued [] (initialSearch m)))) as Hbody.
  { unfold whileBody. rewrite openSet_initial.
    change (isEmpty [(getStart m, 0)]) with false. cbn [dequeue fst].
    rewrite <- Hse, !Z.eqb_refl. cbn [andb].
    change (parentMap _) with (∅ : gmap string Coordinate).
    unfold buildPath. rewrite map_size_empty. cbn [buildPathLoop].
    by rewrite lookup_empty. }
  split; [|done].
  unfold findPath, findPathTrace, findPathFuel.
  rewrite Nat.add_comm. simpl. by rewrite Hbody.
Qed.

Lemma findPath_start_is_end_witness :
  findPath pointMaze = Ok (Some [getStart pointMaze]) ∧
  whileBody pointMaze (initialSearch pointMaze)
    = Ok (Return (Some [getStart pointMaze]) (dequeued [] (initialSearch pointMaze))).
Proof.
  apply findPath_start_is_end.
  - exists (getMazeArray pointMaze), (getStart pointMaze), (getEnd pointMaze).
    reflexivity.
  - reflexivity.
Defined.

(** * The generator *)

Section Generator.
Import MazeGenerator.

(** ** Counting wall-neighbours *)

Lemma countIf_Permutation {A} (f : A → bool) (l l' : list A) :
  l ≡ₚ l' → countIf f l = countIf f l'.
Proof.
  induction 1 as [|a l l' _ IH|a b l|l l' l'' _ IH _ IH']; simpl.
  - done.
  - by rewrite IH.
  - destruct (f a), (f b); lia.
  - congruence.
Qed.

Lemma countIf_fmap {A B} (f : B → bool) (g : A → B) (l : list A) :
  countIf f (g <$> l) = countIf (f ∘ g) l.
Proof.
  induction l as [|a l IH]; [done|].
  rewrite fmap_cons. simpl. by rewrite IH.
Qed.

Lemma countIf_ext {A} (f g : A → bool) (l : list A) :
  (∀ a, f a = g a) → countIf f l = countIf g l.
Proof. intros H. induction l as [|a l IH]; simpl; [done|]. by rewrite H, IH. Qed.

Lemma foldl_countIf {A} (f : A → bool) (l : list A) (k : Z) :
  foldl (λ count a, if f a then count + 1 else count) k l = k + countIf f l.
Proof.
  revert k. induction l as [|a l IH]; intros k; simpl; [lia|].
  rewrite IH. destruct (f a); lia.
Qed.

Lemma fourNeighbors_directions0 c :
  fourNeighbors c = (λ d, mkCoordinate (x c + d.1) (y c + d.2)) <$> directions0.
Proof.
  unfold fourNeighbors, directions0. simpl.
  repeat f_equal; lia.
Qed.

Lemma wallCount_wallNeighbors st c :
  directions st ≡ₚ directions0 → wallCount st c = wallNeighbors st c.
Proof.
  intros Hperm. unfold wallCount, wallNeighbors.
  rewrite foldl_countIf, Z.add_0_l, (countIf_Permutation _ _ _ Hperm).
  rewrite fourNeighbors_directions0, countIf_fmap.
  apply countIf_ext. intros d. unfold isWallNeighbor, inGrid, holdsWall. simpl.
  destruct (0 <=? x c + d.1), (0 <=? y c + d.2),
    (y c + d.2 <? height st), (x c + d.1 <? width st); done.
Qed.

(** The claim of C6 as it is written fails: on the carved 3 by 3 board the
    coordinate (1,0) of the top side has three wall-neighbours when the
    neighbour (1,-1) out of bounds is counted as a wall, and is accepted. *)
Lemma isValidStartEndPoint_ignores_outside :
  carved 3 3 directions0 (tape []) = Ok carved3 ∧
  isValidStartEndPoint carved3 (mkCoordinate 1 0) = true ∧
  wallNeighborsOutsideAsWall carved3 (mkCoordinate 1 0) = 3 ∧
  ¬ (isValidStartEndPoint carved3 (mkCoordinate 1 0) = true ↔
     wallNeighborsOutsideAsWall carved3 (mkCoordinate 1 0) ≤ 2).
Proof.
  split; [by vm_compute|]. split; [by vm_compute|]. split; [by vm_compute|].
  intros [H _]. specialize (H eq_refl). vm_compute in H. by apply H.
Qed.

(** C6 (amended). In every state of the generator (the shared [directions]
    array holding the four directions in some order) and for every
    coordinate, the acceptance test accepts the coordinate if and only if at
    most 2 of its four axis-aligned neighbours are in bounds and walls; a
    neighbour that lies out of bounds is not counted. *)
Theorem isValidStartEndPoint_in_bounds_walls st coord :
  directions st ≡ₚ directions0 →
  isValidStartEndPoint st coord = true ↔ wallNeighbors st coord ≤ 2.
Proof.
  intros Hperm. unfold isValidStartEndPoint.
  by rewrite Z.leb_le, wallCount_wallNeighbors.
Qed.

Lemma isValidStartEndPoint_in_bounds_walls_witness :
  isValidStartEndPoint carved3 (mkCoordinate 1 0) = true ↔
  wallNeighbors carved3 (mkCoordinate 1 0) ≤ 2.
Proof.
  apply isValidStartEndPoint_in_bounds_walls.
  apply (Permutation_cons_app [(0, 1)] [(0, -1); (-1, 0)]).
  symmetry. apply (Permutation_cons_app [(0, -1); (-1, 0)] []).
  reflexivity.
Defined.

(** C5. The loop of [recursiveBacktrack] reads the shared [directions]
    array that the recursive calls shuffle: on a 7 by 3 board, with the
    carving started at (3,1) and gone east first, the call for (3,1) never
    tries west, and the odd cell (1,1) is a wall when the carving ends: of
    the 3 odd cells 2 are carved, with 1 connection between them. *)
Theorem carving_skips_lattice_cell :
  carved 7 3 directions0 skippingTape
  = Ok (mkState 7 3
          [[1; 1; 1; 1; 1; 1; 1]; [1; 1; 1; 0; 0; 0; 1]; [1; 1; 1; 1; 1; 1; 1]]
          [(-1, 0); (0, 1); (0, -1); (1, 0)] skippingTape 8) ∧
  cellAt [[1; 1; 1; 1; 1; 1; 1]; [1; 1; 1; 0; 0; 0; 1]; [1; 1; 1; 1; 1; 1; 1]] 1 1
  = Some 1.
Proof. split; by vm_compute. Qed.
End Generator.

(** * The carving *)

(** ** Walks, again *)

Lemma walk_mono (ok ok' : Coordinate → Prop) a l b :
  (∀ c, ok c → ok' c) → walk ok a l b → walk ok' a l b.
Proof.
  intros H. induction 1 as [a Ha|a b l c Ha Hab Hw IH].
  - apply walk_one. auto.
  - apply walk_step with b; auto.
Qed.

Lemma walk_snoc ok a l b c :
  walk ok a l b → adjacent b c → ok c → walk ok a (l ++ [c]) c.
Proof.
  intros Hw Hbc Hc. induction Hw as [a Ha|a b' l b Ha Hab Hw IH].
  - apply walk_step with c; [done..|]. by apply walk_one.
  - apply walk_step with b'; [done..|]. by apply IH.
Qed.

Lemma walk_app ok a l1 b l2 c :
  walk ok a l1 b → walk ok b l2 c → walk ok a (l1 ++ tail l2) c.
Proof.
  intros Hw1 Hw2. induction Hw1 as [a Ha|a b' l b Ha Hab Hw IH].
  - destruct Hw2; simpl; [by apply walk_one|by eapply walk_step].
  - simpl. apply walk_step with b'; [done..|]. by apply IH.
Qed.

Lemma walk_reverse ok a l b : walk ok a l b → walk ok b (reverse l) a.
Proof.
  induction 1 as [a Ha|a b l c Ha Hab Hw IH].
  - by apply walk_one.
  - rewrite reverse_cons. apply walk_snoc with b; [done| |done].
    by apply adjacent_sym.
Qed.

Lemma reach_refl (ok : Coordinate → Prop) a : ok a → reach ok a a.
Proof. intros Ha. exists [a]. by apply walk_one. Qed.

Lemma reach_sym ok a b : reach ok a b → reach ok b a.
Proof. intros [l Hl]. exists (reverse l). by apply walk_reverse. Qed.

Lemma reach_trans ok a b c : reach ok a b → reach ok b c → reach ok a c.
Proof. intros [l1 H1] [l2 H2]. exists (l1 ++ tail l2). by eapply walk_app. Qed.

Lemma reach_step ok a b : ok a → ok b → adjacent a b → reach ok a b.
Proof.
  intros Ha Hb Hab. exists [a; b]. apply walk_step with b; [done..|]. by apply walk_one.
Qed.

Lemma reach_mono (ok ok' : Coordinate → Prop) a b :
  (∀ c, ok c → ok' c) → reach ok a b → reach ok' a b.
Proof. intros H [l Hl]. exists l. by eapply walk_mono. Qed.

(** ** Lists as arrays *)

Lemma sum_list_fmap_insert {A} (f : A → nat) (l : list A) (i : nat) (a b : A) :
  l !! i = Some a →
  (sum_list (f <$> <[i:=b]> l) + f a = sum_list (f <$> l) + f b)%nat.
Proof.
  revert i. induction l as [|c l IH]; intros [|i] Hi; simpl in Hi; try done.
  - injection Hi as ->. change (<[0%nat:=b]> (a :: l)) with (b :: l).
    rewrite !fmap_cons. simpl. lia.
  - change (<[S i:=b]> (c :: l)) with (c :: <[i:=b]> l).
    rewrite !fmap_cons. simpl. specialize (IH i Hi). lia.
Qed.

Lemma swap_Permutation_head {A} (l : list A) (j : nat) (a d : A) :
  l !! j = Some d → d :: <[j:=a]> l ≡ₚ a :: l.
Proof.
  revert j. induction l as [|b l IH]; intros [|j] Hj; simpl in Hj; try done.
  - injection Hj as ->. simpl. apply Permutation_swap.
  - simpl. rewrite Permutation_swap, (IH j Hj). apply Permutation_swap.
Qed.

Lemma swap_Permutation {A} (l : list A) (i j : nat) (di dj : A) :
  l !! i = Some di → l !! j = Some dj →
  <[j:=di]> (<[i:=dj]> l) ≡ₚ l.
Proof.
  revert i j. induction l as [|a l IH]; intros [|i] [|j] Hi Hj; simpl in *; try done.
  - by simplify_eq.
  - injection Hi as ->. by apply swap_Permutation_head.
  - injection Hj as ->. by apply swap_Permutation_head.
  - f_equiv. by apply IH.
Qed.

(** ** Cells of a board *)

Lemma cellAt_Some board cx cy v :
  cellAt board cx cy = Some v ↔
  0 ≤ cx ∧ 0 ≤ cy ∧
  ∃ row, board !! Z.to_nat cy = Some row ∧ row !! Z.to_nat cx = Some v.
Proof.
  unfold cellAt. destruct (0 <=? cy) eqn:Hy, (0 <=? cx) eqn:Hx; simpl;
    try apply Z.leb_le in Hy; try apply Z.leb_le in Hx;
    try apply Z.leb_gt in Hy; try apply Z.leb_gt in Hx.
  - destruct (board !! Z.to_nat cy) as [row|]; simpl.
    + split; [intros H; eauto 6|]. by intros (_ & _ & row' & [= <-] & H).
    + split; [done|]. by intros (_ & _ & row' & H & _).
  - split; [done|]. intros (? & _); lia.
  - split; [done|]. intros (_ & ? & _); lia.
  - split; [done|]. intros (? & _); lia.
Qed.

Lemma cellAt_insert board cx cy v row cx' cy' :
  board !! Z.to_nat cy = Some row →
  0 ≤ cx < Z.of_nat (length row) → 0 ≤ cy →
  cellAt (<[Z.to_nat cy := <[Z.to_nat cx := v]> row]> board) cx' cy'
  = if decide (cx' = cx ∧ cy' = cy) then Some v else cellAt board cx' cy'.
Proof.
  intros Hrow Hcx Hcy. unfold cellAt.
  pose proof (lookup_lt_Some _ _ _ Hrow) as Hlt.
  destruct (0 <=? cy') eqn:Hy', (0 <=? cx') eqn:Hx'; simpl;
    try apply Z.leb_le in Hy'; try apply Z.leb_le in Hx';
    try apply Z.leb_gt in Hy'; try apply Z.leb_gt in Hx';
    try (rewrite decide_False by lia; done).
  destruct (decide (cy' = cy)) as [->|Hne].
  - rewrite list_lookup_insert_eq by done. simpl.
    destruct (decide (cx' = cx)) as [->|Hnx].
    + rewrite decide_True by done. apply list_lookup_insert_eq. lia.
    + rewrite decide_False by tauto. rewrite Hrow. simpl.
      apply list_lookup_insert_ne. lia.
  - rewrite decide_False by tauto. rewrite list_lookup_insert_ne by lia. done.
Qed.

Section Primitives.
Import MazeGenerator.

Lemma inGrid_spec st c :
  inGrid st c = true ↔ 0 ≤ x c < width st ∧ 0 ≤ y c < height st.
Proof.
  unfold inGrid. rewrite !andb_true_iff, !Z.leb_le, !Z.ltb_lt. lia.
Qed.

Lemma interior_inGrid st c : interior st c → inGrid st c = true.
Proof. unfold interior. rewrite inGrid_spec. lia. Qed.

Lemma wellFormed_shaped st : wellFormed st → shaped st.
Proof. intros Hwf. split; apply Hwf. Qed.

(** A cell of the board holds a value. *)
Lemma shaped_cell st c :
  shaped st → inGrid st c = true →
  ∃ row v, mazeArray st !! Z.to_nat (y c) = Some row ∧
           length row = Z.to_nat (width st) ∧
           cellAt (mazeArray st) (x c) (y c) = Some v.
Proof.
  intros [Hrows Hcols] [Hx Hy]%inGrid_spec.
  destruct (lookup_lt_is_Some_2 (mazeArray st) (Z.to_nat (y c))) as [row Hrow].
  { rewrite Hrows. lia. }
  pose proof (Hcols row (list_elem_of_lookup_2 _ _ _ Hrow)) as Hlen.
  destruct (lookup_lt_is_Some_2 row (Z.to_nat (x c))) as [v Hv]; [lia|].
  exists row, v. split; [done|]. split; [done|].
  apply cellAt_Some. split; [lia|]. split; [lia|]. eauto.
Qed.

Lemma openCell_inGrid st c : shaped st → openCell st c → inGrid st c = true.
Proof.
  intros [Hrows Hcols] (Hx & Hy & row & Hrow & Hv)%cellAt_Some. apply inGrid_spec.
  pose proof (lookup_lt_Some _ _ _ Hrow) as Hlt. rewrite Hrows in Hlt.
  pose proof (lookup_lt_Some _ _ _ Hv) as Hlt'.
  rewrite (Hcols row (list_elem_of_lookup_2 _ _ _ Hrow)) in Hlt'. lia.
Qed.

(** What [setCell] does to a cell of the board. *)
Lemma setCell_inGrid st c :
  shaped st → inGrid st c = true →
  ∃ st' old,
    setCell (x c) (y c) 0 st = Ok (tt, st') ∧
    width st' = width st ∧ height st' = height st ∧
    directions st' = directions st ∧ random st' = random st ∧
    draws st' = draws st ∧ shaped st' ∧
    (∀ c', cellAt (mazeArray st') (x c') (y c')
           = if decide (c' = c) then Some 0 else cellAt (mazeArray st) (x c') (y c')) ∧
    cellAt (mazeArray st) (x c) (y c) = Some old ∧
    (walls (mazeArray st') + (if decide (old = 0%Z) then 0 else 1)
     = walls (mazeArray st))%nat.
Proof.
  intros Hsh Hin. pose proof Hin as [Hx Hy]%inGrid_spec.
  destruct (shaped_cell st c Hsh Hin) as (row & old & Hrow & Hlen & Hold).
  destruct Hsh as [Hrows Hcols].
  unfold setCell. rewrite Hrows, Hrow.
  rewrite (proj2 (andb_true_iff _ _)) by (rewrite Z.leb_le, Z.ltb_lt; lia).
  rewrite (proj2 (andb_true_iff _ _)) by (rewrite Z.leb_le, Z.ltb_lt; lia).
  eexists _, old. split; [done|]. simpl.
  repeat (split; [done|]).
  split; [|split; [|split; [done|]]].
  - split; simpl; [by rewrite length_insert|].
    intros r Hr. apply list_elem_of_lookup in Hr as [i Hi].
    destruct (decide (i = Z.to_nat (y c))) as [->|Hne].
    + rewrite list_lookup_insert_eq in Hi by (by eapply lookup_lt_Some).
      injection Hi as <-. by rewrite length_insert.
    + rewrite list_lookup_insert_ne in Hi by done.
      apply list_elem_of_lookup_2 in Hi. by apply Hcols.
  - intros c'. rewrite (cellAt_insert _ _ _ _ row) by (done || lia).
    destruct c as [cx cy], c' as [cx' cy']; simpl.
    destruct (decide (cx' = cx ∧ cy' = cy)) as [[-> ->]|Hne].
    + by rewrite decide_True.
    + rewrite decide_False; [done|]. intros [= -> ->]. tauto.
  - apply cellAt_Some in Hold as (_ & _ & row' & Hrow' & Hv).
    assert (row' = row) by congruence. subst row'.
    unfold walls.
    pose proof (sum_list_fmap_insert
      (λ v : Z, if decide (v = 0) then 0%nat else 1%nat) row _ old 0 Hv) as Hr.
    pose proof (sum_list_fmap_insert
      (λ row, sum_list ((λ v : Z, if decide (v = 0) then 0%nat else 1%nat) <$> row))
      (mazeArray st) _ row (<[Z.to_nat (x c) := 0]> row) Hrow) as Hb.
    simpl in Hr, Hb. destruct (decide (old = 0)); lia.
Qed.
End Primitives.

Section Carving.
Import MazeGenerator.

Lemma bind_Ok {A B} (m : Gen A) (f : A → Gen B) st a st' :
  m st = Ok (a, st') → bind m f st = f a st'.
Proof. intros H. unfold bind. by rewrite H. Qed.

Lemma grows_refl st : grows st st.
Proof. by repeat split. Qed.

Lemma grows_trans st1 st2 st3 : grows st1 st2 → grows st2 st3 → grows st1 st3.
Proof.
  intros (? & ? & ? & H12) (? & ? & ? & H23).
  repeat split; [congruence..|]. auto.
Qed.

Lemma interior_grows st st' c : grows st st' → interior st c → interior st' c.
Proof. intros (Hw & Hh & _). unfold interior. by rewrite Hw, Hh. Qed.

(** Carving a cell inside the outer ring. *)
Lemma carveCell st c :
  wellFormed st → interior st c →
  ∃ st', setCell (x c) (y c) 0 st = Ok (tt, st') ∧
         wellFormed st' ∧ grows st st' ∧ openCell st' c ∧
         (∀ c', openCell st' c' → c' = c ∨ openCell st c') ∧
         (∀ c', c' ≠ c → cellAt (mazeArray st') (x c') (y c')
                        = cellAt (mazeArray st) (x c') (y c')) ∧
         (walls (mazeArray st') ≤ walls (mazeArray st))%nat ∧
         (cellAt (mazeArray st) (x c) (y c) = Some 1 →
          S (walls (mazeArray st')) = walls (mazeArray st)).
Proof.
  intros Hwf Hint.
  destruct (setCell_inGrid st c (wellFormed_shaped _ Hwf) (interior_inGrid _ _ Hint))
    as (st' & old & Hset & Hw & Hh & Hd & Hr & _ & [Hrows Hcols] & Hcell & Hold & Hwalls).
  exists st'. split; [done|].
  assert (∀ c', c' ≠ c → cellAt (mazeArray st') (x c') (y c')
                         = cellAt (mazeArray st) (x c') (y c')) as Hother.
  { intros c' Hc'. by rewrite Hcell, decide_False. }
  assert (openCell st' c) as Hopen.
  { unfold openCell. by rewrite Hcell, decide_True. }
  split; [|split; [|split; [done|split; [|split; [done|split]]]]].
  - split.
    + rewrite Hw. apply Hwf.
    + rewrite Hh. apply Hwf.
    + done.
    + done.
    + rewrite Hd. apply Hwf.
    + intros c' v. rewrite Hcell.
      destruct (decide (c' = c)); [intros [= <-]; by left|apply (wf_cells _ Hwf)].
    + intros c' Hin Hni. rewrite Hcell. destruct (decide (c' = c)) as [Hc'|Hc'].
      * subst c'. destruct Hni. unfold interior in *. by rewrite Hw, Hh.
      * apply (wf_border _ Hwf).
        -- apply inGrid_spec. apply inGrid_spec in Hin. by rewrite <- Hw, <- Hh.
        -- unfold interior in *. by rewrite <- Hw, <- Hh.
  - repeat split; [done..|]. intros c' Hc'. unfold openCell. rewrite Hcell.
    by destruct (decide (c' = c)).
  - intros c' Hc'. destruct (decide (c' = c)) as [->|Hne]; [by left|right].
    unfold openCell in *. by rewrite <- Hother.
  - destruct (decide (old = 0)); lia.
  - intros H1. assert (old = 1) by congruence. subst old.
    rewrite decide_False in Hwalls by done. lia.
Qed.

Lemma connected_carve st st' root c :
  grows st st' →
  (∀ c', openCell st' c' → c' = c ∨ openCell st c') →
  openCell st' c →
  connected st root → linked st root c →
  connected st' root.
Proof.
  intros (_ & _ & _ & Hgrow) Hnew Hc Hconn Hlink c' Hc'.
  destruct Hlink as [[-> Hnone]|(a & Ha & Hadj)].
  - destruct (Hnew c' Hc') as [->|Hold]; [by apply reach_refl|].
    by destruct (Hnone c').
  - destruct (Hnew c' Hc') as [->|Hold].
    + apply reach_trans with a.
      * apply (reach_mono (openCell st)); [done|]. by apply Hconn.
      * apply reach_step; auto.
    + apply (reach_mono (openCell st)); [done|]. by apply Hconn.
Qed.

(** ** Shuffling *)

Lemma randomBelow_spec k st :
  ∃ r, randomBelow k st
       = Ok (r, mkState (width st) (height st) (mazeArray st) (directions st)
                        (random st) (S (draws st))) ∧
       (0 < k → 0 ≤ r < k) ∧ (k ≤ 0 → r = 0).
Proof.
  unfold randomBelow. eexists. split; [done|].
  destruct (0 <? k) eqn:Hk.
  - apply Z.ltb_lt in Hk. split; [|lia]. intros _. apply Z.mod_pos_bound. lia.
  - apply Z.ltb_ge in Hk. split; [lia|done].
Qed.

Lemma shuffleFrom_spec i : ∀ st,
  (i < length (directions st))%nat →
  ∃ st', shuffleFrom i st = Ok (tt, st') ∧
         directions st' ≡ₚ directions st ∧
         width st' = width st ∧ height st' = height st ∧
         mazeArray st' = mazeArray st ∧ random st' = random st.
Proof.
  induction i as [|i IH]; intros st Hi.
  - exists st. by repeat split.
  - cbn [shuffleFrom].
    destruct (randomBelow_spec (Z.of_nat (S i) + 1) st) as (j & Hj & Hpos & _).
    rewrite (bind_Ok _ _ _ _ _ Hj).
    rewrite (bind_Ok get _ _ _ _ eq_refl). cbn [directions].
    destruct (lookup_lt_is_Some_2 (directions st) (S i) Hi) as [di Hdi].
    destruct (lookup_lt_is_Some_2 (directions st) (Z.to_nat j)) as [dj Hdj]; [lia|].
    rewrite Hdi, Hdj.
    rewrite (bind_Ok _ _ _ tt _ eq_refl).
    match goal with |- ∃ st', shuffleFrom i ?s = _ ∧ _ => destruct (IH s) as (st' & Hst' & Hp & ? & ? & ? & ?) end.
    { simpl. rewrite !length_insert. lia. }
    exists st'. split; [done|]. simpl in *. split; [|done].
    rewrite Hp. by apply swap_Permutation.
Qed.

Lemma shuffleDirections_spec st :
  wellFormed st →
  ∃ st', shuffleDirections st = Ok (tt, st') ∧
         directions st' ≡ₚ directions st ∧
         width st' = width st ∧ height st' = height st ∧
         mazeArray st' = mazeArray st ∧ random st' = random st.
Proof.
  intros Hwf. unfold shuffleDirections.
  rewrite (bind_Ok get _ _ _ _ eq_refl).
  apply shuffleFrom_spec.
  rewrite (Permutation_length (wf_directions _ Hwf)). simpl. lia.
Qed.

Lemma wellFormed_same st st' :
  wellFormed st →
  directions st' ≡ₚ directions st →
  width st' = width st → height st' = height st →
  mazeArray st' = mazeArray st →
  wellFormed st'.
Proof.
  intros Hwf Hd Hw Hh Hm. split.
  - rewrite Hw. apply Hwf.
  - rewrite Hh. apply Hwf.
  - rewrite Hm, Hh. apply Hwf.
  - rewrite Hm, Hw. apply Hwf.
  - rewrite Hd. apply Hwf.
  - rewrite Hm. apply (wf_cells _ Hwf).
  - intros c Hin Hni. rewrite Hm. apply (wf_border _ Hwf).
    + apply inGrid_spec. apply inGrid_spec in Hin. by rewrite <- Hw, <- Hh.
    + unfold interior in *. by rewrite <- Hw, <- Hh.
Qed.

Lemma openCell_same st st' c :
  mazeArray st' = mazeArray st → openCell st' c ↔ openCell st c.
Proof. unfold openCell. by intros ->. Qed.

Lemma connected_same st st' root :
  mazeArray st' = mazeArray st → connected st root → connected st' root.
Proof.
  intros Hm Hconn c Hc. apply (reach_mono (openCell st)).
  - intros c'. by apply openCell_same.
  - apply Hconn. by apply (openCell_same st st').
Qed.

Lemma grows_same st st' :
  width st' = width st → height st' = height st →
  mazeArray st' = mazeArray st → random st' = random st → grows st st'.
Proof.
  intros Hw Hh Hm Hr. repeat split; [done..|]. intros c. by apply openCell_same.
Qed.
End Carving.

Section Backtrack.
Import MazeGenerator.
Variable root : Coordinate.

Lemma direction_unit st d :
  wellFormed st → d ∈ directions st →
  (d.1 = 0 ∧ (d.2 = 1 ∨ d.2 = -1)) ∨ (d.2 = 0 ∧ (d.1 = 1 ∨ d.1 = -1)).
Proof.
  intros Hwf Hd. rewrite (wf_directions _ Hwf) in Hd.
  unfold directions0 in Hd. rewrite !elem_of_cons, elem_of_nil in Hd.
  destruct Hd as [->|[->|[->|[->|[]]]]]; simpl; lia.
Qed.

Lemma isValidCoordinate_interior st c :
  isValidCoordinate st (x c) (y c) = true ↔ interior st c.
Proof.
  unfold isValidCoordinate, interior.
  rewrite !andb_true_iff, !Z.ltb_lt. lia.
Qed.

Lemma recursiveBacktrack_S fuel coord :
  recursiveBacktrack (S fuel) coord
  = bind (setCell (x coord) (y coord) 0) (λ _,
    bind shuffleDirections (λ _,
    bind get (λ st,
    forOfDirections (carveStep (recursiveBacktrack fuel) coord)
                    (length (directions st)) 0))).
Proof. done. Qed.

(** The loop of [recursiveBacktrack], given what the recursive calls do. *)
Lemma forOfDirections_carve fuel coord :
  (∀ c st,
     wellFormed st → connected st root → interior st c →
     cellAt (mazeArray st) (x c) (y c) = Some 1 → linked st root c →
     (walls (mazeArray st) ≤ fuel)%nat →
     ∃ st', recursiveBacktrack fuel c st = Ok (tt, st') ∧
            wellFormed st' ∧ connected st' root ∧ grows st st' ∧
            (walls (mazeArray st') < walls (mazeArray st))%nat) →
  ∀ n i st,
    wellFormed st → connected st root → interior st coord →
    openCell st coord → (walls (mazeArray st) ≤ fuel)%nat →
    ∃ st', forOfDirections (carveStep (recursiveBacktrack fuel) coord) n i st
           = Ok (tt, st') ∧
           wellFormed st' ∧ connected st' root ∧ grows st st' ∧
           (walls (mazeArray st') ≤ walls (mazeArray st))%nat.
Proof.
  intros Hrec. induction n as [|n IH]; intros i st Hwf Hconn Hint Hopen Hfuel.
  - exists st. split; [reflexivity|]. split; [done|]. split; [done|].
    split; [apply grows_refl|done].
  - cbn [forOfDirections]. rewrite (bind_Ok get _ _ _ _ eq_refl).
    destruct (directions st !! i) as [[dx dy]|] eqn:Hd.
    2:{ exists st. split; [reflexivity|]. split; [done|]. split; [done|].
        split; [apply grows_refl|done]. }
    pose proof (direction_unit st (dx, dy) Hwf (list_elem_of_lookup_2 _ _ _ Hd)) as Hunit.
    simpl in Hunit.
    set (new := mkCoordinate (x coord + dx * 2) (y coord + dy * 2)).
    set (mid := mkCoordinate (x coord + dx) (y coord + dy)).
    assert (∃ st1, carveStep (recursiveBacktrack fuel) coord (dx, dy) st = Ok (tt, st1) ∧
              wellFormed st1 ∧ connected st1 root ∧ grows st st1 ∧
              (walls (mazeArray st1) ≤ walls (mazeArray st))%nat)
      as (st1 & Hstep & Hwf1 & Hconn1 & Hgrow1 & Hwalls1).
    { unfold carveStep. rewrite (bind_Ok get _ _ _ _ eq_refl).
      fold new. change (x coord + dx * 2) with (x new).
      change (y coord + dy * 2) with (y new).
      destruct (isValidCoordinate st (x new) (y new)) eqn:Hvalid; cbn [andb].
      2:{ exists st. split; [reflexivity|]. split; [done|]. split; [done|].
          split; [apply grows_refl|done]. }
      destruct (bool_decide (cellAt (mazeArray st) (x new) (y new) = Some 1)) eqn:Hwall.
      2:{ exists st. split; [reflexivity|]. split; [done|]. split; [done|].
          split; [apply grows_refl|done]. }
      apply bool_decide_eq_true in Hwall.
      apply isValidCoordinate_interior in Hvalid.
      assert (interior st mid) as Hmid.
      { unfold interior in *. simpl in *. lia. }
      assert (adjacent coord mid) as Hadj1 by (unfold adjacent; simpl; lia).
      assert (adjacent mid new) as Hadj2 by (unfold adjacent; simpl; lia).
      destruct (carveCell st mid Hwf Hmid)
        as (st1 & Hset & Hwf1 & Hgrow1 & Hopen1 & Hnew1 & Hother1 & Hwalls1 & _).
      change (x coord + dx) with (x mid). change (y coord + dy) with (y mid).
      rewrite (bind_Ok _ _ _ _ _ Hset).
      destruct (Hrec new st1) as (st2 & Hrb & Hwf2 & Hconn2 & Hgrow2 & Hwalls2).
      - done.
      - apply (connected_carve st st1 root mid); [done..|].
        right. exists coord. by split.
      - by apply (interior_grows st).
      - rewrite Hother1; [done|]. apply not_eq_sym. by apply adjacent_ne.
      - right. exists mid. by split.
      - lia.
      - exists st2. split; [done|]. split; [done|]. split; [done|].
        split; [by apply grows_trans with st1|lia]. }
    rewrite (bind_Ok _ _ _ _ _ Hstep).
    destruct (IH (S i) st1) as (st2 & Hloop & Hwf2 & Hconn2 & Hgrow2 & Hwalls2);
      [done|done|by apply (interior_grows st)|by apply Hgrow1|lia|].
    exists st2. split; [done|]. split; [done|]. split; [done|].
    split; [by apply grows_trans with st1|lia].
Qed.

(** [recursiveBacktrack] returns within its fuel; it carves at least the
    cell it is called on and keeps the carved cells connected. *)
Lemma recursiveBacktrack_carve fuel : ∀ c st,
  wellFormed st → connected st root → interior st c →
  cellAt (mazeArray st) (x c) (y c) = Some 1 → linked st root c →
  (walls (mazeArray st) ≤ fuel)%nat →
  ∃ st', recursiveBacktrack fuel c st = Ok (tt, st') ∧
         wellFormed st' ∧ connected st' root ∧ grows st st' ∧
         (walls (mazeArray st') < walls (mazeArray st))%nat.
Proof.
  induction fuel as [|fuel IH]; intros c st Hwf Hconn Hint Hwall Hlink Hfuel.
  - destruct (carveCell st c Hwf Hint) as (st1 & _ & _ & _ & _ & _ & _ & _ & Hw).
    specialize (Hw Hwall). lia.
  - rewrite recursiveBacktrack_S.
    destruct (carveCell st c Hwf Hint)
      as (st1 & Hset & Hwf1 & Hgrow1 & Hopen1 & Hnew1 & _ & _ & Hw).
    specialize (Hw Hwall).
    rewrite (bind_Ok _ _ _ _ _ Hset).
    pose proof (connected_carve st st1 root c Hgrow1 Hnew1 Hopen1 Hconn Hlink) as Hconn1.
    destruct (shuffleDirections_spec st1 Hwf1) as (st2 & Hsh & Hp & Hw2 & Hh2 & Hm2 & Hr2).
    rewrite (bind_Ok _ _ _ _ _ Hsh).
    rewrite (bind_Ok get _ _ _ _ eq_refl).
    pose proof (wellFormed_same st1 st2 Hwf1 Hp Hw2 Hh2 Hm2) as Hwf2.
    pose proof (grows_same st1 st2 Hw2 Hh2 Hm2 Hr2) as Hgrow2.
    destruct (forOfDirections_carve fuel c IH (length (directions st2)) 0%nat st2)
      as (st3 & Hloop & Hwf3 & Hconn3 & Hgrow3 & Hwalls3).
    + done.
    + by apply (connected_same st1).
    + apply (interior_grows st1); [done|]. by apply (interior_grows st).
    + by apply (openCell_same st1 st2).
    + rewrite Hm2. lia.
    + exists st3. split; [done|]. split; [done|]. split; [done|].
      split; [by apply grows_trans with st2; [apply grows_trans with st1|]|].
      rewrite Hm2 in Hwalls3. lia.
Qed.
End Backtrack.

(** ** From the fresh board to the carved one *)

Lemma sum_list_fmap_replicate {A} (f : A → nat) (n : nat) (a : A) :
  sum_list (f <$> replicate n a) = (n * f a)%nat.
Proof.
  induction n as [|n IH]; [done|].
  change (replicate (S n) a) with (a :: replicate n a).
  rewrite fmap_cons. simpl. lia.
Qed.

Section Carve.
Import MazeGenerator.

Lemma cellAt_constructor w h dirs rnd c v :
  cellAt (mazeArray (constructor w h dirs rnd)) (x c) (y c) = Some v → v = 1.
Proof.
  intros (_ & _ & row & Hrow & Hv)%cellAt_Some. simpl in Hrow.
  apply lookup_replicate in Hrow as [-> _].
  by apply lookup_replicate in Hv as [-> _].
Qed.

Lemma shaped_constructor w h dirs rnd : shaped (constructor w h dirs rnd).
Proof.
  split; simpl; [by rewrite length_replicate|].
  intros row [-> _]%elem_of_replicate. by rewrite length_replicate.
Qed.

Lemma wellFormed_constructor w h dirs rnd :
  3 ≤ w → 3 ≤ h → dirs ≡ₚ directions0 →
  wellFormed (constructor w h dirs rnd).
Proof.
  intros Hw Hh Hd. pose proof (shaped_constructor w h dirs rnd) as [Hrows Hcols].
  split; [done..| |].
  - intros c v Hv. right. by eapply cellAt_constructor.
  - intros c Hin _.
    destruct (shaped_cell _ c (shaped_constructor w h dirs rnd) Hin) as (_ & v & _ & _ & Hv).
    rewrite Hv. f_equal. by eapply cellAt_constructor.
Qed.

Lemma walls_constructor w h dirs rnd :
  0 ≤ w → 0 ≤ h →
  walls (mazeArray (constructor w h dirs rnd)) = Z.to_nat (w * h).
Proof.
  intros Hw Hh. unfold walls. simpl.
  rewrite sum_list_fmap_replicate, sum_list_fmap_replicate. simpl.
  rewrite Z2Nat.inj_mul by done. lia.
Qed.

Lemma wellFormed_drawn st n :
  wellFormed st →
  wellFormed (mkState (width st) (height st) (mazeArray st) (directions st)
                      (random st) n).
Proof. intros Hwf. by apply (wellFormed_same st). Qed.

(** The carving phase of [generate] returns, and leaves a board whose
    carved cells are connected. *)
Lemma carve_spec w h dirs rnd :
  3 ≤ w → 3 ≤ h → dirs ≡ₚ directions0 →
  ∃ root st, carve (carveFuel w h) (constructor w h dirs rnd) = Ok (tt, st) ∧
             wellFormed st ∧ connected st root ∧
             width st = w ∧ height st = h ∧ random st = rnd.
Proof.
  intros Hw Hh Hd. unfold carve.
  rewrite (bind_Ok get _ _ _ _ eq_refl).
  destruct (randomBelow_spec ((w - 1) / 2) (constructor w h dirs rnd))
    as (rx & Hrx & Hxpos & _).
  change (width (constructor w h dirs rnd)) with w.
  change (height (constructor w h dirs rnd)) with h.
  rewrite (bind_Ok _ _ _ _ _ Hrx).
  match type of Hrx with _ = Ok (_, ?s) => set (st1 := s) end.
  destruct (randomBelow_spec ((h - 1) / 2) st1) as (ry & Hry & Hypos & _).
  rewrite (bind_Ok _ _ _ _ _ Hry).
  match type of Hry with _ = Ok (_, ?s) => set (st2 := s) end.
  set (root := mkCoordinate (1 + rx * 2) (1 + ry * 2)).
  pose proof (wellFormed_constructor w h dirs rnd Hw Hh Hd) as Hwf0.
  assert (wellFormed st2) as Hwf2 by (by apply (wellFormed_same _ _ Hwf0)).
  assert (∀ c, ¬ openCell st2 c) as Hnone.
  { intros c Hc. by apply cellAt_constructor in Hc. }
  assert (0 < (w - 1) / 2) as Hwpos by (apply Z.div_str_pos; lia).
  assert (0 < (h - 1) / 2) as Hhpos by (apply Z.div_str_pos; lia).
  pose proof (Z.mul_div_le (w - 1) 2 ltac:(lia)).
  pose proof (Z.mul_div_le (h - 1) 2 ltac:(lia)).
  assert (interior st2 root) as Hint.
  { unfold interior. simpl. lia. }
  destruct (recursiveBacktrack_carve root (carveFuel w h) root st2)
    as (st3 & Hrb & Hwf3 & Hconn3 & (Hw3 & Hh3 & Hr3 & _) & _).
  - done.
  - intros c Hc. destruct (Hnone c Hc).
  - done.
  - destruct (shaped_cell st2 root (wellFormed_shaped _ Hwf2) (interior_inGrid _ _ Hint))
      as (_ & v & _ & _ & Hv).
    rewrite Hv. f_equal. exact (cellAt_constructor w h dirs rnd root v Hv).
  - by left.
  - change (mazeArray st2) with (mazeArray (constructor w h dirs rnd)).
    rewrite walls_constructor by lia. unfold carveFuel. lia.
  - exists root, st3. split; [exact Hrb|]. split; [done|]. split; [done|].
    split; [by rewrite Hw3|]. split; [by rewrite Hh3|by rewrite Hr3].
Qed.
End Carve.

(** * Placing the entrance and the exit *)

Section Placement.
Import MazeGenerator.

Lemma sameBoard_refl st : sameBoard st st.
Proof. by repeat split. Qed.

Lemma sameBoard_trans st1 st2 st3 :
  sameBoard st1 st2 → sameBoard st2 st3 → sameBoard st1 st3.
Proof.
  intros (? & ? & ? & ? & ?) (? & ? & ? & ? & ?). repeat split; congruence.
Qed.

Lemma sameBoard_drawn st :
  sameBoard st (mkState (width st) (height st) (mazeArray st) (directions st)
                        (random st) (S (draws st))).
Proof. by repeat split. Qed.

Lemma isValidStartEndPoint_same st st' c :
  sameBoard st st' → isValidStartEndPoint st' c = isValidStartEndPoint st c.
Proof.
  intros (Hw & Hh & Hm & Hd & _).
  unfold isValidStartEndPoint, wallCount, isWallNeighbor.
  by rewrite Hw, Hh, Hm, Hd.
Qed.

Lemma onSide_same st st' side c :
  sameBoard st st' → onSide st side c → onSide st' side c.
Proof. intros (Hw & Hh & _). unfold onSide. by rewrite Hw, Hh. Qed.

Lemma elem_of_sides side :
  side ∈ sides ↔ side = "top" ∨ side = "right" ∨ side = "bottom" ∨ side = "left".
Proof. unfold sides. rewrite !elem_of_cons, elem_of_nil. tauto. Qed.

(** A sample lies on its side, away from the corners. *)
Lemma getRandomSizeCoordinate_spec side st :
  side ∈ sides → 3 ≤ width st → 3 ≤ height st →
  ∃ c, getRandomSizeCoordinate side st
       = Ok (c, mkState (width st) (height st) (mazeArray st) (directions st)
                        (random st) (S (draws st))) ∧
       onSide st side c.
Proof.
  intros Hside Hw Hh. unfold getRandomSizeCoordinate.
  rewrite (bind_Ok get _ _ _ _ eq_refl).
  destruct (randomBelow_spec (width st - 2) st) as (rw & Hrw & Hrwpos & _).
  destruct (randomBelow_spec (height st - 2) st) as (rh & Hrh & Hrhpos & _).
  destruct (String.eqb_spec side "top") as [->|Hn1].
  { rewrite (bind_Ok _ _ _ _ _ Hrw). eexists. split; [reflexivity|].
    left. simpl. split; [done|]. lia. }
  destruct (String.eqb_spec side "right") as [->|Hn2].
  { rewrite (bind_Ok _ _ _ _ _ Hrh). eexists. split; [reflexivity|].
    right; left. simpl. split; [done|]. lia. }
  destruct (String.eqb_spec side "bottom") as [->|Hn3].
  { rewrite (bind_Ok _ _ _ _ _ Hrw). eexists. split; [reflexivity|].
    right; right; left. simpl. split; [done|]. lia. }
  destruct (String.eqb_spec side "left") as [->|Hn4].
  { rewrite (bind_Ok _ _ _ _ _ Hrh). eexists. split; [reflexivity|].
    right; right; right. simpl. split; [done|]. lia. }
  apply elem_of_sides in Hside. tauto.
Qed.

(** The loop of [createStartAndEndCoordinate]. *)
Lemma placementLoop_spec side n : ∀ coord isValid attempts st,
  side ∈ sides → 3 ≤ width st → 3 ≤ height st →
  0 ≤ attempts → attempts + Z.of_nat n = maxAttempts →
  ∃ c v a st',
    placementLoop n side coord isValid attempts st = Ok ((c, v, a), st') ∧
    sameBoard st st' ∧
    attempts ≤ a ≤ maxAttempts ∧
    Z.of_nat (draws st') = Z.of_nat (draws st) + (a - attempts) ∧
    (v = false → a = maxAttempts) ∧
    (v = true →
     (isValid = true ∧ c = coord) ∨
     (∃ cc, c = Some cc ∧ onSide st side cc ∧ isValidStartEndPoint st cc = true)).
Proof.
  induction n as [|n IH]; intros coord isValid attempts st Hside Hw Hh Ha Hn.
  - exists coord, isValid, attempts, st. split; [done|].
    split; [apply sameBoard_refl|]. split; [lia|]. split; [lia|].
    split; [intros _; lia|]. intros ->. by left.
  - cbn [placementLoop]. destruct isValid; cbn [negb andb].
    { exists coord, true, attempts, st. split; [done|].
      split; [apply sameBoard_refl|]. split; [lia|]. split; [lia|].
      split; [done|]. intros _. by left. }
    rewrite (proj2 (Z.ltb_lt attempts maxAttempts)) by lia.
    destruct (getRandomSizeCoordinate_spec side st Hside Hw Hh) as (cc & Hcc & Hon).
    rewrite (bind_Ok _ _ _ _ _ Hcc).
    rewrite (bind_Ok get _ _ _ _ eq_refl).
    match goal with |- ∃ c v a st', placementLoop n side _ _ _ ?s = _ ∧ _ =>
      set (st1 := s) end.
    pose proof (sameBoard_drawn st) as Hsame. fold st1 in Hsame.
    destruct (IH (Some cc) (isValidStartEndPoint st1 cc) (attempts + 1) st1)
      as (c & v & a & st' & Hloop & Hsame' & Hrange & Hdraws & Hfalse & Htrue);
      [done|done|done|lia|lia|].
    exists c, v, a, st'. split; [done|].
    split; [by apply sameBoard_trans with st1|]. split; [lia|].
    split; [simpl in Hdraws; lia|]. split; [done|].
    intros Hv. right. destruct (Htrue Hv) as [[Hacc ->]|(cc' & -> & Hon' & Hacc)].
    + exists cc. split; [done|]. split; [done|].
      by rewrite <- (isValidStartEndPoint_same st st1).
    + exists cc'. split; [done|]. split.
      * destruct Hsame as (Hw1 & Hh1 & _). unfold onSide in *.
        by rewrite <- Hw1, <- Hh1.
      * by rewrite <- (isValidStartEndPoint_same st st1).
Qed.

(** [createStartAndEndCoordinate] returns an accepted coordinate of the side,
    or throws when the loop ends without one. *)
Lemma createStartAndEndCoordinate_spec side st :
  side ∈ sides → 3 ≤ width st → 3 ≤ height st →
  createStartAndEndCoordinate side st = Throw "Failed to create usable maze" ∨
  ∃ c st', createStartAndEndCoordinate side st = Ok (c, st') ∧
           sameBoard st st' ∧ onSide st side c ∧
           isValidStartEndPoint st c = true.
Proof.
  intros Hside Hw Hh. unfold createStartAndEndCoordinate.
  destruct (placementLoop_spec side (Z.to_nat maxAttempts) None false 0 st)
    as (c & v & a & st' & Hloop & Hsame & _ & _ & _ & Htrue); [done..| |].
  { unfold maxAttempts. lia. }
  rewrite (bind_Ok _ _ _ _ _ Hloop). destruct v; [|left; by destruct c].
  right. destruct (Htrue eq_refl) as [[? _]|(cc & -> & Hon & Hacc)]; [done|].
  by exists cc, st'.
Qed.
End Placement.

Section Acceptance.
Import MazeGenerator.

Lemma border_wall st c :
  wellFormed st → inGrid st c = true → ¬ interior st c →
  inGrid st c && holdsWall st c = true.
Proof.
  intros Hwf Hin Hni. rewrite Hin. simpl. unfold holdsWall.
  apply bool_decide_eq_true. by apply (wf_border _ Hwf).
Qed.

Lemma interior_open st c :
  wellFormed st → interior st c →
  inGrid st c && holdsWall st c = false → openCell st c.
Proof.
  intros Hwf Hint Hf. pose proof (interior_inGrid _ _ Hint) as Hin.
  rewrite Hin in Hf. simpl in Hf. unfold holdsWall in Hf.
  apply bool_decide_eq_false in Hf.
  destruct (shaped_cell st c (wellFormed_shaped _ Hwf) Hin) as (_ & v & _ & _ & Hv).
  unfold openCell. destruct (wf_cells _ Hwf c v Hv) as [->| ->]; [done|].
  by destruct Hf.
Qed.

(** An accepted coordinate of a side has its inner neighbour carved. *)
Lemma accepted_neighbor st side c :
  wellFormed st → onSide st side c → isValidStartEndPoint st c = true →
  inGrid st c = true ∧ ∃ a, adjacent c a ∧ openCell st a.
Proof.
  intros Hwf Hon Hacc.
  pose proof (wf_width _ Hwf) as Hw. pose proof (wf_height _ Hwf) as Hh.
  unfold isValidStartEndPoint in Hacc. apply Z.leb_le in Hacc.
  rewrite (wallCount_wallNeighbors st c (wf_directions _ Hwf)) in Hacc.
  unfold wallNeighbors, fourNeighbors in Hacc.
  set (f := λ n, inGrid st n && holdsWall st n) in *.
  cbn [countIf] in Hacc.
  set (south := mkCoordinate (x c) (y c + 1)) in *.
  set (east := mkCoordinate (x c + 1) (y c)) in *.
  set (north := mkCoordinate (x c) (y c - 1)) in *.
  set (west := mkCoordinate (x c - 1) (y c)) in *.
  assert (∀ n, inGrid st n = true → ¬ interior st n → f n = true) as Hborder
    by (intros n; apply border_wall; done).
  assert (∀ n, interior st n → f n = false → openCell st n) as Hopen
    by (intros n; apply interior_open; done).
  destruct Hon as [(_ & Hy & Hx)|[(_ & Hx & Hy)|[(_ & Hy & Hx)|(_ & Hx & Hy)]]].
  - split; [apply inGrid_spec; lia|]. exists south.
    split; [unfold adjacent; simpl; lia|]. apply Hopen; [unfold interior; simpl; lia|].
    rewrite (Hborder east), (Hborder west) in Hacc;
      [|apply inGrid_spec; simpl; lia|unfold interior; simpl; lia
       |apply inGrid_spec; simpl; lia|unfold interior; simpl; lia].
    destruct (f south), (f north); (done || lia).
  - split; [apply inGrid_spec; lia|]. exists west.
    split; [unfold adjacent; simpl; lia|]. apply Hopen; [unfold interior; simpl; lia|].
    rewrite (Hborder south), (Hborder north) in Hacc;
      [|apply inGrid_spec; simpl; lia|unfold interior; simpl; lia
       |apply inGrid_spec; simpl; lia|unfold interior; simpl; lia].
    destruct (f west), (f east); (done || lia).
  - split; [apply inGrid_spec; lia|]. exists north.
    split; [unfold adjacent; simpl; lia|]. apply Hopen; [unfold interior; simpl; lia|].
    rewrite (Hborder east), (Hborder west) in Hacc;
      [|apply inGrid_spec; simpl; lia|unfold interior; simpl; lia
       |apply inGrid_spec; simpl; lia|unfold interior; simpl; lia].
    destruct (f south), (f north); (done || lia).
  - split; [apply inGrid_spec; lia|]. exists east.
    split; [unfold adjacent; simpl; lia|]. apply Hopen; [unfold interior; simpl; lia|].
    rewrite (Hborder south), (Hborder north) in Hacc;
      [|apply inGrid_spec; simpl; lia|unfold interior; simpl; lia
       |apply inGrid_spec; simpl; lia|unfold interior; simpl; lia].
    destruct (f west), (f east); (done || lia).
Qed.

(** [permutation] picks its elements from the list. *)
Lemma permutation_spec {A} n : ∀ r (l : list A),
  (n ≤ length l)%nat →
  length (permutation n r l) = n ∧ ∀ a, a ∈ permutation n r l → a ∈ l.
Proof.
  induction n as [|n IH]; intros r l Hn; cbn [permutation].
  - split; [done|]. intros a Ha. by apply elem_of_nil in Ha.
  - destruct (lookup_lt_is_Some_2 l (r mod length l)%nat) as [a Ha].
    { apply Nat.mod_upper_bound. lia. }
    rewrite Ha.
    destruct (IH (r / length l)%nat (delete (r mod length l)%nat l)) as [Hlen Hin].
    { rewrite length_delete by eauto. lia. }
    split; [simpl; by rewrite Hlen|].
    intros b [->|Hb]%elem_of_cons.
    + by eapply list_elem_of_lookup_2.
    + by eapply list_elem_of_delete_inv, Hin.
Qed.

Lemma bind_Throw {A B} (m : Gen A) (f : A → Gen B) st msg :
  m st = Throw msg → bind m f st = Throw msg.
Proof. intros H. unfold bind. by rewrite H. Qed.
End Acceptance.

Section Generate.
Import MazeGenerator.

Lemma wellFormed_sameBoard st st' : sameBoard st st' → wellFormed st → wellFormed st'.
Proof.
  intros (Hw & Hh & Hm & Hd & _) Hwf. apply (wellFormed_same st); [done| |done..].
  by rewrite Hd.
Qed.

(** [createStartAndEnd] throws for want of an accepted coordinate, or opens
    two cells of the outer ring that the carved cells connect. *)
Lemma createStartAndEnd_spec st root :
  wellFormed st → connected st root →
  createStartAndEnd st = Throw "Failed to create usable maze" ∨
  ∃ s e st', createStartAndEnd st = Ok ((s, e), st') ∧
             shaped st' ∧ width st' = width st ∧ height st' = height st ∧
             openCell st' s ∧ openCell st' e ∧ reach (openCell st') s e.
Proof.
  intros Hwf Hconn. unfold createStartAndEnd.
  rewrite (bind_Ok (sortAtRandom _) _ st _ _ eq_refl). cbv beta.
  set (st1 := mkState (width st) (height st) (mazeArray st) (directions st)
                      (random st) (S (draws st))).
  assert (sameBoard st st1) as Hsame1 by apply sameBoard_drawn.
  destruct (permutation_spec 4 (random st (draws st)) ["top"; "right"; "bottom"; "left"])
    as [Hlen Hin]; [simpl; lia|].
  change (length ["top"; "right"; "bottom"; "left"]) with 4%nat.
  destruct (permutation 4 (random st (draws st)) ["top"; "right"; "bottom"; "left"])
    as [|s1 [|s2 rest]]; [done..|].
  change (take 2 (s1 :: s2 :: rest)) with [s1; s2]. cbv beta iota.
  assert (s1 ∈ sides) as Hs1 by (apply Hin; apply list_elem_of_here).
  assert (s2 ∈ sides) as Hs2
    by (apply Hin; apply list_elem_of_further, list_elem_of_here).
  pose proof (wellFormed_sameBoard _ _ Hsame1 Hwf) as Hwf1.
  destruct (createStartAndEndCoordinate_spec s1 st1 Hs1 (wf_width _ Hwf1) (wf_height _ Hwf1))
    as [Hthrow|(cs & st2 & Hcs & Hsame2 & Hon1 & Hacc1)].
  { left. by apply bind_Throw. }
  rewrite (bind_Ok _ _ _ _ _ Hcs).
  pose proof (wellFormed_sameBoard _ _ Hsame2 Hwf1) as Hwf2.
  destruct (createStartAndEndCoordinate_spec s2 st2 Hs2 (wf_width _ Hwf2) (wf_height _ Hwf2))
    as [Hthrow|(ce & st3 & Hce & Hsame3 & Hon2 & Hacc2)].
  { left. by apply bind_Throw. }
  rewrite (bind_Ok _ _ _ _ _ Hce). right.
  pose proof (wellFormed_sameBoard _ _ Hsame3 Hwf2) as Hwf3.
  pose proof (sameBoard_trans _ _ _ Hsame1 (sameBoard_trans _ _ _ Hsame2 Hsame3)) as Hsame.
  (* the accepted coordinates and their carved neighbours, on the board of [st3] *)
  destruct (accepted_neighbor st3 s1 cs Hwf3) as (Hincs & a1 & Hadj1 & Hopen1).
  { by apply (onSide_same st2), (onSide_same st1). }
  { rewrite (isValidStartEndPoint_same st1 st3); [done|].
    by apply sameBoard_trans with st2. }
  destruct (accepted_neighbor st3 s2 ce Hwf3) as (Hince & a2 & Hadj2 & Hopen2).
  { by apply (onSide_same st2). }
  { by rewrite (isValidStartEndPoint_same st2 st3). }
  (* the two writes *)
  destruct (setCell_inGrid st3 cs (wellFormed_shaped _ Hwf3) Hincs)
    as (st4 & old4 & Hset4 & Hw4 & Hh4 & _ & _ & _ & Hsh4 & Hcell4 & _).
  rewrite (bind_Ok _ _ _ _ _ Hset4).
  destruct (setCell_inGrid st4 ce Hsh4) as (st5 & old5 & Hset5 & Hw5 & Hh5 & _ & _ & _ & Hsh5 & Hcell5 & _).
  { apply inGrid_spec. apply inGrid_spec in Hince. by rewrite Hw4, Hh4. }
  rewrite (bind_Ok _ _ _ _ _ Hset5).
  assert (∀ c, openCell st3 c → openCell st5 c) as Hmono.
  { intros c Hc. unfold openCell in *. rewrite Hcell5, Hcell4.
    by destruct (decide (c = ce)), (decide (c = cs)). }
  assert (openCell st5 cs) as Hocs.
  { unfold openCell. rewrite Hcell5, Hcell4.
    destruct (decide (cs = ce)); [done|]. by rewrite decide_True. }
  assert (openCell st5 ce) as Hoce.
  { unfold openCell. by rewrite Hcell5, decide_True. }
  destruct Hsame as (Hw & Hh & Hm & _).
  exists cs, ce, st5. split; [done|]. split; [done|].
  split; [congruence|]. split; [congruence|]. split; [done|]. split; [done|].
  assert (connected st3 root) as Hconn3 by (by apply (connected_same st)).
  apply reach_trans with a1; [apply reach_step; auto|].
  apply reach_trans with a2; [|apply reach_step; auto using adjacent_sym].
  apply (reach_mono (openCell st3)); [done|].
  apply reach_trans with root; [apply reach_sym|]; by apply Hconn3.
Qed.

Lemma shaped_passable st s e c :
  shaped st → 3 ≤ height st →
  openCell st c → passable (mkMaze (mazeArray st) s e) c.
Proof.
  intros Hsh Hh Hc. pose proof (openCell_inGrid st c Hsh Hc) as [Hx Hy]%inGrid_spec.
  destruct Hsh as [Hrows Hcols].
  unfold passable, isValidMove. apply isValidCoordinate_spec. split.
  - unfold in_bounds. simpl. rewrite Hrows.
    destruct (lookup_lt_is_Some_2 (mazeArray st) 0%nat) as [row Hrow]; [lia|].
    rewrite Hrow. simpl.
    rewrite (Hcols row (list_elem_of_lookup_2 _ _ _ Hrow)). lia.
  - unfold on_wall. simpl. intros H. by apply H.
Qed.

(** [generate] returns a grid or throws the placement error; the grid it
    returns has a passable entrance and exit that a path connects. *)
Lemma generate_result w h dirs rnd :
  3 ≤ w → 3 ≤ h → dirs ≡ₚ directions0 →
  generate w h dirs rnd = Throw "Failed to create usable maze" ∨
  ∃ m, generate w h dirs rnd = Ok m ∧
       isValidMove m (getStart m) = true ∧
       isValidMove m (getEnd m) = true ∧
       reach (passable m) (getStart m) (getEnd m).
Proof.
  intros Hw Hh Hd. unfold generate, generateFrom.
  destruct (carve_spec w h dirs rnd Hw Hh Hd)
    as (root & st & Hcarve & Hwf & Hconn & Hwst & Hhst & _).
  rewrite (bind_Ok _ _ _ _ _ Hcarve).
  destruct (createStartAndEnd_spec st root Hwf Hconn)
    as [->|(s & e & st' & -> & Hsh & Hw' & Hh' & Hos & Hoe & Hreach)]; [by left|].
  right.
  assert (3 ≤ height st') as Hh3 by lia.
  pose proof (shaped_passable st' s e s Hsh Hh3 Hos) as Hps.
  pose proof (shaped_passable st' s e e Hsh Hh3 Hoe) as Hpe.
  exists (mkMaze (mazeArray st') s e). split.
  - unfold create. unfold passable, isValidMove in Hps. simpl in Hps.
    by rewrite Hps.
  - split; [done|]. split; [done|]. simpl.
    apply (reach_mono (openCell st')); [|done].
    intros c. by apply shaped_passable.
Qed.
End Generate.

(** * Properties of the generator *)

Section GeneratorClaims.
Import MazeGenerator.

(** C2. For odd width and height of at least 3 (and the shared [directions]
    array holding the four directions in some order), a grid that
    [generate] returns has its entrance and its exit on passable cells, and
    a 4-connected path of passable cells leads from the entrance to the
    exit and back. *)
Theorem generate_connects w h dirs rnd m :
  Z.odd w = true → Z.odd h = true → 3 ≤ w → 3 ≤ h →
  dirs ≡ₚ directions0 →
  generate w h dirs rnd = Ok m →
  isValidMove m (getStart m) = true ∧
  isValidMove m (getEnd m) = true ∧
  reach (passable m) (getStart m) (getEnd m) ∧
  reach (passable m) (getEnd m) (getStart m).
Proof.
  intros _ _ Hw Hh Hd Hm.
  destruct (generate_result w h dirs rnd Hw Hh Hd)
    as [Hthrow|(m' & Hm' & Hs & He & Hreach)]; [congruence|].
  assert (m' = m) by congruence. subst m'.
  split; [done|]. split; [done|]. split; [done|]. by apply reach_sym.
Qed.

Lemma generate_connects_witness :
  isValidMove generated3 (getStart generated3) = true ∧
  isValidMove generated3 (getEnd generated3) = true ∧
  reach (passable generated3) (getStart generated3) (getEnd generated3) ∧
  reach (passable generated3) (getEnd generated3) (getStart generated3).
Proof.
  apply (generate_connects 3 3 directions0 (tape [])).
  - reflexivity.
  - reflexivity.
  - lia.
  - lia.
  - reflexivity.
  - vm_compute. reflexivity.
Defined.


End GeneratorClaims.

(** * More about the priority queue *)

Lemma insertEntry_Permutation e l : insertEntry e l ≡ₚ e :: l.
Proof.
  induction l as [|a l IH]; simpl; [done|].
  destruct (e.2 <=? a.2); [done|]. rewrite IH. apply Permutation_swap.
Qed.

Lemma sortEntries_Permutation l : sortEntries l ≡ₚ l.
Proof.
  induction l as [|a l IH]; simpl; [done|].
  by rewrite insertEntry_Permutation, IH.
Qed.

(** X1. [enqueue] keeps every entry, adds the new one, and leaves the array
    ordered by priority, whatever the order of the array it is given. *)
Theorem enqueue_sorts q c p :
  enqueue q c p ≡ₚ (c, p) :: q ∧ StronglySorted byPriority (enqueue q c p).
Proof.
  split; [|apply sorted_enqueue].
  unfold enqueue. rewrite sortEntries_Permutation.
  by rewrite Permutation_app_comm.
Qed.

Lemma insertEntry_head b l : Forall (byPriority b) l → insertEntry b l = b :: l.
Proof.
  destruct l as [|a l]; simpl; [done|]. intros [Hba _]%Forall_cons.
  by rewrite (proj2 (Z.leb_le _ _) Hba).
Qed.

Lemma sortEntries_greater l c p :
  StronglySorted byPriority l → Forall (λ e, p < e.2) l →
  sortEntries (l ++ [(c, p)]) = (c, p) :: l.
Proof.
  induction 1 as [|b l Hl IH Hb]; intros H2; [done|].
  apply Forall_cons in H2 as [Hpb H2]. simpl. rewrite (IH H2). simpl.
  rewrite (proj2 (Z.leb_gt _ _) Hpb). by rewrite insertEntry_head.
Qed.

Lemma sortEntries_snoc l1 l2 c p :
  StronglySorted byPriority (l1 ++ l2) →
  Forall (λ e, e.2 ≤ p) l1 → Forall (λ e, p < e.2) l2 →
  sortEntries (l1 ++ l2 ++ [(c, p)]) = l1 ++ (c, p) :: l2.
Proof.
  induction l1 as [|a l1 IH]; intros Hs H1 H2.
  - by apply sortEntries_greater.
  - simpl in Hs. inversion Hs as [|?? Hs' Ha]; subst.
    apply Forall_cons in H1 as [Hap H1].
    simpl. rewrite (IH Hs' H1 H2). apply insertEntry_head.
    apply Forall_app in Ha as [Ha1 Ha2].
    apply Forall_app. split; [done|]. by constructor.
Qed.

Lemma sorted_split p q :
  StronglySorted byPriority q →
  ∃ l1 l2, q = l1 ++ l2 ∧ Forall (λ e, e.2 ≤ p) l1 ∧ Forall (λ e, p < e.2) l2.
Proof.
  induction 1 as [|a q Hq IH Ha].
  - exists [], []. by repeat split.
  - destruct (decide (a.2 ≤ p)) as [Hle|Hgt].
    + destruct IH as (l1 & l2 & -> & H1 & H2).
      exists (a :: l1), l2. split; [done|]. split; [by constructor|done].
    + exists [], (a :: q). split; [done|]. split; [done|].
      constructor; [lia|]. eapply Forall_impl; [exact Ha|].
      unfold byPriority. intros; lia.
Qed.

(** X2. On an ordered array [enqueue] leaves the entries in their order
    and puts the new entry behind all entries of the same or a smaller
    priority and before all entries of a greater one: among entries of equal
    priority the queue is first in, first out. *)
Theorem enqueue_first_in_first_out q c p :
  StronglySorted byPriority q →
  ∃ l1 l2, q = l1 ++ l2 ∧
           enqueue q c p = l1 ++ (c, p) :: l2 ∧
           Forall (λ e, e.2 ≤ p) l1 ∧ Forall (λ e, p < e.2) l2.
Proof.
  intros Hq. destruct (sorted_split p q Hq) as (l1 & l2 & -> & H1 & H2).
  exists l1, l2. split; [done|]. split; [|done].
  unfold enqueue. rewrite <- app_assoc. by apply sortEntries_snoc.
Qed.

Lemma enqueue_first_in_first_out_witness :
  ∃ l1 l2, [(mkCoordinate 0 0, 1); (mkCoordinate 1 0, 2); (mkCoordinate 2 0, 3)]
           = l1 ++ l2 ∧
           enqueue [(mkCoordinate 0 0, 1); (mkCoordinate 1 0, 2); (mkCoordinate 2 0, 3)]
                   (mkCoordinate 5 5) 2
           = l1 ++ (mkCoordinate 5 5, 2) :: l2 ∧
           Forall (λ e, e.2 ≤ 2) l1 ∧ Forall (λ e, 2 < e.2) l2.
Proof.
  apply enqueue_first_in_first_out.
  repeat constructor; unfold byPriority; simpl; lia.
Defined.

Lemma queueOf_sorted q : queueOf q → StronglySorted byPriority q.
Proof.
  induction 1 as [|q c p _ _|q c rest _ IH Hd].
  - constructor.
  - apply sorted_enqueue.
  - destruct q as [|e q]; [done|]. injection Hd as _ <-. by inversion IH.
Qed.

(** X3. Whatever calls of [enqueue] and [dequeue] made the queue, [dequeue]
    takes out an element whose priority is the least one in the queue, and
    answers [undefined] exactly when the queue is empty. *)
Theorem dequeue_least q :
  queueOf q →
  match dequeue q with
  | Some (c, rest) =>
    ∃ p, q = (c, p) :: rest ∧ ∀ c' p', (c', p') ∈ q → p ≤ p'
  | None => q = [] ∧ isEmpty q = true
  end.
Proof.
  intros Hq%queueOf_sorted. destruct q as [|[c p] rest]; simpl; [done|].
  exists p. split; [done|]. intros c' p' [[= -> ->]|Hin]%elem_of_cons; [lia|].
  inversion Hq as [|?? _ Hall]; subst.
  by apply (proj1 (Forall_forall _ _) Hall (c', p')).
Qed.

Lemma dequeue_least_witness :
  match dequeue (enqueue (enqueue [] (mkCoordinate 1 1) 7) (mkCoordinate 2 2) 3) with
  | Some (c, rest) =>
    ∃ p, enqueue (enqueue [] (mkCoordinate 1 1) 7) (mkCoordinate 2 2) 3 = (c, p) :: rest ∧
         ∀ c' p', (c', p') ∈ enqueue (enqueue [] (mkCoordinate 1 1) 7) (mkCoordinate 2 2) 3 →
                  p ≤ p'
  | None => enqueue (enqueue [] (mkCoordinate 1 1) 7) (mkCoordinate 2 2) 3 = [] ∧
            isEmpty (enqueue (enqueue [] (mkCoordinate 1 1) 7) (mkCoordinate 2 2) 3) = true
  end.
Proof.
  apply dequeue_least. apply queueOf_enqueue, queueOf_enqueue, queueOf_new.
Defined.

(** * More about the solver *)

(** X4. [coordinateToString] gives two coordinates the same key only if they
    are the same coordinate: the maps keyed by it never mix up two cells. *)
Theorem coordinate_keys_distinct a b :
  coordinateToString a = coordinateToString b ↔ a = b.
Proof. split; [apply coordinateToString_inj|by intros ->]. Qed.

(** X5. [heuristic] is a metric on coordinates: never negative, zero only
    between a coordinate and itself, symmetric, with the triangle inequality;
    and two coordinates are one step apart exactly when it is 1. *)
Theorem heuristic_metric :
  (∀ a b, 0 ≤ heuristic a b ∧ heuristic a b = heuristic b a ∧
          (heuristic a b = 0 ↔ a = b)) ∧
  (∀ a b c, heuristic a c ≤ heuristic a b + heuristic b c) ∧
  (∀ a b, adjacent a b ↔ heuristic a b = 1).
Proof.
  split; [|split].
  - intros [ax ay] [bx by_]. unfold heuristic; simpl. split; [lia|]. split; [lia|].
    split; [intros ?; f_equal; lia|intros [= -> ->]; lia].
  - intros a b c. unfold heuristic. lia.
  - intros a b. unfold adjacent, heuristic. lia.
Qed.

(** ** Shortest paths visit no cell twice *)

Lemma walk_suffix ok a l1 c l2 b :
  walk ok a (l1 ++ c :: l2) b → walk ok c (c :: l2) b.
Proof.
  revert a. induction l1 as [|a' l1 IH]; intros a Hw; simpl in Hw.
  - pose proof (walk_head _ _ _ _ Hw) as Hh. simpl in Hh. by injection Hh as ->.
  - inversion Hw as [|? b' ? ? _ _ Hw']; subst.
    + by destruct l1.
    + by eapply IH.
Qed.

Lemma walk_shortcut ok a l b :
  walk ok a l b → ¬ NoDup l → ∃ l', walk ok a l' b ∧ (length l' < length l)%nat.
Proof.
  induction 1 as [a Ha|a b' l c Ha Hab Hw IH]; intros Hdup.
  - destruct Hdup. apply NoDup_singleton.
  - destruct (decide (a ∈ l)) as [Hin|Hnin].
    + apply list_elem_of_split in Hin as (l1 & l2 & ->).
      exists (a :: l2). split; [by eapply walk_suffix|].
      simpl. rewrite length_app. simpl. lia.
    + destruct (decide (NoDup l)) as [Hnd|Hnd].
      * destruct Hdup. by constructor.
      * destruct (IH Hnd) as (l' & Hw' & Hlen).
        exists (a :: l'). split; [by eapply walk_step|]. simpl. lia.
Qed.

(** X6. On a validly constructed grid a path that [findPath] returns visits no
    coordinate twice; its number of moves is at least the Manhattan distance
    from the entrance to the exit and less than the number of cells of the
    board. *)
Theorem findPath_path_simple m p :
  constructed m →
  findPath m = Ok (Some p) →
  NoDup p ∧
  heuristic (getStart m) (getEnd m) ≤ moves p ∧
  moves p < Z.of_nat (cellCount m).
Proof.
  intros Hm Hp.
  destruct (findPathTrace_result m (constructed_start m Hm)) as (r & st & Htrace & Hr).
  apply findPath_trace in Hp as [st' Hp]. rewrite Hp in Htrace.
  injection Htrace as <- _. destruct Hr as [Hsol Hmin].
  assert (NoDup p) as Hnd.
  { destruct (decide (NoDup p)) as [|Hdup]; [done|].
    destruct (walk_shortcut _ _ _ _ Hsol Hdup) as (l' & Hw' & Hlen).
    specialize (Hmin l' Hw'). unfold moves in Hmin. lia. }
  split; [done|]. split; [by eapply heuristic_admissible|].
  assert (length p ≤ cellCount m)%nat; [|unfold moves; lia].
  rewrite <- length_allCells. apply submseteq_length, NoDup_submseteq; [done|].
  intros c Hc. apply passable_allCells.
  by apply (proj1 (Forall_forall _ _) (walk_Forall _ _ _ _ Hsol)).
Qed.

Lemma findPath_path_simple_witness :
  let p := [mkCoordinate 0 0; mkCoordinate 1 0; mkCoordinate 1 1] in
  NoDup p ∧
  heuristic (getStart bendMaze) (getEnd bendMaze) ≤ moves p ∧
  moves p < Z.of_nat (cellCount bendMaze).
Proof.
  apply findPath_path_simple.
  - exists (getMazeArray bendMaze), (getStart bendMaze), (getEnd bendMaze).
    reflexivity.
  - vm_compute. reflexivity.
Defined.

(** ** The scores in the state [findPath] ends in *)

Section Scores.
Variable maze : Maze.

Lemma fScoreConsistent_improved cur n t st :
  fScoreConsistent maze st →
  fScoreConsistent maze (improved (getEnd maze) cur n t st).
Proof.
  intros [Hdom Hval]. split.
  - intros k. simpl. destruct (decide (coordinateToString n = k)) as [<-|Hne].
    + by rewrite !lookup_insert_eq.
    + rewrite !lookup_insert_ne by done. apply Hdom.
  - intros c g. rewrite gOf_improved. simpl. case_decide as Hc.
    + intros [= <-]. subst c. by rewrite lookup_insert_eq.
    + intros Hg. rewrite lookup_insert_ne by (by apply key_ne, not_eq_sym).
      by apply Hval.
Qed.

Lemma visitNeighbor_fScore cur st n st' :
  fScoreConsistent maze st →
  visitNeighbor maze (getEnd maze) cur st n = Ok st' →
  fScoreConsistent maze st'.
Proof.
  intros Hst. unfold visitNeighbor.
  destruct (isValidMove maze n); simpl; [|by intros [= <-]].
  destruct (gScore st !! coordinateToString cur) as [gc|]; [|done].
  match goal with |- (if ?b then _ else _) = _ → _ => destruct b end.
  - intros [= <-]. by apply (fScoreConsistent_improved cur n (gc + 1) st).
  - by intros [= <-].
Qed.

Lemma visitNeighbors_fScore cur ns : ∀ st st',
  fScoreConsistent maze st →
  visitNeighbors maze (getEnd maze) cur st ns = Ok st' →
  fScoreConsistent maze st'.
Proof.
  induction ns as [|n ns IH]; intros st st' Hst; simpl.
  - by intros [= <-].
  - destruct (visitNeighbor maze (getEnd maze) cur st n) as [st1| | |] eqn:Hn;
      simpl; try done.
    apply IH. by eapply visitNeighbor_fScore.
Qed.

Lemma whileBody_fScore st r :
  fScoreConsistent maze st → whileBody maze st = Ok r →
  fScoreConsistent maze (roundState r).
Proof.
  intros Hst. unfold whileBody.
  destruct (isEmpty (openSet st)); [by intros [= <-]|].
  destruct (dequeue (openSet st)) as [[cur rest]|]; [|done].
  destruct ((x cur =? x (getEnd maze)) && (y cur =? y (getEnd maze))).
  - destruct (buildPath _ cur) as [p| | |]; simpl; try done. by intros [= <-].
  - destruct (visitNeighbors _ _ _ _ _) as [st1| | |] eqn:Hv; simpl; try done.
    intros [= <-]. simpl.
    assert (fScoreConsistent maze (dequeued rest st)) as Hst' by exact Hst.
    by apply (visitNeighbors_fScore _ _ _ _ Hst') in Hv.
Qed.

Lemma whileOpen_fScore fuel : ∀ st r st',
  fScoreConsistent maze st → whileOpen fuel maze st = Ok (r, st') →
  fScoreConsistent maze st'.
Proof.
  induction fuel as [|fuel IH]; intros st r st' Hst; simpl; [done|].
  destruct (whileBody maze st) as [rd| | |] eqn:Hbody; simpl; try done.
  pose proof (whileBody_fScore st rd Hst Hbody) as Hrd.
  destruct rd as [res st1|st1]; simpl in *.
  - by intros [= _ <-].
  - by apply IH.
Qed.

Lemma fScoreConsistent_initial : fScoreConsistent maze (initialSearch maze).
Proof.
  split.
  - intros k. simpl.
    destruct (decide (coordinateToString (getStart maze) = k)) as [<-|Hne].
    + by rewrite !lookup_insert_eq.
    + by rewrite !lookup_insert_ne, !lookup_empty.
  - intros c g [-> ->]%gOf_initial. simpl. by rewrite lookup_insert_eq.
Qed.
End Scores.

(** X7. [fScore] is kept in step with [gScore]: in the state [findPath] ends
    in, both maps hold the same keys and the [fScore] of every cell is its
    [gScore] plus the heuristic to the exit. *)
Theorem findPath_fScore maze :
  match findPathTrace maze with
  | Ok (_, st) => fScoreConsistent maze st
  | _ => True
  end.
Proof.
  destruct (findPathTrace maze) as [[r st]| | |] eqn:Htrace; [|done..].
  apply (whileOpen_fScore maze _ _ _ _ (fScoreConsistent_initial maze) Htrace).
Qed.

Section FinalState.
Variable maze : Maze.

Lemma whileBody_sound st r :
  sound maze st → frontier maze st None [] → whileBody maze st = Ok r →
  sound maze (roundState r).
Proof.
  intros Hs Hf. unfold whileBody, isEmpty.
  destruct (openSet st) as [|[cur p0] rest] eqn:Hq.
  - simpl. by intros [= <-].
  - rewrite bool_decide_eq_false_2 by done. cbn [dequeue fst].
    change (mkSearch rest (parentMap st) (gScore st) (fScore st))
      with (dequeued rest st).
    pose proof (sound_dequeued maze st cur p0 rest Hs Hq) as Hs1.
    destruct ((x cur =? x (getEnd maze)) && (y cur =? y (getEnd maze))) eqn:Hend.
    + destruct (buildPath _ cur) as [p| | |]; simpl; try done. by intros [= <-].
    + assert (cur ≠ getEnd maze) as Hne.
      { intros ->. rewrite (proj2 (same_coordinate _ _)) in Hend; done. }
      pose proof (frontier_dequeued maze st cur p0 rest Hs Hf Hq Hne) as Hf1.
      destruct (visitNeighbors_steps maze (getNeighbors cur) _ cur [] Hs1 Hf1)
        as (st' & Hv & Hs' & _).
      { intros n. apply adjacent_getNeighbors. }
      rewrite Hv. simpl. by intros [= <-].
Qed.

Lemma whileOpen_sound fuel : ∀ st r st',
  sound maze st → frontier maze st None [] →
  whileOpen fuel maze st = Ok (r, st') → sound maze st'.
Proof.
  induction fuel as [|fuel IH]; intros st r st' Hs Hf; simpl; [done|].
  destruct (whileBody_round maze st Hs Hf) as (rd & Hbody & Hrd).
  pose proof (whileBody_sound st rd Hs Hf Hbody) as Hsrd.
  rewrite Hbody. simpl. destruct rd as [res st1|st1]; simpl in *.
  - by intros [= _ <-].
  - destruct Hrd as (_ & Hf1 & _). by apply IH.
Qed.
End FinalState.

(** X8. The scores never promise too much: on a validly constructed grid, in
    the state [findPath] ends in, every cell with a [gScore] is passable and
    a path of passable cells leads from the entrance to it in at most that
    many moves. *)
Theorem findPath_scores_reached m :
  constructed m →
  match findPathTrace m with
  | Ok (_, st) =>
    ∀ c g, gOf st c = Some g →
           isValidMove m c = true ∧
           ∃ l, walk (passable m) (getStart m) l c ∧ moves l ≤ g
  | _ => True
  end.
Proof.
  intros Hm. pose proof (constructed_start m Hm) as Hstart.
  destruct (findPathTrace m) as [[r st]| | |] eqn:Htrace; [|done..].
  pose proof (whileOpen_sound m _ _ _ _ (sound_initial m Hstart)
                (frontier_initial m) Htrace) as Hs.
  intros c g Hg. split; [by eapply sound_passable|].
  destruct (buildPath_walk m st c g Hs Hg) as (l & _ & Hw & Hmoves). eauto.
Qed.

Lemma findPath_scores_reached_witness :
  match findPathTrace bendMaze with
  | Ok (_, st) =>
    ∀ c g, gOf st c = Some g →
           isValidMove bendMaze c = true ∧
           ∃ l, walk (passable bendMaze) (getStart bendMaze) l c ∧ moves l ≤ g
  | _ => True
  end.
Proof.
  apply findPath_scores_reached.
  exists (getMazeArray bendMaze), (getStart bendMaze), (getEnd bendMaze).
  reflexivity.
Defined.

(** X9. The solver always finds its way through a generated maze: for a width
    and a height of at least 3, on a grid that [generate] returns [findPath]
    returns a path from the entrance to the exit, never [null], and no path
    between them has fewer moves. *)
Theorem generated_maze_solved w h dirs rnd m :
  3 ≤ w → 3 ≤ h → dirs ≡ₚ MazeGenerator.directions0 →
  MazeGenerator.generate w h dirs rnd = Ok m →
  ∃ p, findPath m = Ok (Some p) ∧ solution m p ∧
       ∀ q, solution m q → moves p ≤ moves q.
Proof.
  intros Hw Hh Hd Hm.
  destruct (generate_result w h dirs rnd Hw Hh Hd)
    as [Hthrow|(m' & Hm' & Hs & _ & [q Hq])]; [congruence|].
  assert (m' = m) by congruence. subst m'.
  destruct (findPathTrace_result m Hs) as (r & st & Htrace & Hr).
  destruct r as [p|].
  - exists p. split; [apply findPath_trace; eauto|done].
  - destruct Hr as [_ Hno]. by destruct (Hno q).
Qed.

Lemma generated_maze_solved_witness :
  ∃ p, findPath generated3 = Ok (Some p) ∧ solution generated3 p ∧
       ∀ q, solution generated3 q → moves p ≤ moves q.
Proof.
  apply (generated_maze_solved 3 3 MazeGenerator.directions0 (tape [])).
  - lia.
  - lia.
  - reflexivity.
  - vm_compute. reflexivity.
Defined.

(** * More about the generator *)

Section Shuffle.
Import MazeGenerator.

Lemma shuffleFrom_draws i : ∀ st,
  (i < length (directions st))%nat →
  ∃ st', shuffleFrom i st = Ok (tt, st') ∧
         directions st' ≡ₚ directions st ∧
         draws st' = (draws st + i)%nat ∧
         width st' = width st ∧ height st' = height st ∧
         mazeArray st' = mazeArray st ∧ random st' = random st.
Proof.
  induction i as [|i IH]; intros st Hi.
  - exists st. split; [done|]. split; [done|]. split; [lia|done].
  - cbn [shuffleFrom].
    destruct (randomBelow_spec (Z.of_nat (S i) + 1) st) as (j & Hj & Hpos & _).
    rewrite (bind_Ok _ _ _ _ _ Hj).
    rewrite (bind_Ok get _ _ _ _ eq_refl). cbn [directions].
    destruct (lookup_lt_is_Some_2 (directions st) (S i) Hi) as [di Hdi].
    destruct (lookup_lt_is_Some_2 (directions st) (Z.to_nat j)) as [dj Hdj]; [lia|].
    rewrite Hdi, Hdj.
    rewrite (bind_Ok _ _ _ tt _ eq_refl).
    match goal with |- ∃ st', shuffleFrom i ?s = _ ∧ _ =>
      destruct (IH s) as (st' & Hst' & Hp & Hdr & ? & ? & ? & ?) end.
    { simpl. rewrite !length_insert. lia. }
    exists st'. split; [done|]. simpl in *. split.
    + rewrite Hp. by apply swap_Permutation.
    + split; [lia|done].
Qed.

(** X10. [shuffleDirections] always returns; it leaves in the shared array
    the same directions in some order, uses [Math.random] once for every
    element but the first, and touches nothing else of the generator. *)
Theorem shuffleDirections_permutes st :
  ∃ st', shuffleDirections st = Ok (tt, st') ∧
         directions st' ≡ₚ directions st ∧
         draws st' = (draws st + (length (directions st) - 1))%nat ∧
         width st' = width st ∧ height st' = height st ∧
         mazeArray st' = mazeArray st ∧ random st' = random st.
Proof.
  unfold shuffleDirections. rewrite (bind_Ok get _ _ _ _ eq_refl).
  destruct (directions st) as [|d ds] eqn:Hd.
  - exists st. split; [done|]. rewrite Hd. split; [done|]. split; [simpl; lia|done].
  - destruct (shuffleFrom_draws (length (d :: ds) - 1) st) as (st' & H); [rewrite Hd; simpl; lia|].
    rewrite Hd in H. by exists st'.
Qed.


End Shuffle.

Section Generated.
Import MazeGenerator.

Lemma permutation_NoDup {A} n : ∀ r (l : list A),
  (n ≤ length l)%nat → NoDup l → NoDup (permutation n r l).
Proof.
  induction n as [|n IH]; intros r l Hn Hnd; cbn [permutation].
  - constructor.
  - destruct (lookup_lt_is_Some_2 l (r mod length l)%nat) as [a Ha].
    { apply Nat.mod_upper_bound. lia. }
    rewrite Ha. pose proof (delete_Permutation _ _ _ Ha) as Hp.
    rewrite Hp in Hnd. apply NoDup_cons in Hnd as [Hnin Hnd'].
    destruct (permutation_spec n (r / length l)%nat (delete (r mod length l)%nat l))
      as [_ Hin].
    { rewrite length_delete by eauto. lia. }
    constructor.
    + intros Hmem. by apply Hnin, Hin.
    + apply IH; [|done]. rewrite length_delete by eauto. lia.
Qed.

(** What [createStartAndEnd] returns, in full. *)
Lemma createStartAndEnd_full st :
  wellFormed st →
  createStartAndEnd st = Throw "Failed to create usable maze" ∨
  ∃ s e st' s1 s2,
    createStartAndEnd st = Ok ((s, e), st') ∧
    s1 ∈ sides ∧ s2 ∈ sides ∧ s1 ≠ s2 ∧
    onSide st s1 s ∧ onSide st s2 e ∧
    isValidStartEndPoint st s = true ∧ isValidStartEndPoint st e = true ∧
    shaped st' ∧ width st' = width st ∧ height st' = height st ∧
    (∀ c, cellAt (mazeArray st') (x c) (y c)
          = if decide (c = e) then Some 0
            else if decide (c = s) then Some 0
            else cellAt (mazeArray st) (x c) (y c)).
Proof.
  intros Hwf. unfold createStartAndEnd.
  rewrite (bind_Ok (sortAtRandom _) _ st _ _ eq_refl). cbv beta.
  set (st1 := mkState (width st) (height st) (mazeArray st) (directions st)
                      (random st) (S (draws st))).
  assert (sameBoard st st1) as Hsame1 by apply sameBoard_drawn.
  destruct (permutation_spec 4 (random st (draws st)) ["top"; "right"; "bottom"; "left"])
    as [Hlen Hin]; [simpl; lia|].
  assert (NoDup (permutation 4 (random st (draws st)) ["top"; "right"; "bottom"; "left"]))
    as Hnd.
  { apply permutation_NoDup; [simpl; lia|].
    repeat (constructor; [rewrite ?elem_of_cons, ?elem_of_nil; intros H; intuition discriminate|]).
    constructor. }
  change (length ["top"; "right"; "bottom"; "left"]) with 4%nat.
  destruct (permutation 4 (random st (draws st)) ["top"; "right"; "bottom"; "left"])
    as [|s1 [|s2 rest]]; [done..|].
  change (take 2 (s1 :: s2 :: rest)) with [s1; s2]. cbv beta iota.
  assert (s1 ∈ sides) as Hs1 by (apply Hin; apply list_elem_of_here).
  assert (s2 ∈ sides) as Hs2
    by (apply Hin; apply list_elem_of_further, list_elem_of_here).
  assert (s1 ≠ s2) as Hs12.
  { apply NoDup_cons in Hnd as [Hnin _]. intros ->. apply Hnin, list_elem_of_here. }
  pose proof (wellFormed_sameBoard _ _ Hsame1 Hwf) as Hwf1.
  destruct (createStartAndEndCoordinate_spec s1 st1 Hs1 (wf_width _ Hwf1) (wf_height _ Hwf1))
    as [Hthrow|(cs & st2 & Hcs & Hsame2 & Hon1 & Hacc1)].
  { left. by apply bind_Throw. }
  rewrite (bind_Ok _ _ _ _ _ Hcs).
  pose proof (wellFormed_sameBoard _ _ Hsame2 Hwf1) as Hwf2.
  destruct (createStartAndEndCoordinate_spec s2 st2 Hs2 (wf_width _ Hwf2) (wf_height _ Hwf2))
    as [Hthrow|(ce & st3 & Hce & Hsame3 & Hon2 & Hacc2)].
  { left. by apply bind_Throw. }
  rewrite (bind_Ok _ _ _ _ _ Hce). right.
  pose proof (wellFormed_sameBoard _ _ Hsame3 Hwf2) as Hwf3.
  pose proof (sameBoard_trans _ _ _ Hsame1 (sameBoard_trans _ _ _ Hsame2 Hsame3)) as Hsame.
  destruct (accepted_neighbor st3 s1 cs Hwf3) as (Hincs & _).
  { by apply (onSide_same st2), (onSide_same st1). }
  { rewrite (isValidStartEndPoint_same st1 st3); [done|].
    by apply sameBoard_trans with st2. }
  destruct (accepted_neighbor st3 s2 ce Hwf3) as (Hince & _).
  { by apply (onSide_same st2). }
  { by rewrite (isValidStartEndPoint_same st2 st3). }
  destruct (setCell_inGrid st3 cs (wellFormed_shaped _ Hwf3) Hincs)
    as (st4 & old4 & Hset4 & Hw4 & Hh4 & _ & _ & _ & Hsh4 & Hcell4 & _).
  rewrite (bind_Ok _ _ _ _ _ Hset4).
  destruct (setCell_inGrid st4 ce Hsh4)
    as (st5 & old5 & Hset5 & Hw5 & Hh5 & _ & _ & _ & Hsh5 & Hcell5 & _).
  { apply inGrid_spec. apply inGrid_spec in Hince. by rewrite Hw4, Hh4. }
  rewrite (bind_Ok _ _ _ _ _ Hset5).
  destruct Hsame as (Hw & Hh & Hm & Hd & Hr).
  exists cs, ce, st5, s1, s2. split; [done|].
  split; [done|]. split; [done|]. split; [done|].
  split.
  { destruct Hsame1 as (Hw1 & Hh1 & _). unfold onSide in *. by rewrite <- Hw1, <- Hh1. }
  split.
  { destruct (sameBoard_trans _ _ _ Hsame1 Hsame2) as (Hw2 & Hh2 & _).
    unfold onSide in *. by rewrite <- Hw2, <- Hh2. }
  split; [by rewrite <- (isValidStartEndPoint_same st st1)|].
  split.
  { rewrite <- (isValidStartEndPoint_same st st2); [done|].
    by apply sameBoard_trans with st1. }
  split; [done|]. split; [congruence|]. split; [congruence|].
  intros c. rewrite Hcell5, Hcell4, Hm. done.
Qed.
End Generated.

Section GeneratedGrid.
Import MazeGenerator.

Lemma onSide_distinct w h s1 s2 a b :
  3 ≤ w → 3 ≤ h → s1 ≠ s2 → onSideOf w h s1 a → onSideOf w h s2 b → a ≠ b.
Proof.
  intros Hw Hh Hne Ha Hb ->. unfold onSideOf in *.
  destruct Ha as [(-> & ?)|[(-> & ?)|[(-> & ?)|(-> & ?)]]];
    destruct Hb as [(-> & ?)|[(-> & ?)|[(-> & ?)|(-> & ?)]]];
    (done || lia).
Qed.

(** What [generate] returns, in full. *)
Lemma generate_full w h dirs rnd :
  3 ≤ w → 3 ≤ h → dirs ≡ₚ directions0 →
  generate w h dirs rnd = Throw "Failed to create usable maze" ∨
  ∃ st s e st' s1 s2,
    carved w h dirs rnd = Ok st ∧
    generate w h dirs rnd = Ok (mkMaze (mazeArray st') s e) ∧
    wellFormed st ∧ width st = w ∧ height st = h ∧
    s1 ∈ sides ∧ s2 ∈ sides ∧ s1 ≠ s2 ∧
    onSideOf w h s1 s ∧ onSideOf w h s2 e ∧
    isValidStartEndPoint st s = true ∧ isValidStartEndPoint st e = true ∧
    shaped st' ∧ width st' = w ∧ height st' = h ∧
    (∀ c, cellAt (mazeArray st') (x c) (y c)
          = if decide (c = e) then Some 0
            else if decide (c = s) then Some 0
            else cellAt (mazeArray st) (x c) (y c)).
Proof.
  intros Hw Hh Hd. unfold generate, generateFrom, carved.
  destruct (carve_spec w h dirs rnd Hw Hh Hd)
    as (root & st & Hcarve & Hwf & Hconn & Hwst & Hhst & _).
  rewrite (bind_Ok _ _ _ _ _ Hcarve). rewrite Hcarve.
  destruct (createStartAndEnd_full st Hwf)
    as [->|(s & e & st' & s1 & s2 & -> & Hs1 & Hs2 & Hne & Hon1 & Hon2 & Hacc1 & Hacc2
            & Hsh & Hw' & Hh' & Hcell)]; [by left|].
  right. exists st, s, e, st', s1, s2. split; [done|].
  assert (openCell st' s) as Hos.
  { unfold openCell. rewrite Hcell. by destruct (decide (s = e)); [|rewrite decide_True]. }
  split.
  { assert (3 ≤ height st') as Hh3 by lia.
    pose proof (shaped_passable st' s e s Hsh Hh3 Hos) as Hps.
    unfold create. unfold passable, isValidMove in Hps. simpl in Hps. by rewrite Hps. }
  split; [done|]. split; [done|]. split; [done|].
  split; [done|]. split; [done|]. split; [done|].
  unfold onSide in Hon1, Hon2. rewrite Hwst, Hhst in Hon1, Hon2.
  split; [done|]. split; [done|]. split; [done|]. split; [done|].
  split; [done|]. split; [congruence|]. split; [congruence|done].
Qed.

(** X12. The grid that [generate] returns for a width [w] and a height [h]
    of at least 3 is a rectangular board of [h] rows of [w] cells holding
    only 0 and 1, and its outer ring is all walls but for the entrance and
    the exit. *)
Theorem generate_shape w h dirs rnd m :
  3 ≤ w → 3 ≤ h → dirs ≡ₚ directions0 →
  generate w h dirs rnd = Ok m →
  length (getMazeArray m) = Z.to_nat h ∧
  (∀ row, row ∈ getMazeArray m → length row = Z.to_nat w) ∧
  rectangular (getMazeArray m) = true ∧
  (∀ c v, cellAt (getMazeArray m) (x c) (y c) = Some v → v = 0 ∨ v = 1) ∧
  (∀ c, onRing w h c → c ≠ getStart m → c ≠ getEnd m →
        cellAt (getMazeArray m) (x c) (y c) = Some 1).
Proof.
  intros Hw Hh Hd Hm.
  destruct (generate_full w h dirs rnd Hw Hh Hd)
    as [Hthrow|(st & s & e & st' & s1 & s2 & _ & Hm' & Hwf & Hwst & Hhst & _ & _ & _
                & _ & _ & _ & _ & [Hrows Hcols] & Hw' & Hh' & Hcell)]; [congruence|].
  rewrite Hm in Hm'. injection Hm' as ->. simpl.
  rewrite Hw' in Hcols. rewrite Hh' in Hrows.
  split; [done|]. split; [done|]. split; [|split].
  - unfold rectangular. apply forallb_forall. intros row Hrow%list_elem_of_In.
    apply bool_decide_eq_true.
    destruct (lookup_lt_is_Some_2 (mazeArray st') 0%nat) as [row0 Hrow0]; [lia|].
    rewrite Hrow0. simpl.
    rewrite (Hcols row Hrow), (Hcols row0 (list_elem_of_lookup_2 _ _ _ Hrow0)). done.
  - intros c v. rewrite Hcell.
    destruct (decide (c = e)); [intros [= <-]; by left|].
    destruct (decide (c = s)); [intros [= <-]; by left|].
    apply (wf_cells _ Hwf).
  - intros c (Hx & Hy & Hring) Hcs Hce. rewrite Hcell.
    rewrite decide_False by done. rewrite decide_False by done.
    apply (wf_border _ Hwf).
    + apply inGrid_spec. lia.
    + unfold interior. lia.
Qed.

Lemma generate_shape_witness :
  length (getMazeArray generated3) = Z.to_nat 3 ∧
  (∀ row, row ∈ getMazeArray generated3 → length row = Z.to_nat 3) ∧
  rectangular (getMazeArray generated3) = true ∧
  (∀ c v, cellAt (getMazeArray generated3) (x c) (y c) = Some v → v = 0 ∨ v = 1) ∧
  (∀ c, onRing 3 3 c → c ≠ getStart generated3 → c ≠ getEnd generated3 →
        cellAt (getMazeArray generated3) (x c) (y c) = Some 1).
Proof.
  apply (generate_shape 3 3 directions0 (tape [])).
  - lia.
  - lia.
  - reflexivity.
  - vm_compute. reflexivity.
Defined.

(** X13. The entrance and the exit of a grid that [generate] returns lie on
    two different sides of the board, neither on a corner, so they are two
    different cells; both passed the acceptance test on the carved board,
    and but for these two cells the grid is the carved board. *)
Theorem generate_entrance_exit w h dirs rnd m :
  3 ≤ w → 3 ≤ h → dirs ≡ₚ directions0 →
  generate w h dirs rnd = Ok m →
  ∃ st s1 s2,
    carved w h dirs rnd = Ok st ∧
    s1 ∈ sides ∧ s2 ∈ sides ∧ s1 ≠ s2 ∧
    onSideOf w h s1 (getStart m) ∧ onSideOf w h s2 (getEnd m) ∧
    getStart m ≠ getEnd m ∧
    isValidStartEndPoint st (getStart m) = true ∧
    isValidStartEndPoint st (getEnd m) = true ∧
    (∀ c, c ≠ getStart m → c ≠ getEnd m →
          cellAt (getMazeArray m) (x c) (y c) = cellAt (mazeArray st) (x c) (y c)).
Proof.
  intros Hw Hh Hd Hm.
  destruct (generate_full w h dirs rnd Hw Hh Hd)
    as [Hthrow|(st & s & e & st' & s1 & s2 & Hcarved & Hm' & _ & _ & _ & Hs1 & Hs2 & Hne
                & Hon1 & Hon2 & Hacc1 & Hacc2 & _ & _ & _ & Hcell)]; [congruence|].
  rewrite Hm in Hm'. injection Hm' as ->. simpl.
  exists st, s1, s2. split; [done|]. split; [done|]. split; [done|].
  split; [done|]. split; [done|]. split; [done|].
  split; [by apply (onSide_distinct w h s1 s2)|].
  split; [done|]. split; [done|].
  intros c Hcs Hce. rewrite Hcell. by rewrite !decide_False.
Qed.

Lemma generate_entrance_exit_witness :
  ∃ st s1 s2,
    carved 3 3 directions0 (tape []) = Ok st ∧
    s1 ∈ sides ∧ s2 ∈ sides ∧ s1 ≠ s2 ∧
    onSideOf 3 3 s1 (getStart generated3) ∧ onSideOf 3 3 s2 (getEnd generated3) ∧
    getStart generated3 ≠ getEnd generated3 ∧
    isValidStartEndPoint st (getStart generated3) = true ∧
    isValidStartEndPoint st (getEnd generated3) = true ∧
    (∀ c, c ≠ getStart generated3 → c ≠ getEnd generated3 →
          cellAt (getMazeArray generated3) (x c) (y c)
          = cellAt (mazeArray st) (x c) (y c)).
Proof.
  apply (generate_entrance_exit 3 3 directions0 (tape [])).
  - lia.
  - lia.
  - reflexivity.
  - vm_compute. reflexivity.
Defined.
End GeneratedGrid.

(** * The compiled generator *)

Section Dist.
Import MazeGenerator.

(** On a carved board the earlier acceptance test turns down every cell of
    a side: the neighbour outside of the board and the two neighbours on
    the ring count as walls. *)
Lemma dist_isValidStartEndPoint_rejects st side c :
  wellFormed st → onSide st side c →
  DistGenerator.isValidStartEndPoint c st = Ok (false, st).
Proof.
  intros Hwf Hon.
  pose proof (wf_width _ Hwf) as Hw. pose proof (wf_height _ Hwf) as Hh.
  pose proof (wf_rows _ Hwf) as Hrows.
  assert (∀ cx cy, 0 ≤ cx < width st → 0 ≤ cy < height st →
                   cx = 0 ∨ cx = width st - 1 ∨ cy = 0 ∨ cy = height st - 1 →
                   default 1 (cellAt (mazeArray st) cx cy) = 1) as Hring.
  { intros cx cy Hcx Hcy Hedge.
    pose proof (wf_border _ Hwf (mkCoordinate cx cy)) as Hb. simpl in Hb.
    rewrite Hb; [done| |].
    - apply inGrid_spec. simpl. lia.
    - unfold interior. simpl. lia. }
  assert (∀ cx cy, default 1 (cellAt (mazeArray st) cx cy) = 0 ∨
                   default 1 (cellAt (mazeArray st) cx cy) = 1) as Hcell.
  { intros cx cy. destruct (cellAt (mazeArray st) cx cy) as [v|] eqn:Hv; [|by right].
    apply (wf_cells _ Hwf (mkCoordinate cx cy) v Hv). }
  assert (∀ cx cy, cy < 0 ∨ height st ≤ cy ∨ cx < 0 ∨ width st ≤ cx →
                   default 1 (cellAt (mazeArray st) cx cy) = 1) as Hout.
  { intros cx cy Hc.
    destruct (cellAt (mazeArray st) cx cy) as [v|] eqn:Hv; [|done].
    exfalso. assert (inGrid st (mkCoordinate cx cy) = true) as Hin; [|apply inGrid_spec in Hin; simpl in Hin; lia].
    destruct (inGrid st (mkCoordinate cx cy)) eqn:Hin; [done|].
    exfalso. revert Hv. unfold cellAt.
    destruct ((0 <=? cy) && (0 <=? cx)) eqn:Hpos; [|done].
    apply andb_true_iff in Hpos as [Hy%Z.leb_le Hx%Z.leb_le].
    destruct (mazeArray st !! Z.to_nat cy) as [row|] eqn:Hrow; [|done]. simpl.
    pose proof (lookup_lt_Some _ _ _ Hrow).
    pose proof (wf_cols _ Hwf row (list_elem_of_lookup_2 _ _ _ Hrow)).
    intros Hcx. pose proof (lookup_lt_Some _ _ _ Hcx). lia. }
  unfold DistGenerator.isValidStartEndPoint.
  assert ((0 <=? y c) && (y c <? Z.of_nat (length (mazeArray st))) = true) as ->.
  { apply andb_true_iff. rewrite Z.leb_le, Z.ltb_lt, Hrows.
    unfold onSide in Hon. destruct Hon as [(_ & ? & ?)|[(_ & ? & ?)|[(_ & ? & ?)|(_ & ? & ?)]]]; lia. }
  f_equal. f_equal.
  unfold onSide in Hon.
  destruct Hon as [(_ & Hy & Hx)|[(_ & Hx & Hy)|[(_ & Hy & Hx)|(_ & Hx & Hy)]]].
  - rewrite (Hout (x c) (y c - 1)) by lia.
    rewrite (Hring (x c - 1) (y c)) by lia.
    rewrite (Hring (x c + 1) (y c)) by lia.
    by destruct (Hcell (x c) (y c + 1)) as [->| ->].
  - rewrite (Hout (x c + 1) (y c)) by lia.
    rewrite (Hring (x c) (y c - 1)) by lia.
    rewrite (Hring (x c) (y c + 1)) by lia.
    by destruct (Hcell (x c - 1) (y c)) as [->| ->].
  - rewrite (Hout (x c) (y c + 1)) by lia.
    rewrite (Hring (x c - 1) (y c)) by lia.
    rewrite (Hring (x c + 1) (y c)) by lia.
    by destruct (Hcell (x c) (y c - 1)) as [->| ->].
  - rewrite (Hout (x c - 1) (y c)) by lia.
    rewrite (Hring (x c) (y c - 1)) by lia.
    rewrite (Hring (x c) (y c + 1)) by lia.
    by destruct (Hcell (x c + 1) (y c)) as [->| ->].
Qed.

Lemma dist_placementLoop_rejects side n : ∀ loc attempts st,
  wellFormed st → side ∈ sides →
  ∃ l a st', DistGenerator.placementLoop n side loc false attempts st
             = Ok ((l, false, a), st').
Proof.
  induction n as [|n IH]; intros loc attempts st Hwf Hside.
  - by exists loc, attempts, st.
  - cbn [DistGenerator.placementLoop negb andb].
    destruct (attempts <? maxAttempts); [|by exists loc, attempts, st].
    destruct (getRandomSizeCoordinate_spec side st Hside (wf_width _ Hwf) (wf_height _ Hwf))
      as (c & Hc & Hon).
    unfold DistGenerator.getRandomSideLocation.
    rewrite (bind_Ok _ _ _ _ _ Hc).
    match type of Hc with _ = Ok (_, ?s) => set (st1 := s) in * end.
    assert (sameBoard st st1) as Hsame by apply sameBoard_drawn.
    pose proof (wellFormed_sameBoard _ _ Hsame Hwf) as Hwf1.
    rewrite (bind_Ok _ _ _ _ _
               (dist_isValidStartEndPoint_rejects st1 side c Hwf1 (onSide_same _ _ _ _ Hsame Hon))).
    by apply IH.
Qed.

Lemma dist_createStartEndLocation_throws side st :
  wellFormed st → side ∈ sides →
  DistGenerator.createStartEndLocation side st = Throw "Failed to create usable maze".
Proof.
  intros Hwf Hside. unfold DistGenerator.createStartEndLocation.
  destruct (dist_placementLoop_rejects side (Z.to_nat maxAttempts) None 0 st Hwf Hside)
    as (l & a & st' & Hloop).
  rewrite (bind_Ok _ _ _ _ _ Hloop). by destruct l.
Qed.

(** X14. The compiled generator of the command-line tool never returns a
    grid: for every width and height of at least 3 and whatever the random
    numbers, [generate] throws "Failed to create usable maze", because its
    acceptance test counts the missing neighbour outside of the board as a
    wall and so turns down every cell of a side. *)
Theorem dist_generate_throws w h dirs rnd :
  3 ≤ w → 3 ≤ h → dirs ≡ₚ directions0 →
  DistGenerator.generate w h dirs rnd = Throw "Failed to create usable maze".
Proof.
  intros Hw Hh Hd. unfold DistGenerator.generate, DistGenerator.generateFrom.
  destruct (carve_spec w h dirs rnd Hw Hh Hd) as (root & st & Hcarve & Hwf & _).
  rewrite (bind_Ok _ _ _ _ _ Hcarve).
  unfold DistGenerator.createStartAndEnd.
  rewrite (bind_Ok (sortAtRandom _) _ st _ _ eq_refl). cbv beta.
  set (st1 := mkState (width st) (height st) (mazeArray st) (directions st)
                      (random st) (S (draws st))).
  assert (sameBoard st st1) as Hsame1 by apply sameBoard_drawn.
  destruct (permutation_spec 4 (random st (draws st)) ["top"; "right"; "bottom"; "left"])
    as [Hlen Hin]; [simpl; lia|].
  change (length ["top"; "right"; "bottom"; "left"]) with 4%nat.
  destruct (permutation 4 (random st (draws st)) ["top"; "right"; "bottom"; "left"])
    as [|s1 [|s2 rest]]; [done..|].
  change (take 2 (s1 :: s2 :: rest)) with [s1; s2]. cbv beta iota.
  assert (s1 ∈ sides) as Hs1 by (apply Hin; apply list_elem_of_here).
  pose proof (wellFormed_sameBoard _ _ Hsame1 Hwf) as Hwf1.
  by rewrite (bind_Throw _ _ _ _ (dist_createStartEndLocation_throws s1 st1 Hwf1 Hs1)).
Qed.

Lemma dist_generate_throws_witness :
  DistGenerator.generate 3 3 directions0 (tape [])
  = Throw "Failed to create usable maze".
Proof.
  apply (dist_generate_throws 3 3 directions0 (tape [])).
  - lia.
  - lia.
  - reflexivity.
Defined.
End Dist.

(** * Reading a maze file *)

Section Parse.
Import MazeManager.

Lemma split_length sep s : (1 ≤ length (split sep s))%nat.
Proof.
  induction s as [|c s IH]; simpl; [lia|].
  destruct (Ascii.eqb c sep); simpl; [lia|].
  destruct (split sep s); simpl in *; lia.
Qed.

Lemma validChar_dec c : {validChar c} + {¬ validChar c}.
Proof.
  unfold validChar.
  destruct (decide (c = "S"%char)); [left; tauto|].
  destruct (decide (c = "E"%char)); [left; tauto|].
  destruct (decide (c = "0"%char)); [left; tauto|].
  destruct (decide (c = "1"%char)); [left; tauto|].
  right. tauto.
Qed.

Lemma charAt_Some lines i j c :
  charAt lines i j = Some c ↔
  0 ≤ i ∧ 0 ≤ j ∧ ∃ line, lines !! Z.to_nat i = Some line ∧ line !! Z.to_nat j = Some c.
Proof.
  unfold charAt. split.
  - destruct ((0 <=? i) && (0 <=? j)) eqn:Hpos; [|done].
    apply andb_true_iff in Hpos as [Hi%Z.leb_le Hj%Z.leb_le].
    destruct (lines !! Z.to_nat i) as [line|] eqn:Hline; [|done]. simpl.
    intros Hc. split; [done|]. split; [done|]. by exists line.
  - intros (Hi & Hj & line & Hline & Hc).
    rewrite (proj2 (Z.leb_le 0 i) Hi), (proj2 (Z.leb_le 0 j) Hj). simpl.
    by rewrite Hline.
Qed.

(** The characters of the lines [done ++ [pre ++ [c]]] are those of
    [done ++ [pre]] and [c] at the end of the last line. *)
Lemma charAt_snoc_char done pre c i j :
  charAt (done ++ [pre ++ [c]]) i j =
  if decide (i = Z.of_nat (length done) ∧ j = Z.of_nat (length pre)) then Some c
  else charAt (done ++ [pre]) i j.
Proof.
  destruct (decide _) as [[-> ->]|Hne].
  - apply charAt_Some. split; [lia|]. split; [lia|]. exists (pre ++ [c]).
    rewrite !Nat2Z.id. split.
    + by rewrite lookup_app_r, Nat.sub_diag by lia.
    + by rewrite lookup_app_r, Nat.sub_diag by lia.
  - unfold charAt. destruct ((0 <=? i) && (0 <=? j)) eqn:Hpos; [|done].
    apply andb_true_iff in Hpos as [Hi%Z.leb_le Hj%Z.leb_le].
    destruct (decide (Z.to_nat i < length done)%nat) as [Hlt|Hge].
    + by rewrite !lookup_app_l by done.
    + rewrite !lookup_app_r by lia.
      destruct (Z.to_nat i - length done)%nat as [|n] eqn:Hn; [|done]. simpl.
      assert (Z.to_nat j ≠ length pre) by lia.
      destruct (decide (Z.to_nat j < length pre)%nat).
      * by rewrite lookup_app_l.
      * rewrite lookup_app_r by lia.
        rewrite (lookup_ge_None_2 pre) by lia.
        destruct (Z.to_nat j - length pre)%nat eqn:Hm; [lia|done].
Qed.

Lemma charAt_snoc_empty done i j :
  charAt (done ++ [[]]) i j = charAt done i j.
Proof.
  unfold charAt. destruct ((0 <=? i) && (0 <=? j)); [|done].
  destruct (decide (Z.to_nat i < length done)%nat) as [Hlt|Hge].
  - by rewrite lookup_app_l.
  - rewrite lookup_app_r by lia. rewrite (lookup_ge_None_2 done) by lia.
    by destruct (Z.to_nat i - length done)%nat as [|[|n]].
Qed.

(** A character of [done ++ [pre]] comes strictly before the end of
    [pre]. *)
Lemma charAt_before done pre i j c :
  charAt (done ++ [pre]) i j = Some c →
  notAfter i j (Z.of_nat (length done)) (Z.of_nat (length pre)) ∧
  (i, j) ≠ (Z.of_nat (length done), Z.of_nat (length pre)).
Proof.
  intros (Hi & Hj & line & Hline & Hc)%charAt_Some.
  pose proof (lookup_lt_Some _ _ _ Hline) as Hlt. rewrite length_app in Hlt. simpl in Hlt.
  pose proof (lookup_lt_Some _ _ _ Hc) as Hlt'.
  destruct (decide (Z.to_nat i < length done)%nat).
  - split; [left; lia|]. intros [= ? ?]. lia.
  - rewrite lookup_app_r in Hline by lia.
    assert (Z.to_nat i - length done = 0)%nat as Hz by lia.
    rewrite Hz in Hline. injection Hline as <-.
    split; [right; lia|]. intros [= ? ?]. lia.
Qed.

(** Reading one more character. *)
Lemma lastOrNone_snoc ch done pre c p :
  lastOrNone ch (done ++ [pre]) p →
  lastOrNone ch (done ++ [pre ++ [c]])
    (if decide (c = ch) then (Z.of_nat (length done), Z.of_nat (length pre)) else p).
Proof.
  intros Hp. destruct (decide (c = ch)) as [->|Hne].
  - right. split.
    + simpl. rewrite charAt_snoc_char. by rewrite decide_True.
    + intros i j. rewrite charAt_snoc_char. simpl.
      destruct (decide _) as [[-> ->]|_]; [intros _; right; lia|].
      intros Hc. by apply charAt_before in Hc as [? _].
  - destruct Hp as [[-> Hnone]|[Hat Hlast]].
    + left. split; [done|]. intros i j. rewrite charAt_snoc_char.
      destruct (decide _); [congruence|apply Hnone].
    + right. split.
      * rewrite charAt_snoc_char. destruct (decide _) as [[H1 H2]|_]; [|done].
        apply charAt_before in Hat as [_ Hneq]. destruct p; simpl in *; congruence.
      * intros i j. rewrite charAt_snoc_char.
        destruct (decide _); [congruence|apply Hlast].
Qed.

Lemma lastOrNone_newline ch done p :
  lastOrNone ch done p → lastOrNone ch (done ++ [[]]) p.
Proof.
  intros [[-> Hnone]|[Hat Hlast]].
  - left. split; [done|]. intros i j. rewrite charAt_snoc_empty. apply Hnone.
  - right. split; [by rewrite charAt_snoc_empty|].
    intros i j. rewrite charAt_snoc_empty. apply Hlast.
Qed.

Lemma cellOf_valid c : validChar c → cellOf c = 0 ∨ cellOf c = 1.
Proof. intros [->|[->|[->| ->]]]; vm_compute; tauto. Qed.

(** The rest of a line of valid characters is read to its end. *)
Lemma scanLine_valid chars : ∀ done pre s e,
  Forall validChar chars →
  lastOrNone "S" (done ++ [pre]) s → lastOrNone "E" (done ++ [pre]) e →
  ∃ s' e',
    scanLine (Z.of_nat (length done)) (Z.of_nat (length pre)) chars (cellOf <$> pre) s e
    = Ok (cellOf <$> (pre ++ chars), s', e') ∧
    lastOrNone "S" (done ++ [pre ++ chars]) s' ∧
    lastOrNone "E" (done ++ [pre ++ chars]) e'.
Proof.
  induction chars as [|c chars IH]; intros done pre s e Hvalid Hs He.
  - exists s, e. rewrite app_nil_r. by split.
  - apply Forall_cons in Hvalid as [Hc Hvalid].
    pose proof (lastOrNone_snoc "S" done pre c s Hs) as Hs'.
    pose proof (lastOrNone_snoc "E" done pre c e He) as He'.
    assert (Z.of_nat (length pre) + 1 = Z.of_nat (length (pre ++ [c]))) as Hj
      by (rewrite length_app; simpl; lia).
    assert (∀ v, cellOf c = v → (cellOf <$> pre) ++ [v] = cellOf <$> (pre ++ [c])) as Hrow.
    { intros v <-. by rewrite fmap_app. }
    cbn [scanLine]. rewrite Hj.
    replace (pre ++ c :: chars) with ((pre ++ [c]) ++ chars) by (by rewrite <- app_assoc).
    destruct Hc as [->|[->|[->| ->]]]; cbn [Ascii.eqb Bool.eqb andb];
      [rewrite (Hrow 0 eq_refl)..|rewrite (Hrow 1 eq_refl)]; apply IH; done.
Qed.

(** A line with a first invalid character stops the reading there. *)
Lemma scanLine_invalid chars : ∀ i j row s e k c,
  chars !! k = Some c → ¬ validChar c →
  (∀ k' c', (k' < k)%nat → chars !! k' = Some c' → validChar c') →
  scanLine i j chars row s e = Throw (invalidCharacter c i (j + Z.of_nat k)).
Proof.
  induction chars as [|c0 chars IH]; intros i j row s e k c Hk Hc Hbefore; [done|].
  destruct k as [|k].
  - injection Hk as ->. cbn [scanLine].
    destruct (Ascii.eqb_spec c "S"); [subst; destruct Hc; left; done|].
    destruct (Ascii.eqb_spec c "E"); [subst; destruct Hc; right; left; done|].
    destruct (Ascii.eqb_spec c "0"); [subst; destruct Hc; right; right; left; done|].
    destruct (Ascii.eqb_spec c "1"); [subst; destruct Hc; right; right; right; done|].
    by rewrite Z.add_0_r.
  - simpl in Hk. cbn [scanLine].
    assert (validChar c0) as Hc0 by (apply (Hbefore 0%nat); [lia|done]).
    assert (j + Z.of_nat (S k) = j + 1 + Z.of_nat k) as -> by lia.
    assert (∀ k' c', (k' < k)%nat → chars !! k' = Some c' → validChar c') as Hb.
    { intros k' c' Hlt Hk'. apply (Hbefore (S k')); [lia|done]. }
    destruct Hc0 as [->|[->|[->| ->]]]; cbn [Ascii.eqb Bool.eqb andb]; by apply IH.
Qed.

(** Either all characters are valid or there is a first invalid one. *)
Lemma valid_or_first chars :
  Forall validChar chars ∨
  ∃ k c, chars !! k = Some c ∧ ¬ validChar c ∧
         ∀ k' c', (k' < k)%nat → chars !! k' = Some c' → validChar c'.
Proof.
  induction chars as [|c chars IH]; [by left|].
  destruct (validChar_dec c) as [Hc|Hc].
  - destruct IH as [Hall|(k & c' & Hk & Hinv & Hbefore)].
    + left. by constructor.
    + right. exists (S k), c'. split; [done|]. split; [done|].
      intros [|k'] c'' Hlt Hk'; [by injection Hk' as <-|].
      apply (Hbefore k'); [lia|done].
  - right. exists 0%nat, c. split; [done|]. split; [done|]. intros; lia.
Qed.

Lemma scanLine_returns chars : ∀ i j row s e,
  Forall validChar chars → ∃ r, scanLine i j chars row s e = Ok r.
Proof.
  induction chars as [|c chars IH]; intros i j row s e Hvalid; [by eexists|].
  apply Forall_cons in Hvalid as [Hc Hvalid]. cbn [scanLine].
  destruct Hc as [->|[->|[->| ->]]]; cbn [Ascii.eqb Bool.eqb andb]; by apply IH.
Qed.

(** Lines of valid characters are read to the end. *)
Lemma scanLines_valid rest : ∀ done s e,
  Forall (Forall validChar) rest →
  lastOrNone "S" done s → lastOrNone "E" done e →
  ∃ s' e',
    scanLines (Z.of_nat (length done)) rest (gridOf done) s e
    = Ok (gridOf (done ++ rest), s', e') ∧
    lastOrNone "S" (done ++ rest) s' ∧ lastOrNone "E" (done ++ rest) e'.
Proof.
  induction rest as [|line rest IH]; intros done s e Hvalid Hs He.
  - exists s, e. rewrite app_nil_r. by split.
  - apply Forall_cons in Hvalid as [Hline Hvalid]. cbn [scanLines].
    destruct (scanLine_valid line done [] s e Hline
                (lastOrNone_newline _ _ _ Hs) (lastOrNone_newline _ _ _ He))
      as (s1 & e1 & Hscan & Hs1 & He1).
    change (Z.of_nat (length (@nil ascii))) with 0 in Hscan.
    change (cellOf <$> []) with (@nil Z) in Hscan.
    rewrite Hscan. rewrite app_nil_l in *.
    assert (Z.of_nat (length done) + 1 = Z.of_nat (length (done ++ [line]))) as ->
      by (rewrite length_app; simpl; lia).
    assert ((gridOf done) ++ [cellOf <$> line]
            = gridOf (done ++ [line])) as -> by (unfold gridOf; by rewrite fmap_app).
    replace (done ++ line :: rest) with ((done ++ [line]) ++ rest)
      by (by rewrite <- app_assoc).
    by apply IH.
Qed.

(** The reading stops at the first invalid character. *)
Lemma scanLines_invalid rest : ∀ i grid s e r line k c,
  Forall (Forall validChar) (take r rest) →
  rest !! r = Some line →
  line !! k = Some c → ¬ validChar c →
  (∀ k' c', (k' < k)%nat → line !! k' = Some c' → validChar c') →
  scanLines i rest grid s e
  = Throw (invalidCharacter c (i + Z.of_nat r) (Z.of_nat k)).
Proof.
  induction rest as [|l rest IH]; intros i grid s e r line k c Hvalid Hr Hk Hc Hbefore;
    [done|].
  cbn [scanLines]. destruct r as [|r].
  - injection Hr as ->.
    rewrite (scanLine_invalid line i 0 [] s e k c Hk Hc Hbefore).
    by rewrite Z.add_0_r, Z.add_0_l.
  - simpl in Hvalid, Hr. apply Forall_cons in Hvalid as [Hl Hvalid].
    destruct (scanLine_returns l i 0 [] s e Hl) as ([[row s1] e1] & ->).
    rewrite (IH (i + 1) _ s1 e1 r line k c Hvalid Hr Hk Hc Hbefore).
    do 2 f_equal. lia.
Qed.

Lemma lines_valid_or_first lines :
  Forall (Forall validChar) lines ∨
  ∃ r line k c,
    Forall (Forall validChar) (take r lines) ∧ lines !! r = Some line ∧
    line !! k = Some c ∧ ¬ validChar c ∧
    ∀ k' c', (k' < k)%nat → line !! k' = Some c' → validChar c'.
Proof.
  induction lines as [|l lines IH]; [by left|].
  destruct (valid_or_first l) as [Hl|(k & c & Hk & Hc & Hbefore)].
  - destruct IH as [Hall|(r & line & k & c & Hvalid & Hr & Hk & Hc & Hbefore)].
    + left. by constructor.
    + right. exists (S r), line, k, c. split; [by constructor|]. done.
  - right. exists 0%nat, l, k, c. split; [constructor|]. done.
Qed.

Lemma firstInvalid_found lines r line k c :
  Forall (Forall validChar) (take r lines) → lines !! r = Some line →
  line !! k = Some c → ¬ validChar c →
  (∀ k' c', (k' < k)%nat → line !! k' = Some c' → validChar c') →
  firstInvalid lines (Z.of_nat r) (Z.of_nat k) c.
Proof.
  intros Hvalid Hr Hk Hc Hbefore. split; [|split; [done|]].
  - apply charAt_Some. rewrite !Nat2Z.id. split; [lia|]. split; [lia|]. by exists line.
  - intros i' j' c' (Hi & Hj & line' & Hline' & Hc')%charAt_Some Hna Hne.
    destruct Hna as [Hlt|[-> Hle]].
    + assert (take r lines !! Z.to_nat i' = Some line') as Ht.
      { rewrite lookup_take_lt by lia. done. }
      apply list_elem_of_lookup_2 in Ht.
      rewrite Forall_forall in Hvalid. specialize (Hvalid _ Ht).
      rewrite Forall_forall in Hvalid. apply Hvalid.
      by apply list_elem_of_lookup_2 in Hc'.
    + rewrite Nat2Z.id in Hline'. assert (line' = line) as -> by congruence.
      apply (Hbefore (Z.to_nat j')); [|done].
      assert (j' ≠ Z.of_nat k) by congruence. lia.
Qed.

Lemma firstInvalid_unique lines i j c i' j' c' :
  firstInvalid lines i j c → firstInvalid lines i' j' c' →
  i = i' ∧ j = j' ∧ c = c'.
Proof.
  intros (Hat & Hc & Hfirst) (Hat' & Hc' & Hfirst').
  destruct (decide ((i, j) = (i', j'))) as [[= -> ->]|Hne].
  - split; [done|]. split; [done|]. congruence.
  - destruct (decide (notAfter i j i' j')) as [Hna|Hna].
    + destruct Hc. by apply (Hfirst' i j c).
    + destruct Hc'. apply (Hfirst i' j' c'); [done| |congruence].
      unfold notAfter in *. lia.
Qed.

Lemma all_valid lines :
  Forall (Forall validChar) lines ↔
  ∀ line c, line ∈ lines → c ∈ line → validChar c.
Proof.
  rewrite Forall_forall. split.
  - intros H line c Hline. specialize (H line Hline). rewrite Forall_forall in H. apply H.
  - intros H line Hline. apply Forall_forall. intros c. by apply H.
Qed.

Lemma charAt_elem lines ch :
  (∃ i j, charAt lines i j = Some ch) ↔ ∃ line, line ∈ lines ∧ ch ∈ line.
Proof.
  split.
  - intros (i & j & (_ & _ & line & Hline & Hc)%charAt_Some).
    exists line. split; by eapply list_elem_of_lookup_2.
  - intros (line & [r Hr]%list_elem_of_lookup_1 & [k Hk]%list_elem_of_lookup_1).
    exists (Z.of_nat r), (Z.of_nat k). apply charAt_Some.
    rewrite !Nat2Z.id. split; [lia|]. split; [lia|]. by exists line.
Qed.

Lemma cellAt_cells lines i j :
  cellAt (gridOf lines) j i = cellOf <$> charAt lines i j.
Proof.
  unfold cellAt, charAt, gridOf. destruct ((0 <=? i) && (0 <=? j)); [|done].
  rewrite list_lookup_fmap. destruct (lines !! Z.to_nat i) as [line|]; [|done].
  simpl. by rewrite list_lookup_fmap.
Qed.

Lemma sameLength_forallb lines :
  forallb (λ line, bool_decide (length line = length (default [] (lines !! 0%nat)))) lines
  = true ↔ sameLength lines.
Proof.
  rewrite forallb_forall. unfold sameLength. split.
  - intros H line Hline%list_elem_of_In. specialize (H line Hline).
    by apply bool_decide_eq_true in H.
  - intros H line Hline%list_elem_of_In. apply bool_decide_eq_true. by apply H.
Qed.

(** A position found by the reading is a position of the grid, and the
    cell there is passable. *)
Lemma lastAt_passable ch lines p :
  sameLength lines → ch ≠ "1"%char → lastAt ch lines p →
  isValidCoordinate (gridOf lines) (mkCoordinate p.2 p.1) = true ∧
  p.1 ≠ -1.
Proof.
  intros Hsame Hch [Hat _].
  pose proof Hat as (Hi & Hj & line & Hline & Hc)%charAt_Some.
  split; [|lia]. apply isValidCoordinate_spec. split.
  - unfold in_bounds, gridOf. simpl. rewrite length_fmap.
    pose proof (lookup_lt_Some _ _ _ Hline). pose proof (lookup_lt_Some _ _ _ Hc).
    rewrite list_lookup_fmap.
    assert (length (default [] ((λ line : list ascii, cellOf <$> line) <$> lines !! 0%nat))
            = length (default [] (lines !! 0%nat))) as ->.
    { destruct (lines !! 0%nat); simpl; [by rewrite length_fmap|done]. }
    rewrite <- (Hsame line (list_elem_of_lookup_2 _ _ _ Hline)). lia.
  - unfold on_wall. simpl. rewrite cellAt_cells, Hat. simpl. intros Hw. apply Hw.
    f_equal. unfold cellOf. by destruct (Ascii.eqb_spec ch "1").
Qed.

(** What [parseMazeFile] does, case by case. *)
Lemma parseMazeFile_cases s :
  let lines := linesOf s in
  (¬ sameLength lines ∧
   parseMazeFile s = Throw "All lines in the maze must have the same length") ∨
  (sameLength lines ∧
   ((length lines < 2)%nat ∨ (length (default [] (lines !! 0%nat)) < 2)%nat) ∧
   parseMazeFile s = Throw "Maze must be at least 2x2") ∨
  (sameLength lines ∧ (2 ≤ length lines)%nat ∧
   (2 ≤ length (default [] (lines !! 0%nat)))%nat ∧
   ((∃ i j c, firstInvalid lines i j c ∧
              parseMazeFile s = Throw (invalidCharacter c i j)) ∨
    (Forall (Forall validChar) lines ∧
     ∃ ps pe, lastOrNone "S" lines ps ∧ lastOrNone "E" lines pe ∧
       ((ps.1 = -1 ∨ pe.1 = -1) ∧
        parseMazeFile s = Throw "Start or end position not found in the maze" ∨
        (lastAt "S" lines ps ∧ lastAt "E" lines pe ∧
         parseMazeFile s = Ok (mkMaze (gridOf lines)
                                      (mkCoordinate ps.2 ps.1)
                                      (mkCoordinate pe.2 pe.1))))))).
Proof.
  intros lines. unfold parseMazeFile. fold (linesOf s). fold lines.
  pose proof (split_length newline (trim s)) as Hlen. fold (linesOf s) in Hlen. fold lines in Hlen.
  rewrite bool_decide_eq_false_2 by lia.
  destruct (forallb _ lines) eqn:Hsame; cbn [negb].
  2:{ left. split; [|done]. intros H%sameLength_forallb. congruence. }
  apply sameLength_forallb in Hsame. right.
  destruct (bool_decide (length lines < 2)%nat ||
            bool_decide (length (default [] (lines !! 0%nat)) < 2)%nat) eqn:Hsize.
  { left. split; [done|]. split; [|done].
    apply orb_true_iff in Hsize as [H%bool_decide_eq_true|H%bool_decide_eq_true]; tauto. }
  right. apply orb_false_iff in Hsize as [H1%bool_decide_eq_false H2%bool_decide_eq_false].
  split; [done|]. split; [lia|]. split; [lia|].
  destruct (lines_valid_or_first lines)
    as [Hvalid|(r & line & k & c & Hvalid & Hr & Hk & Hc & Hbefore)].
  - right. split; [done|].
    destruct (scanLines_valid lines [] (-1, -1) (-1, -1) Hvalid)
      as (ps & pe & Hscan & Hs & He).
    { left. split; [done|]. intros i j. unfold charAt.
      destruct ((0 <=? i) && (0 <=? j)); [|done]. by rewrite lookup_nil. }
    { left. split; [done|]. intros i j. unfold charAt.
      destruct ((0 <=? i) && (0 <=? j)); [|done]. by rewrite lookup_nil. }
    change (Z.of_nat (length (@nil (list ascii)))) with 0 in Hscan.
    change (gridOf []) with (@nil (list Z)) in Hscan.
    rewrite app_nil_l in *. rewrite Hscan.
    exists ps, pe. split; [done|]. split; [done|].
    destruct Hs as [[-> _]|Hs].
    { left. split; [by left|done]. }
    destruct He as [[-> _]|He].
    { left. split; [by right|]. by rewrite orb_true_r. }
    right. split; [done|]. split; [done|].
    destruct (lastAt_passable "S" lines ps Hsame ltac:(done) Hs) as [Hok Hne1].
    destruct (lastAt_passable "E" lines pe Hsame ltac:(done) He) as [_ Hne2].
    rewrite (proj2 (Z.eqb_neq _ _) Hne1), (proj2 (Z.eqb_neq _ _) Hne2).
    cbn [orb]. unfold create. by rewrite Hok.
  - left. exists (Z.of_nat r), (Z.of_nat k), c.
    split; [by apply (firstInvalid_found lines r line)|].
    by rewrite (scanLines_invalid lines 0 [] (-1, -1) (-1, -1) r line k c).
Qed.

Lemma lastOrNone_found ch lines p :
  lastOrNone ch lines p → (∃ line, line ∈ lines ∧ ch ∈ line) → lastAt ch lines p.
Proof.
  intros [[_ Hnone]|Hlast] Hex; [|done].
  apply charAt_elem in Hex as (i & j & Hij). by destruct (Hnone i j).
Qed.

Lemma lastOrNone_none ch lines p :
  lastOrNone ch lines p → p.1 = -1 → ¬ ∃ line, line ∈ lines ∧ ch ∈ line.
Proof.
  intros [[_ Hnone]|[Hat _]] Hp.
  - intros (i & j & Hij)%charAt_elem. by destruct (Hnone i j).
  - apply charAt_Some in Hat as (? & _). lia.
Qed.

Lemma sameLength_sized lines :
  sameLength lines → (2 ≤ length (default [] (lines !! 0%nat)))%nat →
  ∃ n, (2 ≤ n)%nat ∧ ∀ line, line ∈ lines → length line = n.
Proof. intros Hsame Hn. eexists. split; [exact Hn|exact Hsame]. Qed.

Lemma sized_sameLength lines n :
  (∀ line, line ∈ lines → length line = n) →
  sameLength lines ∧ (lines ≠ [] → length (default [] (lines !! 0%nat)) = n).
Proof.
  intros Hn. destruct lines as [|l lines]; [split; [by intros ? ?%elem_of_nil|done]|].
  simpl. pose proof (Hn l (list_elem_of_here _ _)) as Hl. split; [|done].
  intros line Hline. simpl. rewrite Hl. by apply Hn.
Qed.

(** X15. [parseMazeFile] returns a grid exactly for the texts whose lines,
    once the text is trimmed and split at the line feeds, are at least two,
    all of one length of at least two, made of the characters S, E, 0 and 1
    only, with at least one S and at least one E. *)
Theorem parseMazeFile_accepts s :
  (∃ m, parseMazeFile s = Ok m) ↔ acceptedLines (linesOf s).
Proof.
  pose proof (parseMazeFile_cases s) as Hcases. cbv zeta in Hcases. split.
  - intros [m Hm].
    destruct Hcases as [[_ H]|[(_ & _ & H)|(Hsame & Hrows & Hcols & Hrest)]];
      [congruence..|].
    destruct Hrest as [(i & j & c & _ & H)|(Hvalid & ps & pe & Hs & He & Hrest)];
      [congruence|].
    destruct Hrest as [[_ H]|(Hls & Hle & _)]; [congruence|].
    split; [done|]. split; [by apply sameLength_sized|].
    split; [by apply all_valid|]. split; apply charAt_elem.
    + destruct Hls as [Hat _]. eauto.
    + destruct Hle as [Hat _]. eauto.
  - intros (Hrows & (n & Hn & Hlen) & Hvalid & HS & HE).
    destruct (sized_sameLength _ _ Hlen) as [Hsame Hfirst].
    assert (linesOf s ≠ []) as Hne by (intros H; rewrite H in Hrows; simpl in Hrows; lia).
    specialize (Hfirst Hne).
    destruct Hcases as [[H _]|[(_ & H & _)|(_ & _ & _ & Hrest)]]; [done|lia|].
    destruct Hrest as [(i & j & c & (Hat & Hc & _) & _)|(_ & ps & pe & Hs & He & Hrest)].
    + destruct Hc. apply charAt_Some in Hat as (_ & _ & line & Hline & Hcc).
      apply (Hvalid line c); by eapply list_elem_of_lookup_2.
    + destruct Hrest as [[[H|H] _]|(_ & _ & H)]; [| |eauto].
      * by destruct (lastOrNone_none _ _ _ Hs H).
      * by destruct (lastOrNone_none _ _ _ He H).
Qed.

(** X16. The grid that [parseMazeFile] returns has one row for every line
    and one cell for every character, a wall for 1 and a passable cell for
    0, S and E; it is rectangular; its entrance is the position of the last
    S of the text and its exit that of the last E; both are passable cells
    of the grid, and they differ. *)
Theorem parseMazeFile_grid s m :
  parseMazeFile s = Ok m →
  getMazeArray m = gridOf (linesOf s) ∧
  rectangular (getMazeArray m) = true ∧
  lastAt "S" (linesOf s) (y (getStart m), x (getStart m)) ∧
  lastAt "E" (linesOf s) (y (getEnd m), x (getEnd m)) ∧
  passable m (getStart m) ∧ passable m (getEnd m) ∧
  getStart m ≠ getEnd m.
Proof.
  intros Hm. pose proof (parseMazeFile_cases s) as Hcases. cbv zeta in Hcases.
  destruct Hcases as [[_ H]|[(_ & _ & H)|(Hsame & Hrows & Hcols & Hrest)]];
    [congruence..|].
  destruct Hrest as [(i & j & c & _ & H)|(Hvalid & ps & pe & Hs & He & Hrest)];
    [congruence|].
  destruct Hrest as [[_ H]|(Hls & Hle & H)]; [congruence|].
  rewrite Hm in H. injection H as ->. cbn [getMazeArray getStart getEnd x y].
  destruct ps as [si sj], pe as [ei ej]. cbn [fst snd] in *.
  destruct (lastAt_passable "S" _ _ Hsame ltac:(done) Hls) as [Hps _].
  destruct (lastAt_passable "E" _ _ Hsame ltac:(done) Hle) as [Hpe _].
  split; [done|]. split.
  { unfold rectangular, gridOf. apply forallb_forall. intros row Hrow%list_elem_of_In.
    apply bool_decide_eq_true.
    apply list_elem_of_fmap in Hrow as (line & -> & Hline).
    rewrite list_lookup_fmap, length_fmap.
    rewrite (Hsame line Hline). by destruct (linesOf s !! 0%nat); simpl; rewrite ?length_fmap. }
  split; [done|]. split; [done|]. split; [done|]. split; [done|].
  intros [= -> ->]. destruct Hls as [H1 _], Hle as [H2 _]. simpl in *. congruence.
Qed.

Lemma parseMazeFile_grid_witness :
  getMazeArray exampleParsed = gridOf (linesOf exampleText) ∧
  rectangular (getMazeArray exampleParsed) = true ∧
  lastAt "S" (linesOf exampleText) (y (getStart exampleParsed), x (getStart exampleParsed)) ∧
  lastAt "E" (linesOf exampleText) (y (getEnd exampleParsed), x (getEnd exampleParsed)) ∧
  passable exampleParsed (getStart exampleParsed) ∧
  passable exampleParsed (getEnd exampleParsed) ∧
  getStart exampleParsed ≠ getEnd exampleParsed.
Proof.
  apply (parseMazeFile_grid exampleText exampleParsed).
  vm_compute. reflexivity.
Defined.

(** X17. The errors of [parseMazeFile], in the order the checks are made:
    lines of different lengths; fewer than two lines or two columns; a
    character other than S, E, 0 and 1, the first one in reading order
    being reported with its line and its column; no S or no E. *)
Theorem parseMazeFile_errors s :
  (¬ sameLength (linesOf s) →
   parseMazeFile s = Throw "All lines in the maze must have the same length") ∧
  (sameLength (linesOf s) →
   (length (linesOf s) < 2)%nat ∨ (length (default [] (linesOf s !! 0%nat)) < 2)%nat →
   parseMazeFile s = Throw "Maze must be at least 2x2") ∧
  (sameLength (linesOf s) → (2 ≤ length (linesOf s))%nat →
   (2 ≤ length (default [] (linesOf s !! 0%nat)))%nat →
   (∀ i j c, firstInvalid (linesOf s) i j c →
             parseMazeFile s = Throw (invalidCharacter c i j)) ∧
   ((∀ line c, line ∈ linesOf s → c ∈ line → validChar c) →
    (¬ (∃ line, line ∈ linesOf s ∧ "S"%char ∈ line) ∨
     ¬ (∃ line, line ∈ linesOf s ∧ "E"%char ∈ line)) →
    parseMazeFile s = Throw "Start or end position not found in the maze")).
Proof.
  pose proof (parseMazeFile_cases s) as Hcases. cbv zeta in Hcases.
  split; [|split].
  - intros Hns. destruct Hcases as [[_ H]|[(H & _)|(H & _)]]; done.
  - intros Hsame Hsmall.
    destruct Hcases as [[H _]|[(_ & _ & H)|(_ & ? & ? & _)]]; [done|done|lia].
  - intros Hsame Hrows Hcols.
    destruct Hcases as [[H _]|[(_ & H & _)|(_ & _ & _ & Hrest)]]; [done|lia|].
    split.
    + intros i j c Hfirst.
      destruct Hrest as [(i' & j' & c' & Hfirst' & H)|(Hvalid & _)].
      * by destruct (firstInvalid_unique _ _ _ _ _ _ _ Hfirst Hfirst') as (-> & -> & ->).
      * destruct Hfirst as (Hat & Hc & _). destruct Hc.
        apply charAt_Some in Hat as (_ & _ & line & Hline & Hcc).
        apply (proj1 (all_valid _) Hvalid line c); by eapply list_elem_of_lookup_2.
    + intros Hvalid Hnone.
      destruct Hrest as [(i & j & c & (Hat & Hc & _) & _)|(_ & ps & pe & Hs & He & Hrest)].
      * destruct Hc. apply charAt_Some in Hat as (_ & _ & line & Hline & Hcc).
        apply (Hvalid line c); by eapply list_elem_of_lookup_2.
      * destruct Hrest as [[_ H]|(Hls & Hle & _)]; [done|].
        destruct Hnone as [Hn|Hn]; destruct Hn; apply charAt_elem.
        -- destruct Hls as [Hat _]; eauto.
        -- destruct Hle as [Hat _]; eauto.
Qed.

Lemma invalidCharacter_ne c i j :
  invalidCharacter c i j ≠ "Maze cannot be empty" ∧
  invalidCharacter c i j ≠ "Invalid start or end coordinate".
Proof. unfold invalidCharacter. simpl. split; discriminate. Qed.

(** X18. [parseMazeFile] always returns or throws one of its own errors;
    two errors the code provides for are never raised: "Maze cannot be
    empty", because [split] yields at least one line, and the
    "Invalid start or end coordinate" of [Maze.create], because the cells
    of S and E are passable by construction. An empty or blank text is
    answered with "Maze must be at least 2x2". *)
Theorem parseMazeFile_never s :
  parseMazeFile s ≠ Throw "Maze cannot be empty" ∧
  parseMazeFile s ≠ Throw "Invalid start or end coordinate" ∧
  parseMazeFile s ≠ OutOfFuel ∧ parseMazeFile s ≠ Undefined ∧
  (trim s = [] → parseMazeFile s = Throw "Maze must be at least 2x2").
Proof.
  pose proof (parseMazeFile_cases s) as Hcases. cbv zeta in Hcases.
  assert (trim s = [] → parseMazeFile s = Throw "Maze must be at least 2x2") as Hblank.
  { intros Ht. unfold linesOf in Hcases. rewrite Ht in Hcases. simpl in Hcases.
    destruct Hcases as [[H _]|[(_ & _ & H)|(_ & ? & _)]]; [|done|lia].
    destruct H. intros line Hline. by apply list_elem_of_singleton in Hline as ->. }
  cut (parseMazeFile s ≠ Throw "Maze cannot be empty" ∧
       parseMazeFile s ≠ Throw "Invalid start or end coordinate" ∧
       parseMazeFile s ≠ OutOfFuel ∧ parseMazeFile s ≠ Undefined); [tauto|].
  clear Hblank.
  destruct Hcases as [[_ H]|[(_ & _ & H)|(_ & _ & _ & Hrest)]];
    [rewrite H; repeat split; congruence..|].
  destruct Hrest as [(i & j & c & _ & H)|(_ & ps & pe & _ & _ & Hrest)].
  - destruct (invalidCharacter_ne c i j). rewrite H. repeat split; congruence.
  - destruct Hrest as [[_ H]|(_ & _ & H)]; rewrite H; repeat split; congruence.
Qed.

(** X19. A grid read from a maze file is solved: on the grid that
    [parseMazeFile] returns, [findPath] returns a path from the entrance to
    the exit through passable cells that no path between them undercuts in
    moves, or it returns [null] and there is no such path. *)
Theorem parsed_maze_solved s m :
  parseMazeFile s = Ok m →
  match findPath m with
  | Ok (Some p) => solution m p ∧ ∀ q, solution m q → moves p ≤ moves q
  | Ok None => ∀ q, ¬ solution m q
  | _ => False
  end.
Proof.
  intros Hm. pose proof (parseMazeFile_cases s) as Hcases. cbv zeta in Hcases.
  destruct Hcases as [[_ H]|[(_ & _ & H)|(Hsame & _ & _ & Hrest)]]; [congruence..|].
  destruct Hrest as [(i & j & c & _ & H)|(_ & ps & pe & _ & _ & Hrest)]; [congruence|].
  destruct Hrest as [[_ H]|(Hls & _ & H)]; [congruence|].
  destruct (lastAt_passable "S" _ _ Hsame ltac:(done) Hls) as [Hps _].
  rewrite Hm in H. injection H as ->.
  destruct (findPathTrace_result
              (mkMaze (gridOf (linesOf s)) (mkCoordinate ps.2 ps.1)
                      (mkCoordinate pe.2 pe.1)) Hps) as (r & st & Htrace & Hr).
  assert (findPath (mkMaze (gridOf (linesOf s)) (mkCoordinate ps.2 ps.1)
                           (mkCoordinate pe.2 pe.1)) = Ok r) as ->
    by (apply findPath_trace; eauto).
  destruct r as [p|]; [done|]. by destruct Hr.
Qed.

Lemma parsed_maze_solved_witness :
  match findPath exampleParsed with
  | Ok (Some p) =>
    solution exampleParsed p ∧ ∀ q, solution exampleParsed q → moves p ≤ moves q
  | Ok None => ∀ q, ¬ solution exampleParsed q
  | _ => False
  end.
Proof.
  apply (parsed_maze_solved exampleText).
  vm_compute. reflexivity.
Defined.

(** ** White space around the text *)

Lemma trimStart_blank ws s :
  Forall (λ c, isWhiteSpace c = true) ws → trimStart (ws ++ s) = trimStart s.
Proof.
  induction 1 as [|c ws Hc _ IH]; [done|]. simpl. by rewrite Hc.
Qed.

Lemma trimStart_app s t :
  trimStart (s ++ t) = if decide (trimStart s = []) then trimStart t else trimStart s ++ t.
Proof.
  induction s as [|c s IH]; [done|]. simpl.
  destruct (isWhiteSpace c); [done|]. by rewrite decide_False.
Qed.

Lemma trimEnd_blank s ws :
  Forall (λ c, isWhiteSpace c = true) ws → trimEnd (s ++ ws) = trimEnd s.
Proof.
  intros Hws. unfold trimEnd. rewrite reverse_app.
  rewrite trimStart_blank; [done|]. by apply Forall_reverse.
Qed.

Lemma trim_blank s ws :
  Forall (λ c, isWhiteSpace c = true) ws →
  trim (ws ++ s) = trim s ∧ trim (s ++ ws) = trim s.
Proof.
  intros Hws. unfold trim. split; [by rewrite trimStart_blank|].
  rewrite trimStart_app. destruct (decide (trimStart s = [])) as [->|_].
  - pose proof (trimStart_blank ws [] Hws) as H. rewrite app_nil_r in H. by rewrite H.
  - by apply trimEnd_blank.
Qed.

(** X20. White space and line ends before and after the text make no
    difference to what [parseMazeFile] returns or throws. *)
Theorem parseMazeFile_margins s ws :
  Forall (λ c, isWhiteSpace c = true) ws →
  parseMazeFile (ws ++ s) = parseMazeFile s ∧
  parseMazeFile (s ++ ws) = parseMazeFile s.
Proof.
  intros Hws. destruct (trim_blank s ws Hws) as [H1 H2].
  unfold parseMazeFile. by rewrite H1, H2.
Qed.

Lemma parseMazeFile_margins_witness :
  parseMazeFile ([newline; " "%char] ++ exampleText) = parseMazeFile exampleText ∧
  parseMazeFile (exampleText ++ [newline; " "%char]) = parseMazeFile exampleText.
Proof.
  apply (parseMazeFile_margins exampleText [newline; " "%char]).
  repeat constructor.
Defined.

(** ** Line endings *)

Lemma split_line l t :
  newline ∉ l → split newline (l ++ newline :: t) = l :: split newline t.
Proof.
  induction l as [|c l IH]; intros Hl; [done|].
  apply not_elem_of_cons in Hl as [Hc Hl]. simpl.
  destruct (Ascii.eqb_spec c newline); [done|]. by rewrite IH.
Qed.

Lemma split_last l : newline ∉ l → split newline l = [l].
Proof.
  induction l as [|c l IH]; intros Hl; [done|].
  apply not_elem_of_cons in Hl as [Hc Hl]. simpl.
  destruct (Ascii.eqb_spec c newline); [done|]. by rewrite IH.
Qed.

Lemma validChar_not_blank c : validChar c → isWhiteSpace c = false ∧ c ≠ newline.
Proof. intros [->|[->|[->| ->]]]; by vm_compute. Qed.

Lemma trim_id a s b :
  isWhiteSpace a = false → isWhiteSpace b = false →
  last (a :: s) = Some b → trim (a :: s) = a :: s.
Proof.
  intros Ha Hb Hlast. unfold trim. simpl. rewrite Ha. unfold trimEnd.
  destruct (reverse (a :: s)) as [|b' r] eqn:Hr.
  { apply (f_equal length) in Hr. rewrite length_reverse in Hr. done. }
  assert (b' = b) as ->.
  { rewrite <- (reverse_involutive (a :: s)), Hr in Hlast.
    rewrite reverse_cons, last_snoc in Hlast. congruence. }
  simpl. rewrite Hb. by rewrite <- Hr, reverse_involutive.
Qed.

Lemma joinRows_cons sep row row' rest :
  joinRows sep (row :: row' :: rest) = row ++ sep ++ joinRows sep (row' :: rest).
Proof. done. Qed.

Lemma last_joinRows sep rows b :
  (∀ row, row ∈ rows → row ≠ []) →
  (last rows ≫= last) = Some b → last (joinRows sep rows) = Some b.
Proof.
  induction rows as [|row [|row' rest] IH]; intros Hne Hb; [done|done|].
  rewrite joinRows_cons. rewrite !last_app.
  assert (last (joinRows sep (row' :: rest)) = Some b) as ->; [|done].
  apply IH; [|done]. intros r Hr. apply Hne. by right.
Qed.

(** The lines of rows joined by carriage return and line feed: every line
    but the last keeps its carriage return. *)
Lemma split_crlf rows row :
  (∀ r, r ∈ row :: rows → newline ∉ r) →
  split newline (joinRows crlf (row :: rows)) =
  match rows with
  | [] => [row]
  | _ => (row ++ ["013"%char]) :: split newline (joinRows crlf rows)
  end.
Proof.
  intros Hnl. destruct rows as [|row' rest].
  - simpl. apply split_last. apply Hnl. by left.
  - rewrite joinRows_cons. unfold crlf at 1.
    change (row ++ ["013"%char; newline] ++ joinRows crlf (row' :: rest))
      with (row ++ ["013"%char] ++ newline :: joinRows crlf (row' :: rest)).
    rewrite app_assoc. apply split_line.
    rewrite elem_of_app, list_elem_of_singleton. intros [H|H]; [|done].
    by apply (Hnl row (list_elem_of_here _ _)).
Qed.

Lemma split_crlf_last rows row n :
  (∀ r, r ∈ row :: rows → (newline ∉ r) ∧ length r = n) →
  ∃ l, l ∈ split newline (joinRows crlf (row :: rows)) ∧ length l = n.
Proof.
  revert row. induction rows as [|row' rest IH]; intros row Hrows.
  - rewrite split_crlf by (intros r Hr; by apply Hrows).
    exists row. split; [by left|]. apply Hrows. by left.
  - rewrite split_crlf by (intros r Hr; by apply Hrows).
    destruct (IH row') as (l & Hl & Hlen).
    { intros r Hr. apply Hrows. by right. }
    exists l. split; [by right|done].
Qed.

(** X21. A maze file with the line endings of Windows is refused: for two
    or more rows of one length made of the characters S, E, 0 and 1 and
    joined by carriage return and line feed, [parseMazeFile] throws
    "All lines in the maze must have the same length", because [split]
    leaves the carriage return at the end of every line but the last. *)
Theorem parseMazeFile_crlf rows n :
  (2 ≤ length rows)%nat → (1 ≤ n)%nat →
  (∀ row, row ∈ rows → length row = n ∧ Forall validChar row) →
  parseMazeFile (joinRows crlf rows)
  = Throw "All lines in the maze must have the same length".
Proof.
  intros Hrows Hn Hrow.
  destruct rows as [|row [|row' rest]]; [simpl in Hrows; lia..|].
  assert (∀ r, r ∈ row :: row' :: rest → (newline ∉ r) ∧ length r = n) as Hnl.
  { intros r Hr. destruct (Hrow r Hr) as [Hlen Hvalid]. split; [|done].
    intros Hin. rewrite Forall_forall in Hvalid.
    by destruct (validChar_not_blank _ (Hvalid _ Hin)). }
  assert (∀ r, r ∈ row :: row' :: rest → r ≠ []) as Hne.
  { intros r Hr ->. destruct (Hrow [] Hr) as [Hlen _]. simpl in Hlen. lia. }
  assert (trim (joinRows crlf (row :: row' :: rest)) = joinRows crlf (row :: row' :: rest))
    as Htrim.
  { destruct (Hrow row (list_elem_of_here _ _)) as [Hlen Hvalid].
    destruct row as [|a row]; [simpl in Hlen; lia|].
    apply Forall_cons in Hvalid as [Ha _].
    assert (∃ b, (last ((a :: row) :: row' :: rest) ≫= last) = Some b ∧ validChar b)
      as (b & Hb & Hvb).
    { destruct (last (row' :: rest)) as [lr|] eqn:Hlr; [|by apply last_None in Hlr].
      assert (lr ∈ (a :: row) :: row' :: rest) as Hin.
      { right. apply last_Some in Hlr as [l' ->]. apply elem_of_app. right. by left. }
      destruct (Hrow lr Hin) as [Hlen' Hvalid'].
      destruct (last lr) as [b|] eqn:Hb.
      - exists b. split.
        + change (last ((a :: row) :: row' :: rest)) with (last (row' :: rest)).
          by rewrite Hlr.
        + rewrite Forall_forall in Hvalid'. apply Hvalid'.
          apply last_Some in Hb as [l' ->]. apply elem_of_app. right. by left.
      - apply last_None in Hb. subst. simpl in Hlen'. lia. }
    pose proof (last_joinRows crlf _ b Hne Hb) as Hlast.
    rewrite joinRows_cons in *.
    apply (trim_id a _ b); [by apply validChar_not_blank..|done]. }
  pose proof (parseMazeFile_cases (joinRows crlf (row :: row' :: rest))) as Hcases.
  cbv zeta in Hcases. unfold linesOf in Hcases. rewrite Htrim in Hcases.
  destruct Hcases as [[_ H]|[(Hsame & _)|(Hsame & _)]]; [done| |];
    exfalso; revert Hsame;
    (rewrite split_crlf by (intros r Hr; by apply Hnl));
    intros Hsame;
    (destruct (split_crlf_last rest row' n) as (l & Hl & Hlen);
     [intros r Hr; apply Hnl; by right|]);
    specialize (Hsame l (list_elem_of_further _ _ _ Hl)); simpl in Hsame;
    rewrite length_app in Hsame; simpl in Hsame;
    destruct (Hnl row (list_elem_of_here _ _)); lia.
Qed.

Lemma parseMazeFile_crlf_witness :
  parseMazeFile (joinRows crlf [["S"; "0"]; ["0"; "E"]]%char)
  = Throw "All lines in the maze must have the same length".
Proof.
  apply (parseMazeFile_crlf [["S"; "0"]; ["0"; "E"]]%char 2).
  - simpl. lia.
  - lia.
  - intros row Hrow. apply elem_of_cons in Hrow as [->|Hrow].
    + split; [reflexivity|]. repeat constructor; unfold validChar; tauto.
    + apply list_elem_of_singleton in Hrow as ->.
      split; [reflexivity|]. repeat constructor; unfold validChar; tauto.
Defined.
End Parse.

(** * The breadth-first solver *)

Lemma sorted_levels_snoc (f g : Coordinate → Z) l n :
  StronglySorted (λ a b, f a ≤ f b) l →
  (∀ a, a ∈ l → g a = f a) → (∀ a, a ∈ l → g a ≤ g n) →
  StronglySorted (λ a b, g a ≤ g b) (l ++ [n]).
Proof.
  induction 1 as [|a l Hs IH Hall]; intros Hg Hn.
  - repeat constructor.
  - simpl. constructor.
    + apply IH; intros b Hb; [apply Hg|apply Hn]; by right.
    + apply Forall_app. split.
      * rewrite Forall_forall in Hall. apply Forall_forall. intros b Hb.
        rewrite (Hg a) by (by left). rewrite (Hg b) by (by right). by apply Hall.
      * constructor; [|constructor]. apply Hn. by left.
Qed.

Lemma level_Some lv c v : levelOf lv c = Some v → level lv c = v.
Proof. unfold level. by intros ->. Qed.

Section Bfs.
Variable maze : Maze.

Lemma bfsInv_sound st lv cur seen :
  bfsInv maze st lv cur seen → sound maze (levelled st lv).
Proof.
  intros Hinv. split.
  - apply (bfs_start _ _ _ _ _ Hinv).
  - apply (bfs_keys _ _ _ _ _ Hinv).
  - intros k p Hp. destruct (bfs_parent _ _ _ _ _ Hinv k p Hp) as (c & gp & -> & Hadj & Hgp & Hgc).
    exists c, gp, (gp + 1). split; [done|]. split; [done|]. split; [done|]. split; [done|lia].
  - apply (bfs_root _ _ _ _ _ Hinv).
  - intros c p Hin. by apply elem_of_nil in Hin.
  - constructor.
Qed.

(** While a cell that was not visited can be reached from a cell that has
    a level, the queue holds a cell whose level is at most that level plus
    the moves of the walk. *)
Lemma bfs_entry st lv a l b v :
  bfsInv maze st lv None [] →
  walk (passable maze) a l b →
  levelOf lv a = Some v →
  coordinateToString b ∉ DistSolver.visited st →
  ∃ c, c ∈ DistSolver.queue st ∧ level lv c ≤ v + moves l.
Proof.
  intros Hinv Hw. revert v.
  induction Hw as [a Ha|a b l e Ha Hab Hw IH]; intros v Hv Hb.
  - exists a. split; [by apply (bfs_pending _ _ _ _ _ Hinv)|].
    rewrite (level_Some _ _ _ Hv). unfold moves. simpl. lia.
  - pose proof (walk_moves_nonneg _ _ _ _ Hw) as Hpos.
    destruct (decide (coordinateToString a ∈ DistSolver.visited st)) as [Hva|Hva].
    + destruct (bfs_closed _ _ _ _ _ Hinv a b Hva ltac:(done) Hab (walk_start_ok _ _ _ _ Hw))
        as [[vb Hvb] Hle].
      destruct (IH vb Hvb Hb) as (c & Hc & Hlc).
      exists c. split; [done|].
      rewrite (level_Some _ _ _ Hvb), (level_Some _ _ _ Hv) in Hle.
      rewrite moves_cons. lia.
    + exists a. split; [by apply (bfs_pending _ _ _ _ _ Hinv)|].
      rewrite (level_Some _ _ _ Hv). rewrite moves_cons. lia.
Qed.

(** A neighbour that is left alone. *)
Lemma bfsInv_seen st lv cur seen n :
  bfsInv maze st lv (Some cur) seen →
  (passable maze n → is_Some (levelOf lv n) ∧ level lv n ≤ level lv cur + 1) →
  bfsInv maze st lv (Some cur) (n :: seen).
Proof.
  intros Hinv Hn. pose proof (bfs_cur _ _ _ _ _ Hinv) as Hcur.
  destruct Hinv. split; try done.
  intros c Hc. destruct (Hcur c Hc) as (? & ? & ? & Hseen).
  split; [done|]. split; [done|]. split; [done|].
  intros m [->|Hm]%elem_of_cons Hp; [|by apply Hseen].
  injection Hc as <-. by apply Hn.
Qed.

(** A neighbour that is queued. *)
Lemma bfsInv_push st lv cur seen n :
  bfsInv maze st lv (Some cur) seen →
  adjacent cur n → passable maze n →
  coordinateToString n ∉ DistSolver.visited st →
  bfsInv maze
    (DistSolver.mkBfs (DistSolver.queue st ++ [n]) (DistSolver.visited st)
       (<[coordinateToString n := cur]> (DistSolver.cameFrom st)))
    (<[coordinateToString n := level lv cur + 1]> lv) (Some cur) (n :: seen).
Proof.
  intros Hinv Hadj Hpass Hnv.
  destruct (bfs_cur _ _ _ _ _ Hinv cur eq_refl) as (Hcv & Hcq & Hclow & Hseen).
  destruct (bfs_visited _ _ _ _ _ Hinv _ Hcv) as (c0 & Hk & [L HL]).
  apply (inj coordinateToString) in Hk as <-.
  rewrite (level_Some _ _ _ HL) in *.
  set (lv' := <[coordinateToString n := L + 1]> lv).
  assert (cur ≠ n) as Hcn by (intros ->; done).
  assert (levelOf lv n = None ∨ levelOf lv n = Some (L + 1)) as Hn.
  { destruct (levelOf lv n) as [gn|] eqn:Hgn; [right|by left].
    assert (n ∈ DistSolver.queue st) as Hq by (by apply (bfs_pending _ _ _ _ _ Hinv)).
    specialize (Hcq n Hq). rewrite (level_Some _ _ _ Hgn) in Hcq.
    destruct (bfs_parity _ _ _ _ _ Hinv n gn Hgn) as [k1 Hk1].
    destruct (bfs_parity _ _ _ _ _ Hinv cur L HL) as [k2 Hk2].
    f_equal. unfold adjacent in Hadj. lia. }
  assert (levelOf lv' n = Some (L + 1)) as Hnew by apply lookup_insert_eq.
  assert (∀ c v, levelOf lv c = Some v → levelOf lv' c = Some v) as Hkeep.
  { intros c v Hc. destruct (decide (c = n)) as [->|Hne].
    - destruct Hn as [Hn|Hn]; congruence.
    - unfold levelOf, lv'. rewrite lookup_insert_ne; [done|]. by apply key_ne. }
  assert (∀ c v, levelOf lv' c = Some v → c = n ∧ v = L + 1 ∨ levelOf lv c = Some v)
    as Hback.
  { intros c v Hc. destruct (decide (c = n)) as [->|Hne].
    - left. split; [done|]. congruence.
    - right. unfold levelOf, lv' in Hc. rewrite lookup_insert_ne in Hc; [done|].
      by apply key_ne. }
  assert (∀ c, is_Some (levelOf lv c) → level lv' c = level lv c) as Hlevel.
  { intros c [v Hv]. by rewrite (level_Some _ _ _ Hv), (level_Some _ _ _ (Hkeep _ _ Hv)). }
  assert (level lv' n = L + 1) as Hlevn by (by apply level_Some).
  assert (∀ c, is_Some (levelOf lv c) → is_Some (levelOf lv' c)) as Hsome.
  { intros c [v Hv]. exists v. by apply Hkeep. }
  assert ((size lv ≤ size lv')%nat ∧ L + 1 < Z.of_nat (size lv')) as [Hsize HsizeL].
  { destruct (bfs_keys _ _ _ _ _ Hinv _ _ HL) as (_ & _ & _ & HLs).
    destruct Hn as [Hn|Hn].
    - unfold lv'. rewrite map_size_insert_None by done. lia.
    - unfold lv'. rewrite insert_id by done.
      destruct (bfs_keys _ _ _ _ _ Hinv _ _ Hn) as (_ & _ & _ & ?). lia. }
  assert (∀ a, a ∈ DistSolver.queue st → is_Some (levelOf lv a)) as Hql
    by apply (bfs_queue _ _ _ _ _ Hinv).
  assert (∀ c, coordinateToString c ∈ DistSolver.visited st → is_Some (levelOf lv c)) as Hvl.
  { intros c Hc. destruct (bfs_visited _ _ _ _ _ Hinv _ Hc) as (c' & Hk & Hs).
    by apply (inj coordinateToString) in Hk as <-. }
  split; cbn [DistSolver.queue DistSolver.visited DistSolver.cameFrom].
  - apply Hkeep, (bfs_start _ _ _ _ _ Hinv).
  - intros k v Hk. destruct (decide (k = coordinateToString n)) as [->|Hne].
    + exists n. split; [done|]. split; [done|].
      fold (levelOf lv' n) in Hk. assert (v = L + 1) as -> by congruence.
      destruct (bfs_keys _ _ _ _ _ Hinv _ _ HL) as (_ & _ & _ & ?). lia.
    + unfold lv' in Hk. rewrite lookup_insert_ne in Hk by done.
      destruct (bfs_keys _ _ _ _ _ Hinv _ _ Hk) as (c & -> & Hp & Hr).
      exists c. split; [done|]. split; [done|]. lia.
  - intros c v Hc. destruct (Hback c v Hc) as [[-> ->]|Hold].
    + destruct (bfs_parity _ _ _ _ _ Hinv cur L HL) as [k2 Hk2].
      unfold adjacent in Hadj.
      destruct Hadj as [[? [?|?]]|[? [?|?]]];
        [exists (k2 + 1)|exists k2|exists (k2 + 1)|exists k2]; lia.
    + by apply (bfs_parity _ _ _ _ _ Hinv).
  - intros k p Hp. destruct (decide (k = coordinateToString n)) as [->|Hne].
    + rewrite lookup_insert_eq in Hp. injection Hp as <-.
      exists n, L. split; [done|]. split; [done|]. split; [by apply Hkeep|done].
    + rewrite lookup_insert_ne in Hp by done.
      destruct (bfs_parent _ _ _ _ _ Hinv k p Hp) as (c & gp & -> & Hpc & Hgp & Hgc).
      exists c, gp. split; [done|]. split; [done|]. split; by apply Hkeep.
  - intros c v Hc. destruct (Hback c v Hc) as [[-> ->]|Hold].
    + right. rewrite lookup_insert_eq. by eexists.
    + destruct (bfs_root _ _ _ _ _ Hinv c v Hold) as [->|Hs]; [by left|right].
      apply lookup_insert_is_Some. destruct (decide (coordinateToString n = coordinateToString c));
        [by left|by right].
  - intros c [Hc| ->%list_elem_of_singleton]%elem_of_app; [by apply Hsome, Hql|by eexists].
  - apply (sorted_levels_snoc (level lv) (level lv')).
    + apply (bfs_sorted _ _ _ _ _ Hinv).
    + intros a Ha. by apply Hlevel, Hql.
    + intros a Ha. rewrite Hlevn, (Hlevel a (Hql a Ha)). apply (Hcq a Ha).
  - assert (∀ a, a ∈ DistSolver.queue st ++ [n] → L ≤ level lv' a ≤ L + 1) as Hr.
    { intros a [Ha| ->%list_elem_of_singleton]%elem_of_app; [|lia].
      rewrite (Hlevel a (Hql a Ha)). apply (Hcq a Ha). }
    intros a b Ha Hb. pose proof (Hr a Ha). pose proof (Hr b Hb). lia.
  - intros k Hk. destruct (bfs_visited _ _ _ _ _ Hinv _ Hk) as (c & -> & Hs).
    exists c. split; [done|]. by apply Hsome.
  - intros c a Hc [Ha| ->%list_elem_of_singleton]%elem_of_app.
    + rewrite (Hlevel c (Hvl c Hc)), (Hlevel a (Hql a Ha)).
      by apply (bfs_low _ _ _ _ _ Hinv).
    + rewrite Hlevn, (Hlevel c (Hvl c Hc)). specialize (Hclow c Hc). lia.
  - intros c [v Hc] Hcv'. apply elem_of_app.
    destruct (Hback c v Hc) as [[-> ->]|Hold]; [right; by apply list_elem_of_singleton|left].
    apply (bfs_pending _ _ _ _ _ Hinv); [by eexists|done].
  - intros c m Hc Hne Hcm Hm.
    destruct (bfs_closed _ _ _ _ _ Hinv c m Hc Hne Hcm Hm) as [Hs Hle].
    split; [by apply Hsome|]. by rewrite (Hlevel m Hs), (Hlevel c (Hvl c Hc)).
  - apply (bfs_end _ _ _ _ _ Hinv).
  - intros c [= <-]. split; [done|].
    rewrite (Hlevel cur (Hvl cur Hcv)), (level_Some _ _ _ HL).
    split; [|split].
    + intros a [Ha| ->%list_elem_of_singleton]%elem_of_app; [|lia].
      rewrite (Hlevel a (Hql a Ha)). apply (Hcq a Ha).
    + intros c' Hc'. rewrite (Hlevel c' (Hvl c' Hc')). by apply Hclow.
    + intros m [->|Hm]%elem_of_cons Hp.
      * split; [by eexists|lia].
      * destruct (Hseen m Hm Hp) as [Hs Hle]. split; [by apply Hsome|].
        by rewrite (Hlevel m Hs).
Qed.

(** One neighbour. *)
Lemma visitNeighbor_inv st lv cur seen n :
  bfsInv maze st lv (Some cur) seen → adjacent cur n →
  ∃ lv',
    bfsInv maze (DistSolver.visitNeighbor maze cur st n) lv' (Some cur) (n :: seen) ∧
    (length (DistSolver.queue (DistSolver.visitNeighbor maze cur st n))
     ≤ S (length (DistSolver.queue st)))%nat ∧
    DistSolver.visited (DistSolver.visitNeighbor maze cur st n) = DistSolver.visited st.
Proof.
  intros Hinv Hadj. unfold DistSolver.visitNeighbor.
  destruct (bfs_cur _ _ _ _ _ Hinv cur eq_refl) as (Hcv & Hcq & Hclow & Hseen).
  destruct (decide (coordinateToString n ∈ DistSolver.visited st)) as [Hv|Hnv].
  - rewrite bool_decide_eq_true_2 by done. cbn [negb andb].
    exists lv. split; [|split; [lia|done]].
    apply bfsInv_seen; [done|]. intros _.
    destruct (bfs_visited _ _ _ _ _ Hinv _ Hv) as (c & Hk & Hs).
    apply (inj coordinateToString) in Hk as <-. split; [done|].
    specialize (Hclow n Hv). lia.
  - rewrite bool_decide_eq_false_2 by done. cbn [negb andb].
    destruct (isValidMove maze n) eqn:Hp.
    + eexists. split; [by apply bfsInv_push|]. cbn [DistSolver.queue DistSolver.visited].
      rewrite length_app. simpl. split; [lia|done].
    + exists lv. split; [|split; [lia|done]].
      apply bfsInv_seen; [done|]. unfold passable. congruence.
Qed.

(** All the neighbours. *)
Lemma visitNeighbors_inv cur ns : ∀ st lv seen,
  bfsInv maze st lv (Some cur) seen → (∀ n, n ∈ ns → adjacent cur n) →
  ∃ lv',
    bfsInv maze (foldl (DistSolver.visitNeighbor maze cur) st ns) lv' (Some cur)
           (reverse ns ++ seen) ∧
    (length (DistSolver.queue (foldl (DistSolver.visitNeighbor maze cur) st ns))
     ≤ length (DistSolver.queue st) + length ns)%nat ∧
    DistSolver.visited (foldl (DistSolver.visitNeighbor maze cur) st ns)
    = DistSolver.visited st.
Proof.
  induction ns as [|n ns IH]; intros st lv seen Hinv Hadj.
  - exists lv. simpl. split; [done|]. split; [lia|done].
  - destruct (visitNeighbor_inv st lv cur seen n Hinv) as (lv1 & Hinv1 & Hlen1 & Hvis1).
    { apply Hadj. by left. }
    destruct (IH _ lv1 (n :: seen) Hinv1) as (lv2 & Hinv2 & Hlen2 & Hvis2).
    { intros m Hm. apply Hadj. by right. }
    exists lv2. cbn [foldl]. rewrite reverse_cons, <- app_assoc.
    split; [done|]. split; [simpl; lia|congruence].
Qed.

(** Once all its neighbours are handled, the cell is closed. *)
Lemma bfsInv_close st lv cur seen :
  bfsInv maze st lv (Some cur) seen → (∀ n, adjacent cur n → n ∈ seen) →
  bfsInv maze st lv None [].
Proof.
  intros Hinv Hall.
  destruct (bfs_cur _ _ _ _ _ Hinv cur eq_refl) as (Hcv & Hcq & Hclow & Hseen).
  pose proof (bfs_closed _ _ _ _ _ Hinv) as Hclosed.
  destruct Hinv. split; try done.
  intros c n Hc _ Hcn Hn. destruct (decide (c = cur)) as [->|Hne].
  - apply Hseen; [by apply Hall|done].
  - apply Hclosed; [done|congruence|done..].
Qed.

(** The head of the queue, not visited yet, is taken. *)
Lemma bfsInv_visit st lv cur rest :
  bfsInv maze st lv None [] → DistSolver.queue st = cur :: rest →
  coordinateToString cur ∉ DistSolver.visited st → cur ≠ getEnd maze →
  bfsInv maze
    (DistSolver.mkBfs rest ({[coordinateToString cur]} ∪ DistSolver.visited st)
                      (DistSolver.cameFrom st))
    lv (Some cur) [].
Proof.
  intros Hinv Hq Hnv Hne.
  pose proof (bfs_sorted _ _ _ _ _ Hinv) as Hsorted. rewrite Hq in Hsorted.
  apply StronglySorted_inv in Hsorted as [Hsorted Hhead].
  rewrite Forall_forall in Hhead.
  assert (cur ∈ DistSolver.queue st) as Hcur by (rewrite Hq; by left).
  assert (∀ a, a ∈ rest → a ∈ DistSolver.queue st) as Hrest
    by (intros a Ha; rewrite Hq; by right).
  assert (∀ c, coordinateToString c ∈
               ({[coordinateToString cur]} ∪ DistSolver.visited st : gset string) ↔
               c = cur ∨ coordinateToString c ∈ DistSolver.visited st) as Hvis.
  { intros c. rewrite elem_of_union, elem_of_singleton. split.
    - intros [H%(inj coordinateToString)|H]; [by left|by right].
    - intros [->|H]; [by left|by right]. }
  split; cbn [DistSolver.queue DistSolver.visited DistSolver.cameFrom].
  - apply (bfs_start _ _ _ _ _ Hinv).
  - apply (bfs_keys _ _ _ _ _ Hinv).
  - apply (bfs_parity _ _ _ _ _ Hinv).
  - apply (bfs_parent _ _ _ _ _ Hinv).
  - apply (bfs_root _ _ _ _ _ Hinv).
  - intros c Hc. by apply (bfs_queue _ _ _ _ _ Hinv), Hrest.
  - done.
  - intros a b Ha Hb. apply (bfs_range _ _ _ _ _ Hinv); by apply Hrest.
  - intros k [->%elem_of_singleton|Hk]%elem_of_union.
    + exists cur. split; [done|]. by apply (bfs_queue _ _ _ _ _ Hinv).
    + by apply (bfs_visited _ _ _ _ _ Hinv).
  - intros c a [->|Hc]%Hvis Ha; [by apply Hhead|].
    apply (bfs_low _ _ _ _ _ Hinv); [done|by apply Hrest].
  - intros c Hs Hc.
    assert (c ≠ cur ∧ coordinateToString c ∉ DistSolver.visited st) as [Hcc Hcv].
    { split; intros H; apply Hc, Hvis; tauto. }
    pose proof (bfs_pending _ _ _ _ _ Hinv c Hs Hcv) as Hin.
    rewrite Hq in Hin. by apply elem_of_cons in Hin as [?|?].
  - intros c n [->|Hc]%Hvis Hcc Hcn Hn; [done|].
    by apply (bfs_closed _ _ _ _ _ Hinv).
  - intros [H|H]%Hvis; [done|]. by apply (bfs_end _ _ _ _ _ Hinv).
  - intros c [= <-]. split; [apply Hvis; by left|]. split; [|split].
    + intros a Ha. split; [by apply Hhead|].
      apply (bfs_range _ _ _ _ _ Hinv); [done|by apply Hrest].
    + intros c' [->|Hc']%Hvis; [lia|]. by apply (bfs_low _ _ _ _ _ Hinv).
    + intros n Hn. by apply elem_of_nil in Hn.
Qed.

(** The head of the queue, visited before, is dropped. *)
Lemma bfsInv_skip st lv cur rest :
  bfsInv maze st lv None [] → DistSolver.queue st = cur :: rest →
  coordinateToString cur ∈ DistSolver.visited st →
  bfsInv maze (DistSolver.mkBfs rest (DistSolver.visited st) (DistSolver.cameFrom st))
         lv None [].
Proof.
  intros Hinv Hq Hv.
  pose proof (bfs_sorted _ _ _ _ _ Hinv) as Hsorted. rewrite Hq in Hsorted.
  apply StronglySorted_inv in Hsorted as [Hsorted _].
  assert (∀ a, a ∈ rest → a ∈ DistSolver.queue st) as Hrest
    by (intros a Ha; rewrite Hq; by right).
  split; cbn [DistSolver.queue DistSolver.visited DistSolver.cameFrom].
  - apply (bfs_start _ _ _ _ _ Hinv).
  - apply (bfs_keys _ _ _ _ _ Hinv).
  - apply (bfs_parity _ _ _ _ _ Hinv).
  - apply (bfs_parent _ _ _ _ _ Hinv).
  - apply (bfs_root _ _ _ _ _ Hinv).
  - intros c Hc. by apply (bfs_queue _ _ _ _ _ Hinv), Hrest.
  - done.
  - intros a b Ha Hb. apply (bfs_range _ _ _ _ _ Hinv); by apply Hrest.
  - apply (bfs_visited _ _ _ _ _ Hinv).
  - intros c a Hc Ha. apply (bfs_low _ _ _ _ _ Hinv); [done|by apply Hrest].
  - intros c Hs Hc. pose proof (bfs_pending _ _ _ _ _ Hinv c Hs Hc) as Hin.
    rewrite Hq in Hin. apply elem_of_cons in Hin as [->|?]; done.
  - apply (bfs_closed _ _ _ _ _ Hinv).
  - apply (bfs_end _ _ _ _ _ Hinv).
  - done.
Qed.

(** ** The rounds of the loop *)

Lemma unvisited_same st st' :
  DistSolver.visited st' = DistSolver.visited st →
  sum_list (unvisited st' <$> allCells maze) = sum_list (unvisited st <$> allCells maze).
Proof.
  intros Hv. apply sum_list_fmap_ext. intros c _. unfold unvisited. by rewrite Hv.
Qed.

Lemma unvisited_visit st cur rest :
  passable maze cur → coordinateToString cur ∉ DistSolver.visited st →
  (sum_list (unvisited
               (DistSolver.mkBfs rest ({[coordinateToString cur]} ∪ DistSolver.visited st)
                                 (DistSolver.cameFrom st)) <$> allCells maze)
   < sum_list (unvisited st <$> allCells maze))%nat.
Proof.
  intros Hp Hnv. apply (sum_list_fmap_decrease _ _ _ cur).
  - apply NoDup_allCells.
  - by apply passable_allCells.
  - intros a Ha. unfold unvisited. cbn [DistSolver.visited].
    destruct (decide (coordinateToString a ∈ DistSolver.visited st)) as [Hin|Hin].
    + rewrite decide_True; [done|]. by apply elem_of_union_r.
    + rewrite decide_False; [done|].
      intros [H%elem_of_singleton|H]%elem_of_union; [|done].
      by apply (inj coordinateToString) in H.
  - unfold unvisited. cbn [DistSolver.visited].
    rewrite decide_True by (apply elem_of_union_l; by apply elem_of_singleton).
    rewrite decide_False by done. lia.
Qed.

Lemma bfs_whileBody_round st lv :
  bfsInv maze st lv None [] →
  ∃ r, DistSolver.whileBody maze st = Ok r ∧
       match r with
       | inl (Some p) => solution maze p ∧ ∀ q, solution maze q → moves p ≤ moves q
       | inl None => ∀ q, ¬ solution maze q
       | inr st' => (∃ lv', bfsInv maze st' lv' None []) ∧
                    (bfsMeasure maze st' < bfsMeasure maze st)%nat
       end.
Proof.
  intros Hinv. unfold DistSolver.whileBody.
  destruct (DistSolver.queue st) as [|cur rest] eqn:Hq.
  - exists (inl None). split; [done|]. intros q Hsol.
    destruct (bfs_entry st lv _ _ _ 0 Hinv Hsol (bfs_start _ _ _ _ _ Hinv)
                (bfs_end _ _ _ _ _ Hinv)) as (c & Hc & _).
    rewrite Hq in Hc. by apply elem_of_nil in Hc.
  - assert (cur ∈ DistSolver.queue st) as Hcur by (rewrite Hq; by left).
    destruct (bfs_queue _ _ _ _ _ Hinv cur Hcur) as [v Hv].
    destruct ((x cur =? x (getEnd maze)) && (y cur =? y (getEnd maze))) eqn:Hend.
    + apply same_coordinate in Hend as ->.
      destruct (buildPath_walk maze (levelled st lv) (getEnd maze) v
                  (bfsInv_sound _ _ _ _ Hinv) Hv) as (p & Hp & Hw & Hm).
      unfold DistSolver.reconstructPath. unfold buildPath in Hp. cbn [levelled parentMap] in Hp.
      rewrite Hp. exists (inl (Some p)). split; [done|]. split; [done|].
      intros q Hsol.
      destruct (bfs_entry st lv _ _ _ 0 Hinv Hsol (bfs_start _ _ _ _ _ Hinv)
                  (bfs_end _ _ _ _ _ Hinv)) as (c & Hc & Hle).
      pose proof (bfs_sorted _ _ _ _ _ Hinv) as Hsorted. rewrite Hq in Hsorted, Hc.
      apply StronglySorted_inv in Hsorted as [_ Hhead]. rewrite Forall_forall in Hhead.
      assert (level lv (getEnd maze) ≤ level lv c) as Hmin.
      { apply elem_of_cons in Hc as [->|Hc]; [lia|by apply Hhead]. }
      rewrite (level_Some _ _ _ Hv) in Hmin. lia.
    + assert (cur ≠ getEnd maze) as Hne.
      { intros ->. rewrite (proj2 (same_coordinate _ _)) in Hend; done. }
      destruct (decide (coordinateToString cur ∈ DistSolver.visited st)) as [Hvis|Hvis].
      * rewrite bool_decide_eq_true_2 by done. eexists. split; [done|]. split.
        -- exists lv. by apply (bfsInv_skip st lv cur rest).
        -- unfold bfsMeasure. rewrite Hq. cbn [DistSolver.queue length].
           rewrite (unvisited_same st (DistSolver.mkBfs rest (DistSolver.visited st)
                                                           (DistSolver.cameFrom st)) eq_refl).
           lia.
      * rewrite bool_decide_eq_false_2 by done.
        pose proof (bfsInv_visit st lv cur rest Hinv Hq Hvis Hne) as Hinv1.
        destruct (visitNeighbors_inv cur (getNeighbors cur) _ lv [] Hinv1)
          as (lv' & Hinv' & Hlen & Hvis').
        { intros n. apply adjacent_getNeighbors. }
        destruct (bfs_keys _ _ _ _ _ Hinv _ _ Hv) as (c & Hk & Hp & _).
        apply (inj coordinateToString) in Hk as <-.
        pose proof (unvisited_visit st cur rest Hp Hvis) as Hdec.
        apply unvisited_same in Hvis'.
        cbn [DistSolver.queue] in Hlen.
        change (length (getNeighbors cur)) with 4%nat in Hlen.
        match goal with |- context [foldl ?f ?s ?l] => set (st' := foldl f s l) in * end.
        exists (inr st'). split; [done|]. split.
        -- exists lv'. apply (bfsInv_close _ _ cur _ Hinv').
           intros n Hn. rewrite app_nil_r. apply elem_of_reverse.
           by apply adjacent_getNeighbors.
        -- unfold bfsMeasure. rewrite Hq. cbn [length]. lia.
Qed.

Lemma bfs_whileQueue_result fuel : ∀ st lv,
  bfsInv maze st lv None [] → (bfsMeasure maze st < fuel)%nat →
  ∃ r, DistSolver.whileQueue fuel maze st = Ok r ∧
       match r with
       | Some p => solution maze p ∧ ∀ q, solution maze q → moves p ≤ moves q
       | None => ∀ q, ¬ solution maze q
       end.
Proof.
  induction fuel as [|fuel IH]; intros st lv Hinv Hm; [lia|].
  cbn [DistSolver.whileQueue].
  destruct (bfs_whileBody_round st lv Hinv) as (r & -> & Hr). simpl.
  destruct r as [[p|]|st'].
  - by exists (Some p).
  - by exists None.
  - destruct Hr as [[lv' Hinv'] Hm']. apply (IH st' lv' Hinv'). lia.
Qed.

Hypothesis start_ok : passable maze (getStart maze).

Lemma bfsInv_initial :
  bfsInv maze (DistSolver.mkBfs [getStart maze] ∅ ∅)
         {[coordinateToString (getStart maze) := 0]} None [].
Proof.
  assert (∀ c v, levelOf {[coordinateToString (getStart maze) := 0]} c = Some v →
                 c = getStart maze ∧ v = 0) as Hone.
  { intros c v Hc. unfold levelOf in Hc.
    apply lookup_singleton_Some in Hc as [H1 H2].
    by apply (inj coordinateToString) in H1. }
  split; cbn [DistSolver.queue DistSolver.visited DistSolver.cameFrom].
  - apply lookup_singleton_eq.
  - intros k v [<- <-]%lookup_singleton_Some. exists (getStart maze).
    split; [done|]. split; [done|]. rewrite map_size_singleton. lia.
  - intros c v [-> ->]%Hone. exists (x (getStart maze) + y (getStart maze)). lia.
  - intros k p Hp. by rewrite lookup_empty in Hp.
  - intros c v [-> _]%Hone. by left.
  - intros c ->%list_elem_of_singleton. eexists. apply lookup_singleton_eq.
  - repeat constructor.
  - intros a b ->%list_elem_of_singleton ->%list_elem_of_singleton. lia.
  - intros k Hk. by apply elem_of_empty in Hk.
  - intros c a Hc. by apply elem_of_empty in Hc.
  - intros c [v [-> _]%Hone] _. by left.
  - intros c n Hc. by apply elem_of_empty in Hc.
  - apply not_elem_of_empty.
  - done.
Qed.

Lemma bfsMeasure_initial :
  (bfsMeasure maze (DistSolver.mkBfs [getStart maze] ∅ ∅)
   < DistSolver.findPathFuel maze)%nat.
Proof.
  unfold bfsMeasure, DistSolver.findPathFuel. cbn [DistSolver.queue length].
  pose proof (sum_list_fmap_bound (unvisited (DistSolver.mkBfs [getStart maze] ∅ ∅))
                (allCells maze) 1) as Hsum.
  rewrite length_allCells in Hsum.
  assert (∀ c, unvisited (DistSolver.mkBfs [getStart maze] ∅ ∅) c ≤ 1)%nat as Hw.
  { intros c. unfold unvisited. destruct (decide _); lia. }
  specialize (Hsum Hw). lia.
Qed.

(** The compiled [findPath] returns, and what it returns is right. *)
Lemma bfs_findPath_result :
  ∃ r, DistSolver.findPath maze = Ok r ∧
       match r with
       | Some p => solution maze p ∧ ∀ q, solution maze q → moves p ≤ moves q
       | None => ∀ q, ¬ solution maze q
       end.
Proof.
  unfold DistSolver.findPath.
  apply (bfs_whileQueue_result _ _ _ bfsInv_initial bfsMeasure_initial).
Qed.
End Bfs.

(** X22. The compiled breadth-first solver is right: on a grid whose
    entrance is a passable cell, its [findPath] returns a path from the
    entrance to the exit through passable cells that no path between them
    undercuts in moves, or it returns [null] and there is no such path; it
    always returns. *)
Theorem bfs_findPath_shortest maze :
  passable maze (getStart maze) →
  match DistSolver.findPath maze with
  | Ok (Some p) => solution maze p ∧ ∀ q, solution maze q → moves p ≤ moves q
  | Ok None => ∀ q, ¬ solution maze q
  | _ => False
  end.
Proof.
  intros Hs. destruct (bfs_findPath_result maze Hs) as (r & -> & Hr).
  by destruct r.
Qed.

Lemma bfs_findPath_shortest_witness :
  match DistSolver.findPath exampleMaze with
  | Ok (Some p) => solution exampleMaze p ∧ ∀ q, solution exampleMaze q → moves p ≤ moves q
  | Ok None => ∀ q, ¬ solution exampleMaze q
  | _ => False
  end.
Proof.
  apply (bfs_findPath_shortest exampleMaze).
  vm_compute. reflexivity.
Defined.

(** X23. The two solvers agree: on a grid whose entrance is a passable cell,
    the breadth-first [findPath] and the A-star [findPath] both return a
    path, and the two paths have the same number of moves, or both return
    [null]. *)
Theorem solvers_agree maze :
  passable maze (getStart maze) →
  match DistSolver.findPath maze, findPath maze with
  | Ok (Some p), Ok (Some p') => moves p = moves p'
  | Ok None, Ok None => True
  | _, _ => False
  end.
Proof.
  intros Hs. destruct (bfs_findPath_result maze Hs) as (r & -> & Hr).
  destruct (findPathTrace_result maze Hs) as (r' & st & Htrace & Hr').
  assert (findPath maze = Ok r') as -> by (apply findPath_trace; eauto).
  destruct r as [p|], r' as [p'|].
  - destruct Hr as [Hp Hmin], Hr' as [Hp' Hmin'].
    specialize (Hmin p' Hp'). specialize (Hmin' p Hp). lia.
  - destruct Hr as [Hp _], Hr' as [_ Hno]. by destruct (Hno p).
  - destruct Hr' as [Hp' _]. by destruct (Hr p').
  - done.
Qed.

Lemma solvers_agree_witness :
  match DistSolver.findPath exampleMaze, findPath exampleMaze with
  | Ok (Some p), Ok (Some p') => moves p = moves p'
  | Ok None, Ok None => True
  | _, _ => False
  end.
Proof.
  apply (solvers_agree exampleMaze).
  vm_compute. reflexivity.
Defined.

(** * Passages without loops *)

(** ** Walks in a forest *)

Lemma walk_restrict (ok ok' : Coordinate → Prop) a l b :
  walk ok a l b → (∀ c, c ∈ l → ok' c) → walk ok' a l b.
Proof.
  induction 1 as [a Ha|a b l c Ha Hab Hw IH]; intros Hl.
  - apply walk_one. apply Hl. by left.
  - apply walk_step with b; [apply Hl; by left|done|].
    apply IH. intros c' Hc'. apply Hl. by right.
Qed.

Lemma walk_end_elem ok a l b : walk ok a l b → a ∈ l ∧ b ∈ l.
Proof.
  induction 1 as [a Ha|a b l c Ha Hab Hw [IH1 IH2]].
  - split; by left.
  - split; [by left|by right].
Qed.

(** A cell strictly inside a walk without repetition has two different
    neighbours on it. *)
Lemma walk_inside ok a l b v :
  walk ok a l b → NoDup l → a ≠ v → b ≠ v → v ∈ l →
  ∃ u1 u2, u1 ≠ u2 ∧ u1 ∈ l ∧ u2 ∈ l ∧ u1 ≠ v ∧ u2 ≠ v ∧
           adjacent u1 v ∧ adjacent u2 v.
Proof.
  induction 1 as [a Ha|a c l b Ha Hac Hw IH]; intros Hnd Hav Hbv Hv.
  - apply list_elem_of_singleton in Hv. congruence.
  - apply NoDup_cons in Hnd as [Hal Hnd].
    apply elem_of_cons in Hv as [?|Hv]; [congruence|].
    destruct (decide (c = v)) as [->|Hcv].
    + inversion Hw as [? ? |? c' l' ? _ Hvc' Hw']; subst; [done|].
      destruct (walk_end_elem _ _ _ _ Hw') as [Hc' _].
      apply NoDup_cons in Hnd as [Hvl' _].
      exists a, c'. split; [intros ->; apply Hal; by right|].
      split; [by left|]. split; [by right; right|].
      split; [done|]. split; [intros ->; done|].
      split; [done|by apply adjacent_sym].
    + destruct (IH Hnd Hcv Hbv Hv) as (u1 & u2 & Hne & H1 & H2 & ? & ? & ? & ?).
      exists u1, u2. split; [done|]. split; [by right|]. split; [by right|done].
Qed.

Lemma earlierUnique_snoc order v :
  earlierUnique (order ++ [v]) →
  earlierUnique order ∧
  ∀ a b, a ∈ order → b ∈ order → adjacent a v → adjacent b v → a = b.
Proof.
  intros H. split.
  - intros i c a b Hc Ha Hb. pose proof (lookup_lt_Some _ _ _ Hc) as Hlt.
    apply (H i c a b).
    + by rewrite lookup_app_l.
    + rewrite take_app_le by lia. done.
    + rewrite take_app_le by lia. done.
  - intros a b Ha Hb. apply (H (length order) v a b).
    + by rewrite lookup_app_r, Nat.sub_diag by lia.
    + by rewrite take_app_length.
    + by rewrite take_app_length.
Qed.

Lemma earlierUnique_snoc_2 order v :
  earlierUnique order →
  (∀ a b, a ∈ order → b ∈ order → adjacent a v → adjacent b v → a = b) →
  earlierUnique (order ++ [v]).
Proof.
  intros H Hv i c a b Hc Ha Hb.
  destruct (decide (i < length order)%nat) as [Hlt|Hge].
  - rewrite lookup_app_l in Hc by done. rewrite take_app_le in Ha, Hb by lia.
    by apply (H i c a b).
  - pose proof (lookup_lt_Some _ _ _ Hc) as Hlt. rewrite length_app in Hlt. simpl in Hlt.
    assert (i = length order) as -> by lia.
    rewrite lookup_app_r, Nat.sub_diag in Hc by lia. injection Hc as <-.
    rewrite take_app_length in Ha, Hb. by apply Hv.
Qed.

(** In a forest, two walks without repetition between the same two cells are
    the same walk. *)
Lemma forest_unique_walk order :
  NoDup order → earlierUnique order →
  ∀ a b p q,
    walk (λ c, c ∈ order) a p b → NoDup p →
    walk (λ c, c ∈ order) a q b → NoDup q → p = q.
Proof.
  induction order as [|v order IH] using rev_ind; intros Hnd Heu a b p q Hp Hpn Hq Hqn.
  { apply walk_start_ok in Hp. by apply elem_of_nil in Hp. }
  apply NoDup_app in Hnd as (Hnd & Hv & _).
  assert (v ∉ order) as Hvo by (intros H; apply (Hv v H); by left).
  apply earlierUnique_snoc in Heu as [Heu Hone].
  specialize (IH Hnd Heu).
  assert (∀ c, c ∈ order ++ [v] → c ≠ v → c ∈ order) as Hold.
  { intros c [H|H%list_elem_of_singleton]%elem_of_app; done. }
  (* walks that avoid [v] are walks of the smaller forest *)
  assert (∀ a b p q,
            walk (λ c, c ∈ order ++ [v]) a p b → NoDup p → v ∉ p →
            walk (λ c, c ∈ order ++ [v]) a q b → NoDup q → v ∉ q → p = q) as Havoid.
  { intros a' b' p' q' Hp' Hpn' Hvp Hq' Hqn' Hvq. apply (IH a' b'); [|done| |done].
    - apply (walk_restrict _ _ _ _ _ Hp'). intros c Hc. apply Hold.
      + by apply (proj1 (Forall_forall _ _) (walk_Forall _ _ _ _ Hp')).
      + intros ->. done.
    - apply (walk_restrict _ _ _ _ _ Hq'). intros c Hc. apply Hold.
      + by apply (proj1 (Forall_forall _ _) (walk_Forall _ _ _ _ Hq')).
      + intros ->. done. }
  (* a walk without repetition holds [v] at an end only *)
  assert (∀ a b p, walk (λ c, c ∈ order ++ [v]) a p b → NoDup p →
                   a ≠ v → b ≠ v → v ∉ p) as Hends.
  { intros a' b' p' Hp' Hpn' Ha' Hb' Hin.
    destruct (walk_inside _ _ _ _ _ Hp' Hpn' Ha' Hb' Hin)
      as (u1 & u2 & Hne & H1 & H2 & Hu1 & Hu2 & Had1 & Had2).
    apply Hne, Hone; [|  |done..].
    - apply Hold; [|done]. by apply (proj1 (Forall_forall _ _) (walk_Forall _ _ _ _ Hp')).
    - apply Hold; [|done]. by apply (proj1 (Forall_forall _ _) (walk_Forall _ _ _ _ Hp')). }
  (* walks that start at [v] *)
  assert (∀ b p q,
            walk (λ c, c ∈ order ++ [v]) v p b → NoDup p →
            walk (λ c, c ∈ order ++ [v]) v q b → NoDup q → p = q) as Hfrom.
  { intros b' p' q' Hp' Hpn' Hq' Hqn'.
    inversion Hp' as [? ? |? c l ? _ Hvc Hw]; subst.
    - inversion Hq' as [? ? |? c' l' ? _ Hvc' Hw']; subst; [done|].
      destruct (walk_end_elem _ _ _ _ Hw') as [_ Hin].
      by apply NoDup_cons in Hqn' as [? _].
    - inversion Hq' as [? ? |? c' l' ? _ Hvc' Hw']; subst.
      + destruct (walk_end_elem _ _ _ _ Hw) as [_ Hin].
        by apply NoDup_cons in Hpn' as [? _].
      + apply NoDup_cons in Hpn' as [Hvl Hln]. apply NoDup_cons in Hqn' as [Hvl' Hln'].
        destruct (walk_end_elem _ _ _ _ Hw) as [Hc _].
        destruct (walk_end_elem _ _ _ _ Hw') as [Hc' _].
        assert (c = c') as <-.
        { apply Hone; [| |by apply adjacent_sym..].
          - apply Hold; [by apply (walk_start_ok _ _ _ _ Hw)|]. by intros ->.
          - apply Hold; [by apply (walk_start_ok _ _ _ _ Hw')|]. by intros ->. }
        f_equal. by apply (Havoid c b'). }
  destruct (decide (a = v)) as [->|Hav]; [by apply (Hfrom b)|].
  destruct (decide (b = v)) as [->|Hbv].
  - apply (inj reverse). apply (Hfrom a).
    + by apply walk_reverse.
    + by rewrite reverse_Permutation.
    + by apply walk_reverse.
    + by rewrite reverse_Permutation.
  - apply (Havoid a b); [done|done|by apply (Hends a b)|done|done|by apply (Hends a b)].
Qed.

(** ** The carving makes a tree *)

Lemma room_neighbor c a :
  room c → adjacent a c → ∃ p q, joins a p q ∧ (p = c ∨ q = c).
Proof.
  intros [[i Hi] [j Hj]] Hadj. destruct a as [ax ay], c as [cx cy]; simpl in *.
  unfold adjacent in Hadj; simpl in Hadj.
  destruct Hadj as [[Hy [Hx|Hx]]|[Hx [Hy|Hy]]].
  - exists (mkCoordinate (ax - 1) ay), (mkCoordinate (ax + 1) ay). split.
    + left. simpl. split; [exists i; lia|]. split; [exists j; lia|done].
    + right. f_equal; lia.
  - exists (mkCoordinate (ax - 1) ay), (mkCoordinate (ax + 1) ay). split.
    + left. simpl. split; [exists (i + 1); lia|]. split; [exists j; lia|done].
    + left. f_equal; lia.
  - exists (mkCoordinate ax (ay - 1)), (mkCoordinate ax (ay + 1)). split.
    + right. simpl. split; [exists i; lia|]. split; [exists j; lia|done].
    + right. f_equal; lia.
  - exists (mkCoordinate ax (ay - 1)), (mkCoordinate ax (ay + 1)). split.
    + right. simpl. split; [exists i; lia|]. split; [exists (j + 1); lia|done].
    + left. f_equal; lia.
Qed.

Lemma joins_neighbor l a b n :
  joins l a b → adjacent n l → n = a ∨ n = b ∨ (Z.Even (x n) ∧ Z.Even (y n)).
Proof.
  intros Hj Hadj. destruct n as [nx ny], l as [lx ly]; simpl in *.
  unfold adjacent in Hadj; simpl in Hadj.
  destruct Hj as [([i Hi] & [j Hj] & -> & ->)|([i Hi] & [j Hj] & -> & ->)]; simpl in *.
  - destruct Hadj as [[Hy [Hx|Hx]]|[Hx [Hy|Hy]]].
    + left. f_equal; lia.
    + right; left. f_equal; lia.
    + right; right. split; [exists i; lia|exists j; lia].
    + right; right. split; [exists i; lia|exists (j + 1); lia].
  - destruct Hadj as [[Hy [Hx|Hx]]|[Hx [Hy|Hy]]].
    + right; right. split; [exists i; lia|exists j; lia].
    + right; right. split; [exists (i + 1); lia|exists j; lia].
    + left. f_equal; lia.
    + right; left. f_equal; lia.
Qed.

Lemma joins_unique l a b a' b' : joins l a b → joins l a' b' → a = a' ∧ b = b'.
Proof.
  intros [(He & Ho & -> & ->)|(Ho & He & -> & ->)] [(He' & Ho' & -> & ->)|(Ho' & He' & -> & ->)];
    try done.
  - destruct (Z.Even_Odd_False _ He Ho').
  - destruct (Z.Even_Odd_False _ He' Ho).
Qed.

Lemma joins_not_room l a b : joins l a b → ¬ room l.
Proof.
  intros [(He & _)|(_ & He & _)] [Hx Hy].
  - destruct (Z.Even_Odd_False _ He Hx).
  - destruct (Z.Even_Odd_False _ He Hy).
Qed.

(** The cell between a room and the room two steps further. *)
Lemma step_joins coord dx dy :
  room coord →
  (dx = 0 ∧ (dy = 1 ∨ dy = -1)) ∨ (dy = 0 ∧ (dx = 1 ∨ dx = -1)) →
  room (mkCoordinate (x coord + dx * 2) (y coord + dy * 2)) ∧
  ∃ a b, joins (mkCoordinate (x coord + dx) (y coord + dy)) a b ∧
         ((a = coord ∧ b = mkCoordinate (x coord + dx * 2) (y coord + dy * 2)) ∨
          (b = coord ∧ a = mkCoordinate (x coord + dx * 2) (y coord + dy * 2))).
Proof.
  intros [[i Hi] [j Hj]] Hd. destruct coord as [cx cy]; simpl in *. split.
  - split; simpl; [exists (i + dx); lia|exists (j + dy); lia].
  - destruct Hd as [[-> [-> | ->]]|[-> [-> | ->]]].
    + exists (mkCoordinate cx cy), (mkCoordinate cx (cy + 2)). split.
      * right. simpl. split; [exists i; lia|]. split; [exists (j + 1); lia|].
        split; f_equal; lia.
      * left. split; f_equal; lia.
    + exists (mkCoordinate cx (cy - 2)), (mkCoordinate cx cy). split.
      * right. simpl. split; [exists i; lia|]. split; [exists j; lia|].
        split; f_equal; lia.
      * right. split; f_equal; lia.
    + exists (mkCoordinate cx cy), (mkCoordinate (cx + 2) cy). split.
      * left. simpl. split; [exists (i + 1); lia|]. split; [exists j; lia|].
        split; f_equal; lia.
      * left. split; f_equal; lia.
    + exists (mkCoordinate (cx - 2) cy), (mkCoordinate cx cy). split.
      * left. simpl. split; [exists i; lia|]. split; [exists j; lia|].
        split; f_equal; lia.
      * right. split; f_equal; lia.
Qed.

Section Tree.
Import MazeGenerator.

Lemma treeInv_crossing st order pend c :
  treeInv st order pend → c ∈ order → ¬ (Z.Even (x c) ∧ Z.Even (y c)).
Proof.
  intros Ht Hc [Hx Hy].
  destruct (tree_cells _ _ _ Ht c Hc) as [[Hox _]|(a & b & Hj & _)].
  - destruct (Z.Even_Odd_False _ Hx Hox).
  - destruct Hj as [(_ & Ho & _)|(Ho & _)].
    + destruct (Z.Even_Odd_False _ Hy Ho).
    + destruct (Z.Even_Odd_False _ Hx Ho).
Qed.

(** A room that is not carved has no carved neighbour, once every carved
    joint has its two rooms. *)
Lemma treeInv_wall_room st order c a :
  treeInv st order None → room c → c ∉ order → a ∈ order → ¬ adjacent a c.
Proof.
  intros Ht Hroom Hc Ha Hadj.
  destruct (room_neighbor c a Hroom Hadj) as (p & q & Hj & Hpq).
  destruct (tree_cells _ _ _ Ht a Ha) as [Hra|(p' & q' & Hj' & Hp' & Hq')].
  - by destruct (joins_not_room _ _ _ Hj).
  - destruct (joins_unique _ _ _ _ _ Hj Hj') as [<- <-].
    destruct Hp' as [Hp'|?]; [|done]. destruct Hq' as [Hq'|?]; [|done].
    destruct Hpq as [->| ->]; done.
Qed.

Lemma treeInv_same st st' order pend :
  mazeArray st' = mazeArray st → treeInv st order pend → treeInv st' order pend.
Proof.
  intros Hm Ht. destruct Ht. split; try done.
  intros c. rewrite (openCell_same st st' c Hm). done.
Qed.

(** Carving the cell between [coord] and the room [new]. *)
Lemma treeInv_joint st st1 order coord mid new :
  treeInv st order None →
  room new → new ∉ order → coord ∈ order →
  (∃ a b, joins mid a b ∧ ((a = coord ∧ b = new) ∨ (b = coord ∧ a = new))) →
  (∀ c, openCell st1 c ↔ c = mid ∨ openCell st c) →
  treeInv st1 (order ++ [mid]) (Some new) ∧
  (∀ a b, a ∈ order ++ [mid] → b ∈ order ++ [mid] →
          adjacent a new → adjacent b new → a = b).
Proof.
  intros Ht Hroom Hnew Hcoord (ja & jb & Hj & Hends) Hopen.
  assert (mid ∉ order) as Hmid.
  { intros Hin. destruct (tree_cells _ _ _ Ht mid Hin) as [Hr|(a & b & Hj' & Ha & Hb)].
    - by destruct (joins_not_room _ _ _ Hj).
    - destruct (joins_unique _ _ _ _ _ Hj Hj') as [<- <-].
      destruct Ha as [Ha|?]; [|done]. destruct Hb as [Hb|?]; [|done].
      destruct Hends as [[_ ->]|[_ ->]]; done. }
  assert (∀ a, a ∈ order → adjacent a mid → a = coord) as Honly.
  { intros a Ha Hadj.
    destruct (joins_neighbor _ _ _ _ Hj Hadj) as [->|[->|Hcross]].
    - destruct Hends as [[-> _]|[_ ->]]; done.
    - destruct Hends as [[_ ->]|[-> _]]; done.
    - by destruct (treeInv_crossing _ _ _ _ Ht Ha). }
  split; [split|].
  - apply NoDup_app. split; [apply (tree_NoDup _ _ _ Ht)|]. split.
    + intros c Hc ->%list_elem_of_singleton. done.
    + apply NoDup_singleton.
  - intros c. rewrite Hopen, elem_of_app, list_elem_of_singleton.
    rewrite (tree_open _ _ _ Ht). tauto.
  - intros c [Hc| ->%list_elem_of_singleton]%elem_of_app.
    + destruct (tree_cells _ _ _ Ht c Hc) as [Hr|(a & b & Hj' & Ha & Hb)]; [by left|].
      right. exists a, b. split; [done|].
      destruct Ha as [Ha|?]; [|done]. destruct Hb as [Hb|?]; [|done].
      split; left; apply elem_of_app; by left.
    + right. exists ja, jb. split; [done|].
      destruct Hends as [[-> ->]|[-> ->]].
      * split; [left; apply elem_of_app; by left|by right].
      * split; [by right|left; apply elem_of_app; by left].
  - apply earlierUnique_snoc_2; [apply (tree_earlier _ _ _ Ht)|].
    intros a b Ha Hb Haa Hbb. by rewrite (Honly a Ha Haa), (Honly b Hb Hbb).
  - assert (∀ a, a ∈ order ++ [mid] → adjacent a new → a = mid) as Hm.
    { intros a [Ha| ->%list_elem_of_singleton]%elem_of_app Hadj; [|done].
      by destruct (treeInv_wall_room st order new a Ht Hroom Hnew Ha). }
    intros a b Ha Hb Haa Hbb. by rewrite (Hm a Ha Haa), (Hm b Hb Hbb).
Qed.

(** Carving the room that was pending. *)
Lemma treeInv_room st st1 order c :
  treeInv st order (Some c) → room c → c ∉ order →
  (∀ a b, a ∈ order → b ∈ order → adjacent a c → adjacent b c → a = b) →
  (∀ c', openCell st1 c' ↔ c' = c ∨ openCell st c') →
  treeInv st1 (order ++ [c]) None.
Proof.
  intros Ht Hroom Hc Hone Hopen. split.
  - apply NoDup_app. split; [apply (tree_NoDup _ _ _ Ht)|]. split.
    + intros c' Hc' ->%list_elem_of_singleton. done.
    + apply NoDup_singleton.
  - intros c'. rewrite Hopen, elem_of_app, list_elem_of_singleton.
    rewrite (tree_open _ _ _ Ht). tauto.
  - intros c' [Hc'| ->%list_elem_of_singleton]%elem_of_app; [|by left].
    destruct (tree_cells _ _ _ Ht c' Hc') as [Hr|(a & b & Hj' & Ha & Hb)]; [by left|].
    right. exists a, b. split; [done|]. split; left; apply elem_of_app.
    + destruct Ha as [Ha|[= ->]]; [by left|right; by apply list_elem_of_singleton].
    + destruct Hb as [Hb|[= ->]]; [by left|right; by apply list_elem_of_singleton].
  - apply earlierUnique_snoc_2; [apply (tree_earlier _ _ _ Ht)|done].
Qed.
End Tree.

Section TreeBacktrack.
Import MazeGenerator.
Variable root : Coordinate.

Lemma openCell_carved st st1 c :
  grows st st1 → openCell st1 c →
  (∀ c', openCell st1 c' → c' = c ∨ openCell st c') →
  ∀ c', openCell st1 c' ↔ c' = c ∨ openCell st c'.
Proof.
  intros (_ & _ & _ & Hgrow) Hc Hnew c'. split; [apply Hnew|].
  intros [->|Hold]; [done|by apply Hgrow].
Qed.

(** The loop of [recursiveBacktrack], given what the recursive calls do. *)
Lemma forOfDirections_tree fuel coord :
  (∀ c st order,
     wellFormed st → connected st root → interior st c →
     cellAt (mazeArray st) (x c) (y c) = Some 1 → linked st root c →
     (walls (mazeArray st) ≤ fuel)%nat →
     treeInv st order (Some c) → room c →
     (∀ a b, a ∈ order → b ∈ order → adjacent a c → adjacent b c → a = b) →
     ∃ st' order', recursiveBacktrack fuel c st = Ok (tt, st') ∧
            wellFormed st' ∧ connected st' root ∧ grows st st' ∧
            (walls (mazeArray st') < walls (mazeArray st))%nat ∧
            treeInv st' order' None) →
  ∀ n i st order,
    wellFormed st → connected st root → interior st coord →
    openCell st coord → (walls (mazeArray st) ≤ fuel)%nat →
    treeInv st order None → room coord →
    ∃ st' order', forOfDirections (carveStep (recursiveBacktrack fuel) coord) n i st
           = Ok (tt, st') ∧
           wellFormed st' ∧ connected st' root ∧ grows st st' ∧
           (walls (mazeArray st') ≤ walls (mazeArray st))%nat ∧
           treeInv st' order' None.
Proof.
  intros Hrec. induction n as [|n IH]; intros i st order Hwf Hconn Hint Hopen Hfuel Ht Hroom.
  - exists st, order. split; [reflexivity|]. split; [done|]. split; [done|].
    split; [apply grows_refl|]. split; done.
  - cbn [forOfDirections]. rewrite (bind_Ok get _ _ _ _ eq_refl).
    destruct (directions st !! i) as [[dx dy]|] eqn:Hd.
    2:{ exists st, order. split; [reflexivity|]. split; [done|]. split; [done|].
        split; [apply grows_refl|]. split; done. }
    pose proof (direction_unit st (dx, dy) Hwf (list_elem_of_lookup_2 _ _ _ Hd)) as Hunit.
    simpl in Hunit.
    set (new := mkCoordinate (x coord + dx * 2) (y coord + dy * 2)).
    set (mid := mkCoordinate (x coord + dx) (y coord + dy)).
    assert (∃ st1 order1,
              carveStep (recursiveBacktrack fuel) coord (dx, dy) st = Ok (tt, st1) ∧
              wellFormed st1 ∧ connected st1 root ∧ grows st st1 ∧
              (walls (mazeArray st1) ≤ walls (mazeArray st))%nat ∧
              treeInv st1 order1 None)
      as (st1 & order1 & Hstep & Hwf1 & Hconn1 & Hgrow1 & Hwalls1 & Ht1).
    { unfold carveStep. rewrite (bind_Ok get _ _ _ _ eq_refl).
      fold new. change (x coord + dx * 2) with (x new).
      change (y coord + dy * 2) with (y new).
      destruct (isValidCoordinate st (x new) (y new)) eqn:Hvalid; cbn [andb].
      2:{ exists st, order. split; [reflexivity|]. split; [done|]. split; [done|].
          split; [apply grows_refl|]. split; done. }
      destruct (bool_decide (cellAt (mazeArray st) (x new) (y new) = Some 1)) eqn:Hwall.
      2:{ exists st, order. split; [reflexivity|]. split; [done|]. split; [done|].
          split; [apply grows_refl|]. split; done. }
      apply bool_decide_eq_true in Hwall.
      apply isValidCoordinate_interior in Hvalid.
      assert (interior st mid) as Hmid.
      { unfold interior in *. simpl in *. lia. }
      assert (adjacent coord mid) as Hadj1 by (unfold adjacent; simpl; lia).
      assert (adjacent mid new) as Hadj2 by (unfold adjacent; simpl; lia).
      destruct (carveCell st mid Hwf Hmid)
        as (st1 & Hset & Hwf1 & Hgrow1 & Hopen1 & Hnew1 & Hother1 & Hwalls1 & _).
      change (x coord + dx) with (x mid). change (y coord + dy) with (y mid).
      rewrite (bind_Ok _ _ _ _ _ Hset).
      destruct (step_joins coord dx dy Hroom) as [Hroomnew Hjoins]; [lia|].
      fold new in Hroomnew. fold mid new in Hjoins.
      assert (new ∉ order) as Hnewo.
      { intros Hin. apply (tree_open _ _ _ Ht) in Hin. unfold openCell in Hin. congruence. }
      destruct (treeInv_joint st st1 order coord mid new Ht Hroomnew Hnewo)
        as [Htj Hone]; [by apply (tree_open _ _ _ Ht)|done| |].
      { by apply openCell_carved. }
      destruct (Hrec new st1 (order ++ [mid])) as (st2 & order2 & Hrb & Hwf2 & Hconn2 & Hgrow2 & Hwalls2 & Ht2).
      - done.
      - apply (connected_carve st st1 root mid); [done..|].
        right. exists coord. by split.
      - by apply (interior_grows st).
      - rewrite Hother1; [done|]. apply not_eq_sym. by apply adjacent_ne.
      - right. exists mid. by split.
      - lia.
      - done.
      - done.
      - done.
      - exists st2, order2. split; [done|]. split; [done|]. split; [done|].
        split; [by apply grows_trans with st1|]. split; [lia|done]. }
    rewrite (bind_Ok _ _ _ _ _ Hstep).
    destruct (IH (S i) st1 order1) as (st2 & order2 & Hloop & Hwf2 & Hconn2 & Hgrow2 & Hwalls2 & Ht2);
      [done|done|by apply (interior_grows st)|by apply Hgrow1|lia|done|done|].
    exists st2, order2. split; [done|]. split; [done|]. split; [done|].
    split; [by apply grows_trans with st1|]. split; [lia|done].
Qed.

Lemma recursiveBacktrack_tree fuel : ∀ c st order,
  wellFormed st → connected st root → interior st c →
  cellAt (mazeArray st) (x c) (y c) = Some 1 → linked st root c →
  (walls (mazeArray st) ≤ fuel)%nat →
  treeInv st order (Some c) → room c →
  (∀ a b, a ∈ order → b ∈ order → adjacent a c → adjacent b c → a = b) →
  ∃ st' order', recursiveBacktrack fuel c st = Ok (tt, st') ∧
         wellFormed st' ∧ connected st' root ∧ grows st st' ∧
         (walls (mazeArray st') < walls (mazeArray st))%nat ∧
         treeInv st' order' None.
Proof.
  induction fuel as [|fuel IH]; intros c st order Hwf Hconn Hint Hwall Hlink Hfuel Ht Hroom Hone.
  - destruct (carveCell st c Hwf Hint) as (st1 & _ & _ & _ & _ & _ & _ & _ & Hw).
    specialize (Hw Hwall). lia.
  - rewrite recursiveBacktrack_S.
    destruct (carveCell st c Hwf Hint)
      as (st1 & Hset & Hwf1 & Hgrow1 & Hopen1 & Hnew1 & _ & _ & Hw).
    specialize (Hw Hwall).
    rewrite (bind_Ok _ _ _ _ _ Hset).
    pose proof (connected_carve st st1 root c Hgrow1 Hnew1 Hopen1 Hconn Hlink) as Hconn1.
    assert (c ∉ order) as Hco.
    { intros Hin. apply (tree_open _ _ _ Ht) in Hin. unfold openCell in Hin. congruence. }
    pose proof (treeInv_room st st1 order c Ht Hroom Hco Hone
                  (openCell_carved st st1 c Hgrow1 Hopen1 Hnew1)) as Ht1.
    destruct (shuffleDirections_spec st1 Hwf1) as (st2 & Hsh & Hp & Hw2 & Hh2 & Hm2 & Hr2).
    rewrite (bind_Ok _ _ _ _ _ Hsh).
    rewrite (bind_Ok get _ _ _ _ eq_refl).
    pose proof (wellFormed_same st1 st2 Hwf1 Hp Hw2 Hh2 Hm2) as Hwf2.
    pose proof (grows_same st1 st2 Hw2 Hh2 Hm2 Hr2) as Hgrow2.
    destruct (forOfDirections_tree fuel c IH (length (directions st2)) 0%nat st2 (order ++ [c]))
      as (st3 & order3 & Hloop & Hwf3 & Hconn3 & Hgrow3 & Hwalls3 & Ht3).
    + done.
    + by apply (connected_same st1).
    + apply (interior_grows st1); [done|]. by apply (interior_grows st).
    + by apply (openCell_same st1 st2).
    + rewrite Hm2. lia.
    + by apply (treeInv_same st1).
    + done.
    + exists st3, order3. split; [done|]. split; [done|]. split; [done|].
      split; [by apply grows_trans with st2; [apply grows_trans with st1|]|].
      split; [|done]. rewrite Hm2 in Hwalls3. lia.
Qed.
End TreeBacktrack.

Section TreeCarve.
Import MazeGenerator.

(** The carved board is a tree of rooms and joints. *)
Lemma carve_tree w h dirs rnd :
  3 ≤ w → 3 ≤ h → dirs ≡ₚ directions0 →
  ∃ st order, carved w h dirs rnd = Ok st ∧
              wellFormed st ∧ width st = w ∧ height st = h ∧
              treeInv st order None.
Proof.
  intros Hw Hh Hd. unfold carved, carve.
  rewrite (bind_Ok get _ _ _ _ eq_refl).
  destruct (randomBelow_spec ((w - 1) / 2) (constructor w h dirs rnd))
    as (rx & Hrx & Hxpos & _).
  change (width (constructor w h dirs rnd)) with w.
  change (height (constructor w h dirs rnd)) with h.
  rewrite (bind_Ok _ _ _ _ _ Hrx).
  match type of Hrx with _ = Ok (_, ?s) => set (st1 := s) end.
  destruct (randomBelow_spec ((h - 1) / 2) st1) as (ry & Hry & Hypos & _).
  rewrite (bind_Ok _ _ _ _ _ Hry).
  match type of Hry with _ = Ok (_, ?s) => set (st2 := s) end.
  set (root := mkCoordinate (1 + rx * 2) (1 + ry * 2)).
  pose proof (wellFormed_constructor w h dirs rnd Hw Hh Hd) as Hwf0.
  assert (wellFormed st2) as Hwf2 by (by apply (wellFormed_same _ _ Hwf0)).
  assert (∀ c, ¬ openCell st2 c) as Hnone.
  { intros c Hc. by apply cellAt_constructor in Hc. }
  assert (0 < (w - 1) / 2) as Hwpos by (apply Z.div_str_pos; lia).
  assert (0 < (h - 1) / 2) as Hhpos by (apply Z.div_str_pos; lia).
  pose proof (Z.mul_div_le (w - 1) 2 ltac:(lia)).
  pose proof (Z.mul_div_le (h - 1) 2 ltac:(lia)).
  assert (interior st2 root) as Hint.
  { unfold interior. simpl. lia. }
  destruct (recursiveBacktrack_tree root (carveFuel w h) root st2 [])
    as (st3 & order & Hrb & Hwf3 & _ & (Hw3 & Hh3 & _) & _ & Ht).
  - done.
  - intros c Hc. destruct (Hnone c Hc).
  - done.
  - destruct (shaped_cell st2 root (wellFormed_shaped _ Hwf2) (interior_inGrid _ _ Hint))
      as (_ & v & _ & _ & Hv).
    rewrite Hv. f_equal. exact (cellAt_constructor w h dirs rnd root v Hv).
  - by left.
  - change (mazeArray st2) with (mazeArray (constructor w h dirs rnd)).
    rewrite walls_constructor by lia. unfold carveFuel. lia.
  - split.
    + constructor.
    + intros c. split; [intros Hc; by destruct (Hnone c)|by intros ?%elem_of_nil].
    + by intros c ?%elem_of_nil.
    + intros i c a b Hc. by rewrite lookup_nil in Hc.
  - split; simpl; [exists rx; lia|exists ry; lia].
  - intros a b Ha. by apply elem_of_nil in Ha.
  - exists st3, order. rewrite Hrb. simpl. split; [done|]. split; [done|].
    split; [by rewrite Hw3|]. split; [by rewrite Hh3|done].
Qed.
End TreeCarve.

Section TreeGenerate.
Import MazeGenerator.

(** A carved cell next to a cell of a side is the one cell inwards. *)
Lemma side_neighbor st side s a b :
  wellFormed st → onSideOf (width st) (height st) side s →
  openCell st a → openCell st b → adjacent a s → adjacent b s → a = b.
Proof.
  intros Hwf Hon Ha Hb Haa Hbb.
  assert (∀ c, openCell st c → interior st c) as Hint.
  { intros c Hc. destruct (decide (interior st c)) as [|Hni]; [done|].
    pose proof (openCell_inGrid st c (wellFormed_shaped _ Hwf) Hc) as Hin.
    pose proof (wf_border _ Hwf c Hin Hni) as H1. unfold openCell in Hc. congruence. }
  apply Hint in Ha, Hb. unfold interior, adjacent, onSideOf in *.
  destruct a as [ax ay], b as [bx by_], s as [sx sy]; simpl in *.
  f_equal; lia.
Qed.

Lemma sides_apart w h s1 s2 s e :
  3 ≤ w → 3 ≤ h → s1 ≠ s2 →
  onSideOf w h s1 s → onSideOf w h s2 e → ¬ adjacent s e.
Proof.
  intros Hw Hh Hne Hs He Hadj. unfold onSideOf, adjacent in *.
  destruct Hs as [(-> & ?)|[(-> & ?)|[(-> & ?)|(-> & ?)]]];
    destruct He as [(-> & ?)|[(-> & ?)|[(-> & ?)|(-> & ?)]]];
    (done || lia).
Qed.

(** The passable cells of a generated grid form a forest. *)
Lemma generate_forest w h dirs rnd m :
  3 ≤ w → 3 ≤ h → dirs ≡ₚ directions0 →
  generate w h dirs rnd = Ok m →
  ∃ order, NoDup order ∧ earlierUnique order ∧ ∀ c, passable m c → c ∈ order.
Proof.
  intros Hw Hh Hd Hm.
  destruct (generate_full w h dirs rnd Hw Hh Hd)
    as [Hthrow|(st & s & e & st' & s1 & s2 & Hcarved & Hm' & Hwf & Hwst & Hhst & Hs1 & Hs2
                & Hne & Hon1 & Hon2 & _ & _ & Hsh & Hw' & Hh' & Hcell)]; [congruence|].
  rewrite Hm in Hm'. injection Hm' as ->.
  destruct (carve_tree w h dirs rnd Hw Hh Hd) as (st0 & order & Hcarved0 & _ & _ & _ & Ht).
  rewrite Hcarved in Hcarved0. injection Hcarved0 as <-.
  rewrite <- Hwst, <- Hhst in Hon1, Hon2.
  assert (∀ side c, onSideOf (width st) (height st) side c → c ∉ order) as Hring.
  { intros side c Hon Hin. apply (tree_open _ _ _ Ht) in Hin.
    assert (cellAt (mazeArray st) (x c) (y c) = Some 1) as H1; [|unfold openCell in Hin; congruence].
    pose proof (wf_width _ Hwf). pose proof (wf_height _ Hwf).
    apply (wf_border _ Hwf).
    - apply inGrid_spec. unfold onSideOf in Hon. lia.
    - unfold interior, onSideOf in *. lia. }
  assert (s ≠ e) as Hse.
  { intros ->. unfold onSideOf in *.
    pose proof (wf_width _ Hwf). pose proof (wf_height _ Hwf).
    destruct Hon1 as [(-> & ?)|[(-> & ?)|[(-> & ?)|(-> & ?)]]];
      destruct Hon2 as [(-> & ?)|[(-> & ?)|[(-> & ?)|(-> & ?)]]];
      (done || lia). }
  exists ((order ++ [s]) ++ [e]). split; [|split].
  - apply NoDup_app. split; [|split; [|apply NoDup_singleton]].
    + apply NoDup_app. split; [apply (tree_NoDup _ _ _ Ht)|]. split; [|apply NoDup_singleton].
      intros c Hc ->%list_elem_of_singleton. by apply (Hring s1 s).
    + intros c [Hc| ->%list_elem_of_singleton]%elem_of_app ->%list_elem_of_singleton; [|done].
      by apply (Hring s2 e).
  - apply earlierUnique_snoc_2; [apply earlierUnique_snoc_2; [apply (tree_earlier _ _ _ Ht)|]|].
    + intros a b Ha Hb. apply (side_neighbor st s1 s a b Hwf Hon1);
        by apply (tree_open _ _ _ Ht).
    + assert (∀ a, a ∈ order ++ [s] → adjacent a e → a ∈ order) as Hin.
      { intros a [Ha| ->%list_elem_of_singleton]%elem_of_app Hadj; [done|].
        destruct (sides_apart (width st) (height st) s1 s2 s e); try done.
        - apply Hwf.
        - apply Hwf. }
      intros a b Ha Hb Haa Hbb.
      apply (side_neighbor st s2 e a b Hwf Hon2); [| |done..];
        apply (tree_open _ _ _ Ht); by apply Hin.
  - intros c Hc. unfold passable, isValidMove in Hc. cbn [getMazeArray] in Hc.
    apply isValidCoordinate_spec in Hc as [_ Hc]. unfold on_wall in Hc.
    assert (cellAt (mazeArray st') (x c) (y c) = Some 0) as H0.
    { destruct (decide (cellAt (mazeArray st') (x c) (y c) = Some 0)); [done|tauto]. }
    rewrite Hcell in H0. rewrite !elem_of_app, !list_elem_of_singleton.
    destruct (decide (c = e)); [by right|]. destruct (decide (c = s)); [left; by right|].
    left; left. by apply (tree_open _ _ _ Ht).
Qed.

(** X24. The carving opens rooms, the cells with two odd coordinates, and
    joints between them: every carved cell is a room, or has one even
    coordinate and lies between two carved rooms along that axis. No cell
    with two even coordinates is carved. *)
Theorem carved_rooms_and_joints w h dirs rnd st :
  3 ≤ w → 3 ≤ h → dirs ≡ₚ directions0 →
  carved w h dirs rnd = Ok st →
  ∀ c, openCell st c →
       room c ∨ ∃ a b, joins c a b ∧ room a ∧ room b ∧ openCell st a ∧ openCell st b.
Proof.
  intros Hw Hh Hd Hst c Hc.
  destruct (carve_tree w h dirs rnd Hw Hh Hd) as (st0 & order & Hcarved0 & _ & _ & _ & Ht).
  rewrite Hst in Hcarved0. injection Hcarved0 as <-.
  apply (tree_open _ _ _ Ht) in Hc.
  destruct (tree_cells _ _ _ Ht c Hc) as [Hr|(a & b & Hj & [Ha|?] & [Hb|?])]; try done;
    [by left|right].
  exists a, b. split; [done|].
  assert (∀ n, n ∈ order → adjacent n c → room n) as Hroom.
  { intros n Hn Hadj. destruct (tree_cells _ _ _ Ht n Hn) as [?|(p & q & Hjn & _)]; [done|].
    exfalso. unfold joins, adjacent in *.
    destruct Hj as [([i Hi] & [j Hj] & _)|([i Hi] & [j Hj] & _)];
      destruct Hjn as [([i' Hi'] & [j' Hj'] & _)|([i' Hi'] & [j' Hj'] & _)]; lia. }
  assert (adjacent a c ∧ adjacent b c) as [Hac Hbc].
  { unfold joins, adjacent in *. destruct Hj as [(_ & _ & -> & ->)|(_ & _ & -> & ->)];
      simpl; lia. }
  split; [by apply Hroom|]. split; [by apply Hroom|].
  split; by apply (tree_open _ _ _ Ht).
Qed.

Lemma carved_rooms_and_joints_witness :
  room (mkCoordinate 1 1) ∨
  ∃ a b, joins (mkCoordinate 1 1) a b ∧ room a ∧ room b ∧
         openCell carved3 a ∧ openCell carved3 b.
Proof.
  apply (carved_rooms_and_joints 3 3 directions0 (tape []) carved3).
  - lia.
  - lia.
  - reflexivity.
  - vm_compute. reflexivity.
  - vm_compute. reflexivity.
Defined.

(** X25. A generated grid has no loops: between any two of its cells there
    is at most one path through passable cells that visits no cell
    twice. *)
Theorem generate_unique_path w h dirs rnd m :
  3 ≤ w → 3 ≤ h → dirs ≡ₚ directions0 →
  generate w h dirs rnd = Ok m →
  ∀ a b p q,
    walk (passable m) a p b → NoDup p →
    walk (passable m) a q b → NoDup q → p = q.
Proof.
  intros Hw Hh Hd Hm a b p q Hp Hpn Hq Hqn.
  destruct (generate_forest w h dirs rnd m Hw Hh Hd Hm) as (order & Hnd & Heu & Hin).
  apply (forest_unique_walk order Hnd Heu a b); [|done| |done].
  - by apply (walk_mono (passable m)).
  - by apply (walk_mono (passable m)).
Qed.

Lemma generate_unique_path_witness :
  [mkCoordinate 1 0; mkCoordinate 1 1; mkCoordinate 2 1]
  = [mkCoordinate 1 0; mkCoordinate 1 1; mkCoordinate 2 1].
Proof.
  assert (walk (passable generated3) (mkCoordinate 1 0)
               [mkCoordinate 1 0; mkCoordinate 1 1; mkCoordinate 2 1]
               (mkCoordinate 2 1)) as Hwalk.
  { apply walk_step with (mkCoordinate 1 1); [reflexivity|unfold adjacent; simpl; lia|].
    apply walk_step with (mkCoordinate 2 1); [reflexivity|unfold adjacent; simpl; lia|].
    apply walk_one. reflexivity. }
  assert (NoDup [mkCoordinate 1 0; mkCoordinate 1 1; mkCoordinate 2 1]) as Hnd.
  { repeat (apply NoDup_cons; split;
            [rewrite ?elem_of_cons, ?elem_of_nil; intros H; intuition discriminate|]).
    apply NoDup_nil_2. }
  apply (generate_unique_path 3 3 directions0 (tape []) generated3
           ltac:(lia) ltac:(lia) ltac:(reflexivity) ltac:(vm_compute; reflexivity)
           (mkCoordinate 1 0) (mkCoordinate 2 1)); done.
Defined.

(** X26. The solution of a generated grid is unique: [findPath] returns a
    path from the entrance to the exit that visits no cell twice, and every
    path from the entrance to the exit through passable cells that visits
    no cell twice is that path. *)
Theorem generated_solution_unique w h dirs rnd m :
  3 ≤ w → 3 ≤ h → dirs ≡ₚ directions0 →
  generate w h dirs rnd = Ok m →
  ∃ p, findPath m = Ok (Some p) ∧ solution m p ∧ NoDup p ∧
       ∀ q, solution m q → NoDup q → q = p.
Proof.
  intros Hw Hh Hd Hm.
  destruct (generate_result w h dirs rnd Hw Hh Hd)
    as [Hthrow|(m' & Hm' & Hs & _ & [q0 Hq0])]; [congruence|].
  assert (m' = m) by congruence. subst m'.
  destruct (findPathTrace_result m Hs) as (r & st & Htrace & Hr).
  destruct r as [p|]; [|destruct Hr as [_ Hno]; by destruct (Hno q0)].
  destruct Hr as [Hsol Hmin].
  assert (NoDup p) as Hnd.
  { destruct (decide (NoDup p)) as [|Hdup]; [done|].
    destruct (walk_shortcut _ _ _ _ Hsol Hdup) as (l' & Hw' & Hlen).
    specialize (Hmin l' Hw'). unfold moves in Hmin. lia. }
  exists p. split; [apply findPath_trace; eauto|]. split; [done|]. split; [done|].
  intros q Hq Hqn.
  destruct (generate_forest w h dirs rnd m Hw Hh Hd Hm) as (order & Hndo & Heu & Hin).
  apply (forest_unique_walk order Hndo Heu (getStart m) (getEnd m)); [|done| |done].
  - by apply (walk_mono (passable m)).
  - by apply (walk_mono (passable m)).
Qed.

Lemma generated_solution_unique_witness :
  ∃ p, findPath generated3 = Ok (Some p) ∧ solution generated3 p ∧ NoDup p ∧
       ∀ q, solution generated3 q → NoDup q → q = p.
Proof.
  apply (generated_solution_unique 3 3 directions0 (tape [])).
  - lia.
  - lia.
  - reflexivity.
  - vm_compute. reflexivity.
Defined.
End TreeGenerate.

(** * Boards too small to carve *)

Section Small.
Import MazeGenerator.

Lemma carve_height_one w dirs rnd :
  carve (carveFuel w 1) (constructor w 1 dirs rnd) = Throw "TypeError".
Proof.
  unfold carve. rewrite (bind_Ok get _ _ _ _ eq_refl).
  destruct (randomBelow_spec ((w - 1) / 2) (constructor w 1 dirs rnd)) as (rx & Hrx & _).
  change (width (constructor w 1 dirs rnd)) with w.
  change (height (constructor w 1 dirs rnd)) with 1.
  rewrite (bind_Ok _ _ _ _ _ Hrx).
  match type of Hrx with _ = Ok (_, ?s) => set (st1 := s) end.
  destruct (randomBelow_spec ((1 - 1) / 2) st1) as (ry & Hry & _ & Hzero).
  rewrite (bind_Ok _ _ _ _ _ Hry).
  rewrite (Hzero ltac:(done)).
  unfold carveFuel. rewrite recursiveBacktrack_S.
  apply bind_Throw. reflexivity.
Qed.

(** X27. A board of height 1 cannot be generated: whatever its width (not negative)
    and the random numbers, [generate] fails with a [TypeError] at its first
    write, which is to row 1 of a board that has row 0 only. *)
Theorem generate_height_one w dirs rnd :
  0 ≤ w → generate w 1 dirs rnd = Throw "TypeError".
Proof.
  intros _. unfold generate, generateFrom.
  by rewrite (bind_Throw _ _ _ _ (carve_height_one w dirs rnd)).
Qed.

Lemma generate_height_one_witness :
  generate 5 1 directions0 (tape []) = Throw "TypeError".
Proof.
  apply (generate_height_one 5 directions0 (tape [])). lia.
Defined.
End Small.

(** * The two solvers on a generated grid *)

Lemma shortest_NoDup m p :
  solution m p → (∀ q, solution m q → moves p ≤ moves q) → NoDup p.
Proof.
  intros Hsol Hmin. destruct (decide (NoDup p)) as [|Hdup]; [done|].
  destruct (walk_shortcut _ _ _ _ Hsol Hdup) as (l' & Hw' & Hlen).
  specialize (Hmin l' Hw'). unfold moves in Hmin. lia.
Qed.

(** X28. On a generated grid the two solvers return the same path: for a
    width and a height of at least 3, on a grid that [generate] returns, the
    breadth-first [findPath] and the A-star [findPath] return one and the
    same list of coordinates. *)
Theorem generated_maze_same_path w h dirs rnd m :
  3 ≤ w → 3 ≤ h → dirs ≡ₚ MazeGenerator.directions0 →
  MazeGenerator.generate w h dirs rnd = Ok m →
  ∃ p, DistSolver.findPath m = Ok (Some p) ∧ findPath m = Ok (Some p).
Proof.
  intros Hw Hh Hd Hm.
  destruct (generate_result w h dirs rnd Hw Hh Hd)
    as [Hthrow|(m' & Hm' & Hs & _ & [q0 Hq0])]; [congruence|].
  assert (m' = m) by congruence. subst m'.
  destruct (bfs_findPath_result m Hs) as (r & Hbfs & Hr).
  destruct (findPathTrace_result m Hs) as (r' & st & Htrace & Hr').
  destruct r as [p|]; [|by destruct (Hr q0)].
  destruct r' as [p'|]; [|destruct Hr' as [_ Hno]; by destruct (Hno q0)].
  destruct Hr as [Hsol Hmin], Hr' as [Hsol' Hmin'].
  destruct (generate_forest w h dirs rnd m Hw Hh Hd Hm) as (order & Hndo & Heu & Hin).
  assert (p' = p) as ->.
  { apply (forest_unique_walk order Hndo Heu (getStart m) (getEnd m)).
    - by apply (walk_mono (passable m)).
    - by apply (shortest_NoDup m).
    - by apply (walk_mono (passable m)).
    - by apply (shortest_NoDup m). }
  exists p. split; [done|]. apply findPath_trace. eauto.
Qed.

Lemma generated_maze_same_path_witness :
  ∃ p, DistSolver.findPath generated3 = Ok (Some p) ∧ findPath generated3 = Ok (Some p).
Proof.
  apply (generated_maze_same_path 3 3 MazeGenerator.directions0 (tape [])).
  - lia.
  - lia.
  - reflexivity.
  - vm_compute. reflexivity.
Defined.
